(** * Truth-table calculator (src/logic.js): a shallow embedding and its properties

    The program turns a comma-separated list of propositional statements into
    JavaScript boolean expressions by regular-expression rewriting, lists the
    free variables, enumerates their assignments and evaluates every
    expression under every assignment with [eval].

    Strings are JavaScript strings restricted to code units below 256 (the
    Latin-1 range), one [ascii] per code unit.  Regular expressions are kept
    as syntax trees and run by a backtracking matcher that follows the
    ECMAScript matcher (leftmost match, ordered alternatives, greedy and lazy
    repetition, look-around, captures). *)

From Stdlib Require Import Ascii String.
From Stdlib Require Import List ZArith Lia Bool Arith.
Import ListNotations.

Set Implicit Arguments.

Definition str := list ascii.

Coercion list_ascii_of_string : string >-> list.

Open Scope string_scope.
Open Scope nat_scope.
Open Scope list_scope.

(** ** Characters *)

Module Chars.

Definition code (c : ascii) : nat := nat_of_ascii c.

Definition between (lo hi : nat) (c : ascii) : bool :=
  (lo <=? code c) && (code c <=? hi).

Definition is_digit (c : ascii) : bool := between 48 57 c.
Definition is_upper (c : ascii) : bool := between 65 90 c.
Definition is_lower (c : ascii) : bool := between 97 122 c.

(** [\w]: [A-Za-z0-9_]. *)
Definition is_word (c : ascii) : bool :=
  is_upper c || is_lower c || is_digit c || Ascii.eqb c "_".

(** [\s] and [String.prototype.trim]: tab, line feed, vertical tab, form
    feed, carriage return, space and no-break space. *)
Definition is_space (c : ascii) : bool :=
  between 9 13 c || (code c =? 32) || (code c =? 160).

(** Line terminators, which [.] does not match. *)
Definition is_line_terminator (c : ascii) : bool :=
  (code c =? 10) || (code c =? 13).

(** Canonical form of a character under the [i] flag (no [u] flag): the upper
    case letter; [a-z] and the Latin-1 letters U+00E0..U+00FE except the
    division sign have one in the range. *)
Definition canonicalize (c : ascii) : ascii :=
  if is_lower c then ascii_of_nat (code c - 32)
  else if between 224 254 c && negb (code c =? 247) then ascii_of_nat (code c - 32)
  else c.

End Chars.

Import Chars.

(** ** Regular expressions *)

Inductive regex : Type :=
| Chr (c : ascii)               (* a literal character *)
| Txt (s : string)              (* a sequence of literal characters *)
| Dot                           (* [.] *)
| Cls (p : ascii -> bool)       (* a character class *)
| Seq (r1 r2 : regex)
| Alt (r1 r2 : regex)
| Plus (r : regex)              (* [r+] *)
| PlusLazy (r : regex)          (* [r+?] *)
| Grp (n : nat) (r : regex)     (* capture group number n *)
| Bol                           (* [^] *)
| Eol                           (* [$] *)
| WordB                         (* [\b] *)
| Ahead (r : regex)             (* [(?=r)] *)
| Behind (r : regex)            (* [(?<=r)] *)
| NotBehind (r : regex).        (* [(?<!r)] *)

Fixpoint seqs (rs : list regex) : regex :=
  match rs with
  | [] => Txt ""
  | [r] => r
  | r :: rs' => Seq r (seqs rs')
  end.

Fixpoint alts (rs : list regex) : regex :=
  match rs with
  | [] => Cls (fun _ => false)
  | [r] => r
  | r :: rs' => Alt r (alts rs')
  end.

(** A position in the subject: the text before it, nearest character first,
    and the text after it. *)
Definition zipper := (str * str)%type.

Definition captures := list (nat * str).

Fixpoint capture (n : nat) (cs : captures) : str :=
  match cs with
  | [] => []
  | (m, s) :: cs' => if m =? n then s else capture n cs'
  end.

Module Matcher.

Section Run.

(** The [i] flag. *)
Variable ignoreCase : bool.

Definition same_char (a b : ascii) : bool :=
  if ignoreCase then Ascii.eqb (canonicalize a) (canonicalize b) else Ascii.eqb a b.

(** What is left to read in the direction of the match. *)
Definition ahead (fwd : bool) (z : zipper) : str :=
  if fwd then snd z else fst z.

(** Reads one character in the direction of the match. *)
Definition advance (fwd : bool) (z : zipper) : option (ascii * zipper) :=
  match fwd, z with
  | true, (b, c :: a) => Some (c, (c :: b, a))
  | false, (c :: b, a) => Some (c, (b, c :: a))
  | _, _ => None
  end.

(** The text between two positions. *)
Definition between_positions (z1 z2 : zipper) : str :=
  let n1 := length (fst z1) in
  let n2 := length (fst z2) in
  if n1 <=? n2 then rev (firstn (n2 - n1) (fst z2))
  else rev (firstn (n1 - n2) (fst z1)).

Definition at_word_boundary (z : zipper) : bool :=
  let w (s : str) := match s with c :: _ => is_word c | [] => false end in
  negb (Bool.eqb (w (fst z)) (w (snd z))).

Definition one (A : Type) (fwd : bool) (p : ascii -> bool) (z : zipper)
    (k : zipper -> option A) : option A :=
  match advance fwd z with
  | Some (c, z') => if p c then k z' else None
  | None => None
  end.

Fixpoint text (A : Type) (fwd : bool) (s : str) (z : zipper)
    (k : zipper -> option A) : option A :=
  match s with
  | [] => k z
  | c :: s' => one fwd (same_char c) z (fun z' => text fwd s' z' k)
  end.

(** The iterations of [r+] and [r+?] after the first, for the matcher [m] of
    [r]: an iteration that reads nothing is refused, so [n], the number of
    characters left, bounds the number of iterations. *)
Section Repeat.

Variable A : Type.
Variable m : zipper -> captures -> (zipper -> captures -> option A) -> option A.
Variable fwd : bool.
Variable k : zipper -> captures -> option A.

Definition progress (z z' : zipper) : bool :=
  negb (length (ahead fwd z') =? length (ahead fwd z)).

Fixpoint more_greedy (n : nat) (z : zipper) (cs : captures) : option A :=
  match n with
  | 0 => k z cs
  | S n' =>
      match m z cs (fun z' cs' => if progress z z' then more_greedy n' z' cs' else None) with
      | Some x => Some x
      | None => k z cs
      end
  end.

Fixpoint more_lazy (n : nat) (z : zipper) (cs : captures) : option A :=
  match n with
  | 0 => k z cs
  | S n' =>
      match k z cs with
      | Some x => Some x
      | None => m z cs (fun z' cs' => if progress z z' then more_lazy n' z' cs' else None)
      end
  end.

End Repeat.

(** The matcher, in continuation-passing style: [rmatch fwd r z cs k] matches
    [r] at [z] in direction [fwd] and hands the position reached and the
    captures to [k]; when [k] fails it backtracks into [r]. *)
Fixpoint rmatch (A : Type) (fwd : bool) (r : regex) (z : zipper) (cs : captures)
    (k : zipper -> captures -> option A) {struct r} : option A :=
  match r with
  | Chr c => one fwd (same_char c) z (fun z' => k z' cs)
  | Txt s =>
      text fwd (if fwd then list_ascii_of_string s else rev (list_ascii_of_string s)) z
        (fun z' => k z' cs)
  | Dot => one fwd (fun c => negb (is_line_terminator c)) z (fun z' => k z' cs)
  | Cls p => one fwd p z (fun z' => k z' cs)
  | Seq r1 r2 =>
      if fwd
      then rmatch fwd r1 z cs (fun z' cs' => rmatch fwd r2 z' cs' k)
      else rmatch fwd r2 z cs (fun z' cs' => rmatch fwd r1 z' cs' k)
  | Alt r1 r2 =>
      match rmatch fwd r1 z cs k with
      | Some x => Some x
      | None => rmatch fwd r2 z cs k
      end
  | Plus r' =>
      rmatch fwd r' z cs (fun z1 cs1 =>
        more_greedy (fun z cs k => rmatch fwd r' z cs k) fwd k (length (ahead fwd z1)) z1 cs1)
  | PlusLazy r' =>
      rmatch fwd r' z cs (fun z1 cs1 =>
        more_lazy (fun z cs k => rmatch fwd r' z cs k) fwd k (length (ahead fwd z1)) z1 cs1)
  | Grp n r' =>
      rmatch fwd r' z cs (fun z' cs' => k z' ((n, between_positions z z') :: cs'))
  | Bol => match fst z with [] => k z cs | _ => None end
  | Eol => match snd z with [] => k z cs | _ => None end
  | WordB => if at_word_boundary z then k z cs else None
  | Ahead r' =>
      match rmatch true r' z cs (fun _ cs' => Some cs') with
      | Some cs' => k z cs'
      | None => None
      end
  | Behind r' =>
      match rmatch false r' z cs (fun _ cs' => Some cs') with
      | Some cs' => k z cs'
      | None => None
      end
  | NotBehind r' =>
      match rmatch false r' z cs (fun _ _ => Some tt) with
      | Some _ => None
      | None => k z cs
      end
  end.

(** One attempt at one position: the end of the match and its captures. *)
Definition exec (r : regex) (z : zipper) : option (zipper * captures) :=
  rmatch true r z [] (fun z' cs => Some (z', cs)).

End Run.

End Matcher.

(** A regular expression object: the pattern and its [i] flag (every
    expression of the program has the [g] flag). *)
Record RegExp := { pattern : regex; ignoreCase : bool }.

(** What a replacement function receives: the matched text and the groups. *)
Record matched := { whole : str; groups : captures }.

Definition group (n : nat) (m : matched) : str := capture n (groups m).

Section Global.

Variable re : RegExp.

Definition exec_at (before after : str) : option (zipper * captures) :=
  Matcher.exec (ignoreCase re) (pattern re) (before, after).

(** The matches of a global expression from a position on, left to right: the
    matcher is tried at each position in turn, the search resumes where a
    match ended, one further on after an empty match.  The result is the
    subject cut into the characters kept ([inl]) and the matches ([inr]). *)
Fixpoint pieces_from (n : nat) (before after : str) : list (ascii + matched) :=
  match n with
  | 0 => []
  | S n' =>
      match exec_at before after with
      | Some ((before', after'), cs) =>
          let m := {| whole := Matcher.between_positions (before, after) (before', after');
                      groups := cs |} in
          if length after' =? length after then
            inr m :: match after with
                     | [] => []
                     | c :: rest => inl c :: pieces_from n' (c :: before) rest
                     end
          else inr m :: pieces_from n' before' after'
      | None =>
          match after with
          | [] => []
          | c :: rest => inl c :: pieces_from n' (c :: before) rest
          end
      end
  end.

Definition pieces (s : str) : list (ascii + matched) :=
  pieces_from (S (length s)) [] s.

(** [s.replaceAll(re, f)] for a replacement function [f]. *)
Definition replaceAllWith (f : matched -> str) (s : str) : str :=
  flat_map (fun p => match p with inl c => [c] | inr m => f m end) (pieces s).

(** [s.replaceAll(re, t)] for a replacement text without [$]. *)
Definition replaceAll (t : str) (s : str) : str :=
  replaceAllWith (fun _ => t) s.

(** [s.match(re)]: the matched texts ([null] is the empty list here, the only
    use spreads the result through [new Set]). *)
Definition matchAll (s : str) : list str :=
  flat_map (fun p => match p with inl _ => [] | inr m => [whole m] end) (pieces s).

End Global.

(** ** The program's regular expressions *)

Module regularExpressions.

Definition boundary_before : regex := Behind (alts [Chr " "; Bol]).
Definition boundary_after : regex := Ahead (alts [Chr " "; Eol]).
Definition paren_before : regex := Behind (alts [Chr " "; Bol; Chr "("; Chr ")"]).
Definition paren_after : regex := Ahead (alts [Chr " "; Eol; Chr "("; Chr ")"]).

Definition global (r : regex) : RegExp := {| pattern := r; ignoreCase := false |}.

(** [/(?<= |^|\(|\))(T|true)(?= |$|\(|\))+/g] *)
Definition true_ : RegExp :=
  global (seqs [paren_before; Grp 1 (alts [Txt "T"; Txt "true"]); Plus paren_after]).

(** [/(?<= |^|\(|\))(F|false)(?= |$|\(|\))+/g] *)
Definition false_ : RegExp :=
  global (seqs [paren_before; Grp 1 (alts [Txt "F"; Txt "false"]); Plus paren_after]).

(** [/(?<= |^)(and|[&]|\/\\|\^)+(?= |$)/g] *)
Definition and : RegExp :=
  global (seqs [boundary_before;
                Plus (Grp 1 (alts [Txt "and"; Cls (Ascii.eqb "&"); Txt "/\"; Chr "^"]));
                boundary_after]).

(** [/(?<= |^)(or|[\|]|\\\/)+(?= |$)/g] *)
Definition or : RegExp :=
  global (seqs [boundary_before;
                Plus (Grp 1 (alts [Txt "or"; Cls (Ascii.eqb "|"); Txt "\/"]));
                boundary_after]).

(** The last spelling of the source, two code units U+00C2 U+00AC. *)
Definition not_sign : string := String (ascii_of_nat 194) (String (ascii_of_nat 172) "").

(** [/(?<= |^|\(|\))(not |not|!|..)+/g] *)
Definition not : RegExp :=
  global (seqs [paren_before;
                Plus (Grp 1 (alts [Txt "not "; Txt "not"; Chr "!"; Txt not_sign]))]).

(** [(?<!<)-+>] *)
Definition arrow : regex := seqs [NotBehind (Chr "<"); Plus (Chr "-"); Chr ">"].

(** [/(.[^-]+?)(?:then|(?<!<)-+>)(.+)/g] *)
Definition thenWrap : RegExp :=
  global (seqs [Grp 1 (Seq Dot (PlusLazy (Cls (fun c => negb (Ascii.eqb c "-")))));
                alts [Txt "then"; arrow];
                Grp 2 (Plus Dot)]).

(** [/(then|(?<!<)-+>)/g] *)
Definition then_ : RegExp := global (Grp 1 (alts [Txt "then"; arrow])).

(** [/(?<= |^)(<-+>|=)+(?= |$)/g] *)
Definition equals : RegExp :=
  global (seqs [boundary_before;
                Plus (Grp 1 (alts [seqs [Chr "<"; Plus (Chr "-"); Chr ">"]; Chr "="]));
                boundary_after]).

(** [/(?<= |^)(\(\+\)|xor)+(?= |$)/g] *)
Definition xor : RegExp :=
  global (seqs [boundary_before; Plus (Grp 1 (alts [Txt "(+)"; Txt "xor"])); boundary_after]).

(** [[^\W\s01]]: a word character that is neither [0] nor [1]. *)
Definition premise_char (c : ascii) : bool :=
  negb (negb (is_word c) || is_space c || Ascii.eqb c "0" || Ascii.eqb c "1").

(** [/[^\W\s01]+/g] *)
Definition premises : RegExp := global (Plus (Cls premise_char)).

(** [new RegExp(`\\b(${premise})\\b`, 'gi')]; a premise is made of word
    characters, which stand for themselves in a pattern. *)
Definition wholeWord (premise : str) : RegExp :=
  {| pattern := seqs [WordB; Grp 1 (Txt (string_of_list_ascii premise)); WordB];
     ignoreCase := true |}.

End regularExpressions.

(** ** String operations *)

(** [s.trim()] *)
Fixpoint trimStart (s : str) : str :=
  match s with
  | c :: s' => if is_space c then trimStart s' else s
  | [] => []
  end.

Definition trim (s : str) : str := rev (trimStart (rev (trimStart s))).

(** [s.substr(start, length)], on integers as JavaScript has them. *)
Definition substr (s : str) (start len : Z) : str :=
  let size := Z.of_nat (length s) in
  let from := if (start <? 0)%Z then Z.max (size + start) 0 else Z.min start size in
  let len' := Z.min (Z.max len 0) (size - from) in
  firstn (Z.to_nat len') (skipn (Z.to_nat from) s).

(** [s.substr(start)] *)
Definition substr_from (s : str) (start : Z) : str :=
  substr s start (Z.of_nat (length s)).

(** [s[i]], [None] for [undefined]. *)
Definition charAt (s : str) (i : Z) : option ascii :=
  if (i <? 0)%Z then None else nth_error s (Z.to_nat i).

(** [s.split(',')]: the pieces between the separators, at least one. *)
Fixpoint split (sep : ascii) (s : str) : list str :=
  match s with
  | [] => [[]]
  | c :: s' =>
      if Ascii.eqb c sep then [] :: split sep s'
      else match split sep s' with
           | p :: ps => (c :: p) :: ps
           | [] => [[c]]
           end
  end.

(** [a.join(',')] *)
Fixpoint join (sep : str) (l : list str) : str :=
  match l with
  | [] => []
  | [s] => s
  | s :: l' => s ++ sep ++ join sep l'
  end.

(** [s.replaceAll(c, t)] for a one-character search text. *)
Definition replaceAllChar (c : ascii) (t : str) (s : str) : str :=
  flat_map (fun x => if Ascii.eqb x c then t else [x]) s.

(** ** The Parenthesis Rewriter *)

Record scan := {
  scan_string : str;     (* [string] *)
  control : Z;           (* depth of nesting *)
  startIndex : Z         (* index of the current outermost opening parenthesis *)
}.

(** The body of the [for] loop of [replaceParanthesis] at index [i]: the new
    state and the value of [i] when the body ends. *)
Definition replaceParanthesis_body (callback : str -> str) (st : scan) (i : Z) : scan * Z :=
  let string := scan_string st in
  match charAt string i with
  | Some "("%char =>
      let control := (control st + 1)%Z in
      ({| scan_string := string; control := control;
          startIndex := if (control =? 1)%Z then i else startIndex st |}, i)
  | Some ")"%char =>
      let control := (control st - 1)%Z in
      if (control =? 0)%Z then
        let startIndex := startIndex st in
        let replacementString := callback (substr string (startIndex + 1) (i - startIndex - 1)) in
        ({| scan_string := substr string 0 (startIndex + 1) ++ replacementString
                           ++ substr_from string i;
            control := control; startIndex := startIndex |},
         (startIndex + Z.of_nat (length replacementString) + 3)%Z)
      else ({| scan_string := string; control := control; startIndex := startIndex st |}, i)
  | _ => (st, i)
  end.

(** The loop [for (let i = ..; i < string.length; i++)]; [fuel] bounds the
    number of iterations. *)
Fixpoint replaceParanthesis_loop (fuel : nat) (callback : str -> str) (st : scan) (i : Z) : str :=
  match fuel with
  | 0 => scan_string st
  | S fuel' =>
      if (i <? Z.of_nat (length (scan_string st)))%Z then
        let '(st', i') := replaceParanthesis_body callback st i in
        replaceParanthesis_loop fuel' callback st' (i' + 1)%Z
      else scan_string st
  end.

(** Every iteration brings [i] at least one closer to the end of [string], so
    as many iterations as the string is long are enough
    ([replaceParanthesis_loop_fuel] below). *)
Definition replaceParanthesis (string : str) (callback : str -> str) : str :=
  replaceParanthesis_loop (length string) callback
    {| scan_string := string; control := 0; startIndex := -1 |} 0%Z.

(** ** The Expression Compiler *)

Import regularExpressions.

(** The replacement function of the implication step. *)
Definition wrapThen (m : matched) : str :=
  "!(" ++ trim (group 1 m) ++ ") || (" ++ trim (group 2 m) ++ ")".

(** The chain of token replacements at the end of [parse]. *)
Definition translate (logic : str) : str :=
  replaceAll false_ "0"
    (replaceAll true_ "1"
      (replaceAll xor "^"
        (replaceAll equals "=="
          (replaceAll or "||"
            (replaceAll and "&&"
              (replaceAll not "!" logic)))))).

(** [parse] calls itself on the inside of each outermost parenthesis group;
    [depth] bounds the nesting of these calls. *)
Fixpoint parse_depth (depth : nat) (logic : str) : str :=
  match depth with
  | 0 => logic
  | S depth' =>
      let logic := replaceParanthesis logic (parse_depth depth') in
      let logic := replaceAllWith thenWrap wrapThen logic in
      translate logic
  end.

(** The inside of a group is shorter than the text it is in, so a depth of
    one more than the length is never used up ([parse_unfold] below). *)
Definition parse (logic : str) : str := parse_depth (S (length logic)) logic.

(** [prettyPrint] *)
Definition prettyPrint (string : str) : str :=
  replaceAllChar ")" "&rpar;"
    (replaceAllChar "(" "&lpar;"
      (replaceAll equals "&equiv;"
        (replaceAll xor "&oplus;"
          (replaceAll then_ "&rarr;"
            (replaceAll not "&sim;"
              (replaceAll or "&or;"
                (replaceAll and "&and;" string))))))).

(** ** Values and [eval] *)

(** The JavaScript values of a truth table. *)
Inductive value : Type :=
| VUndefined
| VBool (b : bool)
| VNum (n : Z)
| VStr (s : str).

(** The decimal digits of a natural number, at most [fuel] of them. *)
Fixpoint digits (fuel : nat) (n : nat) (acc : str) : str :=
  match fuel with
  | 0 => acc
  | S fuel' =>
      let acc' := ascii_of_nat (48 + n mod 10) :: acc in
      if n <? 10 then acc' else digits fuel' (n / 10) acc'
  end.

(** [String(v)], the text that [replaceAll] puts in for a value. *)
Definition toString (v : value) : str :=
  match v with
  | VUndefined => "undefined"
  | VBool true => "true"
  | VBool false => "false"
  | VNum n =>
      (if (n <? 0)%Z then "-" else "") ++ digits (S (Z.abs_nat n)) (Z.abs_nat n) []
  | VStr s => s
  end.

(** [eval] is modelled on the texts the compiler is meant to produce: the
    literals [true] and [false], numerals, identifiers, the prefix [!], the
    infix [&&], [||], [==] and [^], parentheses and blanks, read with the
    grammar, the precedence and the values of JavaScript (so a parenthesis
    after an operand is a call).  An identifier is taken to be unbound, so
    evaluating one throws; the names that are bound where [eval] is called
    (the variables of [calculateTruthTable], the globals) are not modelled,
    nor is anything that writes to them.  A text with any other character or
    token is outside the model and counts as a syntax error.  So the model
    is what [eval] does on the texts without identifiers that the lexer
    accepts, which [fully_substituted] singles out below. *)
Module Eval.

Inductive token : Type :=
| TTrue | TFalse
| TNum (n : Z)
| TIdent (name : str)
| TNot | TAnd | TOr | TEq | TXor
| TOpen | TClose.

(** Blanks between tokens: tab, vertical tab, form feed, space, no-break
    space (a line break may end a statement and is not modelled). *)
Definition is_blank (c : ascii) : bool :=
  is_space c && negb (is_line_terminator c).

(** The characters of an identifier: word characters, [$] and the letters of
    the Latin-1 range. *)
Definition is_ident_char (c : ascii) : bool :=
  is_word c || Ascii.eqb c "$"
  || (code c =? 170) || (code c =? 181) || (code c =? 186)
  || (between 192 255 c && negb (code c =? 215) && negb (code c =? 247)).

Fixpoint span (p : ascii -> bool) (s : str) : str * str :=
  match s with
  | c :: s' => if p c then let (a, b) := span p s' in (c :: a, b) else ([], s)
  | [] => ([], [])
  end.

Definition digit_value (c : ascii) : Z := Z.of_nat (code c - 48).

(** The value of a run of digits: decimal, or octal for a run of octal digits
    after a leading zero. *)
Definition numeral (ds : str) : Z :=
  let base : Z :=
    match ds with
    | "0"%char :: _ :: _ => if forallb (fun c => code c <=? 55) ds then 8%Z else 10%Z
    | _ => 10%Z
    end in
  fold_left (fun acc c => (acc * base + digit_value c)%Z) ds 0%Z.

Definition word_token (w : str) : token :=
  if list_eq_dec ascii_dec w "true" then TTrue
  else if list_eq_dec ascii_dec w "false" then TFalse
  else TIdent w.

(** The lexer; [None] is a syntax error. *)
Fixpoint tokens_fuel (fuel : nat) (s : str) : option (list token) :=
  match fuel with
  | 0 => match s with [] => Some [] | _ => None end
  | S fuel' =>
      let cons (t : token) (rest : str) :=
        option_map (fun ts => t :: ts) (tokens_fuel fuel' rest) in
      match s with
      | [] => Some []
      | c :: s' =>
          if is_blank c then tokens_fuel fuel' s'
          else if Ascii.eqb c "(" then cons TOpen s'
          else if Ascii.eqb c ")" then cons TClose s'
          else if Ascii.eqb c "^" then cons TXor s'
          else if Ascii.eqb c "&" then
            match s' with "&"%char :: s'' => cons TAnd s'' | _ => None end
          else if Ascii.eqb c "|" then
            match s' with "|"%char :: s'' => cons TOr s'' | _ => None end
          else if Ascii.eqb c "=" then
            match s' with
            | "="%char :: "="%char :: _ => None
            | "="%char :: s'' => cons TEq s''
            | _ => None
            end
          else if Ascii.eqb c "!" then
            match s' with "="%char :: _ => None | _ => cons TNot s' end
          else if is_digit c then
            let (ds, rest) := span is_digit s in
            if 15 <? length ds then None
            else match rest with
                 | c' :: _ => if is_ident_char c' then None else cons (TNum (numeral ds)) rest
                 | [] => cons (TNum (numeral ds)) rest
                 end
          else if is_ident_char c then
            let (w, rest) := span is_ident_char s in cons (word_token w) rest
          else None
      end
  end.

Definition tokens (s : str) : option (list token) := tokens_fuel (length s) s.

Inductive expr : Type :=
| Lit (v : value)
| Ident (name : str)
| Call (f : expr)                  (* [f()] *)
| CallWith (f : expr) (a : expr)   (* [f(a)] *)
| Not (e : expr)
| And (e1 e2 : expr)
| Or (e1 e2 : expr)
| Eq (e1 e2 : expr)
| Xor (e1 e2 : expr).

(** The binary operators by level, loosest first, as in the grammar of
    ECMAScript: [||], then [&&], then [^], then [==]. *)
Definition binary (level : nat) (t : token) : option (expr -> expr -> expr) :=
  match level, t with
  | 0, TOr => Some Or
  | 1, TAnd => Some And
  | 2, TXor => Some Xor
  | 3, TEq => Some Eq
  | _, _ => None
  end.

(** Recursive descent.  [parse_level fuel l ts] reads an expression of level
    [l]: levels 0 to 3 are the binary operators of [binary], left
    associative, level 4 is a unary expression and level 5 an operand with
    the argument lists that follow it. *)
Fixpoint parse_level (fuel : nat) (level : nat) (ts : list token)
    : option (expr * list token) :=
  match fuel with
  | 0 => None
  | S fuel' =>
      if level <? 4 then
        match parse_level fuel' (S level) ts with
        | Some (e, rest) =>
            (fix operands (n : nat) (e : expr) (rest : list token) {struct n}
                : option (expr * list token) :=
               match n, rest with
               | S n', t :: rest' =>
                   match binary level t with
                   | Some op =>
                       match parse_level fuel' (S level) rest' with
                       | Some (e', rest'') => operands n' (op e e') rest''
                       | None => None
                       end
                   | None => Some (e, rest)
                   end
               | _, _ => Some (e, rest)
               end) (length rest) e rest
        | None => None
        end
      else if level =? 4 then
        match ts with
        | TNot :: rest =>
            match parse_level fuel' 4 rest with
            | Some (e, rest') => Some (Not e, rest')
            | None => None
            end
        | _ => parse_level fuel' 5 ts
        end
      else
        let calls :=
          fix calls (n : nat) (e : expr) (rest : list token) {struct n}
              : option (expr * list token) :=
            match n, rest with
            | S n', TOpen :: TClose :: rest' => calls n' (Call e) rest'
            | S n', TOpen :: rest' =>
                match parse_level fuel' 0 rest' with
                | Some (a, TClose :: rest'') => calls n' (CallWith e a) rest''
                | _ => None
                end
            | _, _ => Some (e, rest)
            end in
        match ts with
        | TTrue :: rest => calls (length rest) (Lit (VBool true)) rest
        | TFalse :: rest => calls (length rest) (Lit (VBool false)) rest
        | TNum n :: rest => calls (length rest) (Lit (VNum n)) rest
        | TIdent x :: rest => calls (length rest) (Ident x) rest
        | TOpen :: rest =>
            match parse_level fuel' 0 rest with
            | Some (e, TClose :: rest') => calls (length rest') e rest'
            | _ => None
            end
        | _ => None
        end
  end.

(** The whole text is one expression; six nested calls at most go by without
    a token being read. *)
Definition parse_expr (ts : list token) : option expr :=
  match parse_level (7 * S (length ts)) 0 ts with
  | Some (e, []) => Some e
  | _ => None
  end.

Definition toBoolean (v : value) : bool :=
  match v with
  | VUndefined => false
  | VBool b => b
  | VNum n => negb (n =? 0)%Z
  | VStr s => match s with [] => false | _ => true end
  end.

(** [ToNumber] on booleans and numbers, the values an expression can have. *)
Definition toNumber (v : value) : Z :=
  match v with
  | VBool true => 1
  | VNum n => n
  | _ => 0
  end.

(** [ToInt32] on integers. *)
Definition toInt32 (n : Z) : Z :=
  let m := (n mod 2 ^ 32)%Z in
  if (m <? 2 ^ 31)%Z then m else (m - 2 ^ 32)%Z.

(** What stops an evaluation. *)
Inductive failure : Type :=
| SyntaxError
| ReferenceError (name : str)
| TypeError.

(** Evaluation; [&&] and [||] give back one of their operands and leave the
    right one alone when the left one decides; a call fails once the callee
    and the argument have their values, no value here being a function. *)
Fixpoint run (e : expr) : failure + value :=
  match e with
  | Lit v => inr v
  | Ident x => inl (ReferenceError x)
  | Call f =>
      match run f with
      | inr _ => inl TypeError
      | inl x => inl x
      end
  | CallWith f a =>
      match run f, run a with
      | inr _, inr _ => inl TypeError
      | inl x, _ => inl x
      | _, inl x => inl x
      end
  | Not e1 =>
      match run e1 with
      | inr v => inr (VBool (negb (toBoolean v)))
      | inl f => inl f
      end
  | And e1 e2 =>
      match run e1 with
      | inr v => if toBoolean v then run e2 else inr v
      | inl f => inl f
      end
  | Or e1 e2 =>
      match run e1 with
      | inr v => if toBoolean v then inr v else run e2
      | inl f => inl f
      end
  | Eq e1 e2 =>
      match run e1, run e2 with
      | inr v1, inr v2 => inr (VBool (toNumber v1 =? toNumber v2)%Z)
      | inl f, _ => inl f
      | _, inl f => inl f
      end
  | Xor e1 e2 =>
      match run e1, run e2 with
      | inr v1, inr v2 => inr (VNum (Z.lxor (toInt32 (toNumber v1)) (toInt32 (toNumber v2))))
      | inl f, _ => inl f
      | _, inl f => inl f
      end
  end.

(** A text without a token is the empty program, whose value is
    [undefined]. *)
Definition eval (code : str) : failure + value :=
  match tokens code with
  | Some [] => inr VUndefined
  | Some ts =>
      match parse_expr ts with
      | Some e => run e
      | None => inl SyntaxError
      end
  | None => inl SyntaxError
  end.

End Eval.

(** ** The Assignment Enumerator *)

Section CartesianProduct.

Variable A : Type.

(** A JavaScript array of rows; [None] is a missing element. *)
Definition rows := list (option (list A)).

(** [a[x] = v], which lengthens the array when [x] is past its end. *)
Fixpoint assign (x : nat) (v : list A) (cartesian : rows) : rows :=
  match x, cartesian with
  | 0, [] => [Some v]
  | 0, _ :: rest => Some v :: rest
  | S x', [] => None :: assign x' v []
  | S x', r :: rest => r :: assign x' v rest
  end.

(** [if( !cartesian[x] ) cartesian[x] = [ e ]; else cartesian[ x ].push( e );] *)
Definition put (x : nat) (e : A) (cartesian : rows) : rows :=
  match nth_error cartesian x with
  | Some (Some row) => assign x (row ++ [e]) cartesian
  | _ => assign x [e] cartesian
  end.

(** The product of the lengths of the matrices, as the two [forEach] loops
    compute it. *)
Definition frequency (matrices : list (list A)) : nat :=
  fold_left (fun freq matrix => freq * length matrix) matrices 1.

(** [for (let i = 0; i < n; i++) body], threading a state. *)
Definition for_ (S : Type) (n : nat) (body : nat -> S -> S) (s : S) : S :=
  fold_left (fun s i => body i s) (seq 0 n) s.

(** One turn of the outer loop: the column of matrix [i]. *)
Definition column (matrices : list (list A)) (i : nat) (cartesian : rows) : rows :=
  let matrix := nth i matrices [] in
  let innerFreq := frequency (skipn (i + 1) matrices) in
  let outerFreq := frequency (firstn i matrices) in
  for_ outerFreq (fun h =>
    for_ (length matrix) (fun j =>
      for_ innerFreq (fun k cartesian =>
        let x := j * innerFreq + k + h * innerFreq * length matrix in
        match nth_error matrix j with
        | Some e => put x e cartesian
        | None => cartesian
        end))) cartesian.

Definition cartesianProduct (params : list (list A)) : rows :=
  for_ (length params) (column params) [].

End CartesianProduct.

(** ** The Table Evaluator *)

Definition str_eqb (a b : str) : bool :=
  if list_eq_dec ascii_dec a b then true else false.

(** [[...new Set(l)]]: the elements of [l] without repetition, each at its
    first occurrence. *)
Fixpoint unique_from (seen : list str) (l : list str) : list str :=
  match l with
  | [] => []
  | x :: l' =>
      if existsb (str_eqb x) seen then unique_from seen l'
      else x :: unique_from (x :: seen) l'
  end.

Definition unique (l : list str) : list str := unique_from [] l.

(** What [calculateTruthTable] throws: the error, and the [rowCode] property
    when the error went through the [catch] clause. *)
Record exception := Thrown { error : Eval.failure; rowCode : option str }.

Definition table := list (list value).

(** The loop over [j]: every premise in turn is replaced, in every code, by
    the text of its value in the row. *)
Definition substitute (premiseOrder : list str) (row : list value) (codes : list str)
    : list str :=
  for_ (length premiseOrder) (fun j rowCodes =>
    map (fun rowCode =>
           replaceAll (wholeWord (nth j premiseOrder [])) (toString (nth j row VUndefined))
             rowCode) rowCodes) codes.

(** [rowCodes.forEach(..)]: the values are pushed onto the row until an
    evaluation throws; the error then leaves with the code attached. *)
Fixpoint evaluate (row : list value) (rowCodes : list str) : exception + list value :=
  match rowCodes with
  | [] => inr row
  | rowCode :: rest =>
      match Eval.eval rowCode with
      | inr v => evaluate (row ++ [v]) rest
      | inl err => inl {| error := err; rowCode := Some rowCode |}
      end
  end.

(** The loop over [i].  Reading [premiseCartesian[i][j]] of a missing row
    throws outside the [try]. *)
Fixpoint eachRow (premiseOrder codes : list str) (premiseCartesian : rows value)
    : exception + table :=
  match premiseCartesian with
  | [] => inr []
  | None :: _ => inl {| error := Eval.TypeError; rowCode := None |}
  | Some row :: rest =>
      match evaluate row (substitute premiseOrder row codes) with
      | inl e => inl e
      | inr row' =>
          match eachRow premiseOrder codes rest with
          | inl e => inl e
          | inr body => inr (row' :: body)
          end
      end
  end.

Definition compile (logic : str) : list str := map parse (split "," logic).

Definition premiseOrder_of (codes : list str) : list str :=
  unique (matchAll premises (join "," codes)).

Definition enumerate (premiseOrder : list str) : rows value :=
  cartesianProduct (map (fun _ => [VBool true; VBool false]) premiseOrder).

Definition calculateTruthTable (logic : str) : exception + table :=
  let logics := split "," logic in
  let codes := map parse logics in
  let premiseOrder := premiseOrder_of codes in
  let premiseCartesian := enumerate premiseOrder in
  match eachRow premiseOrder codes premiseCartesian with
  | inl e => inl e
  | inr body => inr ((map VStr premiseOrder ++ map VStr logics) :: body)
  end.

(** * Properties *)

Unset Implicit Arguments.

(** ** Concrete tables *)

Definition T : value := VBool true.
Definition F : value := VBool false.

(** C3: for the input "p and q" the table has the header p, q, "p and q" and
    the four rows (T,T) with result T, (T,F) with F, (F,T) with F and (F,F)
    with F, in this order. *)
Theorem table_p_and_q :
  calculateTruthTable "p and q" =
  inr [ [VStr "p"; VStr "q"; VStr "p and q"];
        [T; T; T];
        [T; F; F];
        [F; T; F];
        [F; F; F] ].
Proof. vm_compute. reflexivity. Qed.

(** Without a premise the enumeration is empty and the table is its header. *)
Lemma calculateTruthTable_no_premise (logic : str) :
  premiseOrder_of (compile logic) = [] ->
  calculateTruthTable logic = inr [map VStr (split "," logic)].
Proof.
  unfold calculateTruthTable, compile. intros ->. reflexivity.
Qed.

(** C1: the statement "T and F" has no free variable; it compiles to
    [1 && 0], whose value is the number 0, but the table that comes back has
    the header row only: no body row is produced for it. *)
Theorem constant_statement_has_no_row :
  compile "T and F" = ["1 && 0" : str] /\
  premiseOrder_of (compile "T and F") = [] /\
  Eval.eval "1 && 0" = inr (VNum 0) /\
  calculateTruthTable "T and F" = inr [ [VStr "T and F"] ].
Proof. vm_compute. repeat split. Qed.

(** C4: in "a then b then c" only the first implication is rewritten; the
    second marker stays in the compiled text, which is then no expression,
    and the table computation fails on its first row. *)
Theorem second_implication_is_left :
  parse "a then b then c" = "!(a) || (b then c)" /\
  calculateTruthTable "a then b then c" =
  inl {| error := Eval.SyntaxError; rowCode := Some ("!(true) || (true true true)" : str) |}.
Proof. vm_compute. split; reflexivity. Qed.

(** ** The Parenthesis Rewriter *)

Lemma nth_error_middle (A : Type) (l1 l2 : list A) (x : A) :
  nth_error (l1 ++ x :: l2) (length l1) = Some x.
Proof. induction l1; simpl; auto. Qed.


Lemma loop_next fuel cb st i st' i' :
  (i < Z.of_nat (length (scan_string st)))%Z ->
  replaceParanthesis_body cb st i = (st', i') ->
  replaceParanthesis_loop (S fuel) cb st i = replaceParanthesis_loop fuel cb st' (i' + 1)%Z.
Proof.
  intros Hi Hb. simpl. rewrite Hb.
  destruct (Z.ltb_spec i (Z.of_nat (length (scan_string st)))); [reflexivity | lia].
Qed.

Lemma loop_done fuel cb st i :
  (Z.of_nat (length (scan_string st)) <= i)%Z ->
  replaceParanthesis_loop fuel cb st i = scan_string st.
Proof.
  intros Hi. destruct fuel; simpl; [reflexivity|].
  destruct (Z.ltb_spec i (Z.of_nat (length (scan_string st)))); [lia | reflexivity].
Qed.

Lemma charAt_app (l1 l2 : str) (c : ascii) (i : Z) :
  i = Z.of_nat (length l1) -> charAt (l1 ++ c :: l2) i = Some c.
Proof.
  intros ->. unfold charAt.
  destruct (Z.ltb_spec (Z.of_nat (length l1)) 0); [lia|].
  rewrite Nat2Z.id. apply nth_error_middle.
Qed.

(** C6: in "(a)(b)" the second outermost group is passed over, whatever the
    rewrite function: after the first group is spliced, the scan resumes two
    characters too far, beyond the opening parenthesis of the second group,
    whose inside is never handed to the rewrite function. *)
Theorem replaceParanthesis_misses_adjacent_group (callback : str -> str) :
  replaceParanthesis "(a)(b)" callback = "(" ++ callback "a" ++ ")(b)".
Proof.
  unfold replaceParanthesis.
  change (length (list_ascii_of_string "(a)(b)")) with 6.
  set (R := callback "a").
  rewrite (loop_next _ _ _ _ {| scan_string := "(a)(b)"; control := 1; startIndex := 0 |} 0%Z);
    [ | simpl; lia | reflexivity ].
  rewrite (loop_next _ _ _ _ {| scan_string := "(a)(b)"; control := 1; startIndex := 0 |} 1%Z);
    [ | simpl; lia | reflexivity ].
  rewrite (loop_next _ _ _ _ {| scan_string := "(" ++ R ++ ")(b)"; control := 0; startIndex := 0 |}
             (Z.of_nat (length R) + 3)%Z);
    [ | simpl; lia | reflexivity ].
  assert (Hlen : length ("(" ++ R ++ ")(b)") = length R + 5).
  { simpl. rewrite length_app. simpl. lia. }
  assert (Hchar : charAt ("(" ++ R ++ ")(b)") (Z.of_nat (length R) + 3 + 1) = Some ")"%char).
  { replace (("(" ++ R ++ ")(b)") : str) with (("(" ++ R ++ ")(b") ++ [")"%char]).
    - apply charAt_app. simpl. rewrite length_app. simpl. lia.
    - simpl. rewrite <- app_assoc. reflexivity. }
  rewrite (loop_next _ _ _ _ {| scan_string := "(" ++ R ++ ")(b)"; control := -1; startIndex := 0 |}
             (Z.of_nat (length R) + 3 + 1)%Z).
  - apply loop_done. cbn [scan_string]. rewrite Hlen. lia.
  - cbn [scan_string]. rewrite Hlen. lia.
  - unfold replaceParanthesis_body. cbn [scan_string control startIndex].
    rewrite Hchar. reflexivity.
Qed.

(** ** The Assignment Enumerator *)

Section Loops.

Variable S : Type.

Lemma for_S (n : nat) (body : nat -> S -> S) (s : S) :
  for_ (Datatypes.S n) body s = body n (for_ n body s).
Proof. unfold for_. rewrite seq_S, fold_left_app. reflexivity. Qed.

Lemma for_ext (n : nat) (f g : nat -> S -> S) (s : S) :
  (forall i s', i < n -> f i s' = g i s') -> for_ n f s = for_ n g s.
Proof.
  induction n as [|n IH]; intros H; [reflexivity|].
  rewrite !for_S, IH by (intros; apply H; lia). apply H. lia.
Qed.

Lemma for_add (m n : nat) (body : nat -> S -> S) (s : S) :
  for_ (m + n) body s = for_ n (fun i => body (m + i)) (for_ m body s).
Proof.
  induction n as [|n IH].
  - rewrite Nat.add_0_r. reflexivity.
  - rewrite Nat.add_succ_r, !for_S, IH. reflexivity.
Qed.

(** Two nested loops are one loop over the combined index. *)
Lemma for_nested (m n : nat) (body : nat -> S -> S) (s : S) :
  for_ m (fun a => for_ n (fun b => body (a * n + b))) s = for_ (m * n) body s.
Proof.
  induction m as [|m IH]; [reflexivity|].
  rewrite for_S, IH.
  replace (Datatypes.S m * n) with (m * n + n) by lia.
  rewrite for_add. reflexivity.
Qed.

End Loops.

Section EnumeratorFacts.

Variable A : Type.

Lemma assign_at_end (v : list A) (l : rows A) :
  assign (length l) v l = l ++ [Some v].
Proof. induction l as [|r l IH]; simpl; [reflexivity | now rewrite IH]. Qed.

Lemma length_assign_inside (x : nat) (v : list A) (l : rows A) :
  x < length l -> length (assign x v l) = length l.
Proof.
  revert x; induction l as [|r l IH]; intros [|x] H; simpl in *; try lia.
  rewrite IH; lia.
Qed.

Lemma nth_error_assign_inside (x y : nat) (v : list A) (l : rows A) :
  x < length l ->
  nth_error (assign x v l) y = if y =? x then Some (Some v) else nth_error l y.
Proof.
  revert x y; induction l as [|r l IH]; intros [|x] [|y] H; simpl in *; try lia; auto.
  apply IH. lia.
Qed.

Lemma put_at_end (e : A) (l : rows A) :
  put (length l) e l = l ++ [Some [e]].
Proof.
  unfold put. replace (nth_error l (length l)) with (@None (option (list A))).
  - apply assign_at_end.
  - symmetry. apply nth_error_None. lia.
Qed.

(** The rows [g 0], .., [g (n - 1)]. *)
Definition rowsOf (g : nat -> list A) (n : nat) : rows A :=
  map (fun x => Some (g x)) (seq 0 n).

Lemma nth_error_seq_0 (n y : nat) :
  nth_error (seq 0 n) y = if y <? n then Some y else None.
Proof.
  destruct (Nat.ltb_spec y n) as [H|H].
  - rewrite (nth_error_nth' _ 0) by (rewrite length_seq; lia).
    rewrite seq_nth by lia. reflexivity.
  - apply nth_error_None. rewrite length_seq. lia.
Qed.

(** Filling an empty array from index 0 upwards creates the rows. *)
Lemma fill_first (f : nat -> A) (n : nat) :
  for_ n (fun x => put x (f x)) [] = rowsOf (fun x => [f x]) n.
Proof.
  induction n as [|n IH]; [reflexivity|].
  rewrite for_S, IH. unfold rowsOf.
  rewrite seq_S, map_app. simpl.
  rewrite <- put_at_end. f_equal. rewrite length_map, length_seq. reflexivity.
Qed.

(** Going through rows that exist appends to each of them. *)
Lemma fill_next (f : nat -> A) (g : nat -> list A) (n m : nat) :
  m <= n ->
  for_ m (fun x => put x (f x)) (rowsOf g n) =
  map (fun x => Some (if x <? m then g x ++ [f x] else g x)) (seq 0 n).
Proof.
  induction m as [|m IH]; intros Hm.
  - reflexivity.
  - rewrite for_S, IH by lia.
    apply nth_error_ext. intros y.
    unfold put.
    rewrite nth_error_map, nth_error_seq_0.
    destruct (Nat.ltb_spec m n); [|lia]. cbn [option_map].
    rewrite Nat.ltb_irrefl.
    rewrite nth_error_assign_inside by (rewrite length_map, length_seq; lia).
    rewrite !nth_error_map, nth_error_seq_0.
    destruct (Nat.eqb_spec y m) as [->|Hy].
    + destruct (Nat.ltb_spec m n); [|lia]. cbn [option_map].
      destruct (Nat.ltb_spec m (Datatypes.S m)); [reflexivity|lia].
    + destruct (Nat.ltb_spec y n); [|reflexivity]. cbn [option_map].
      destruct (Nat.ltb_spec y m), (Nat.ltb_spec y (Datatypes.S m)); try reflexivity; lia.
Qed.

Lemma fill_all (f : nat -> A) (g : nat -> list A) (n : nat) :
  for_ n (fun x => put x (f x)) (rowsOf g n) = rowsOf (fun x => g x ++ [f x]) n.
Proof.
  rewrite fill_next by lia. apply map_ext_in. intros x Hx.
  apply in_seq in Hx. destruct (Nat.ltb_spec x n); [reflexivity|lia].
Qed.

(** The three nested loops of a column visit the indices 0, 1, 2, .. once
    each, in this order; index [x] receives the element of the matrix at
    [(x / innerFreq) mod length]. *)
Lemma column_flat (matrices : list (list A)) (i : nat) (cartesian : rows A) :
  let matrix := nth i matrices [] in
  let innerFreq := frequency (skipn (i + 1) matrices) in
  let outerFreq := frequency (firstn i matrices) in
  0 < innerFreq ->
  column matrices i cartesian =
  for_ (outerFreq * (length matrix * innerFreq))
    (fun x cartesian =>
       match nth_error matrix ((x / innerFreq) mod length matrix) with
       | Some e => put x e cartesian
       | None => cartesian
       end) cartesian.
Proof.
  intros matrix innerFreq outerFreq Hin. unfold column.
  fold matrix innerFreq outerFreq.
  rewrite <- for_nested. apply for_ext. intros h s1 Hh.
  rewrite <- for_nested. apply for_ext. intros j s2 Hj.
  apply for_ext. intros k s3 Hk.
  replace (h * (length matrix * innerFreq) + (j * innerFreq + k))
    with (j * innerFreq + k + h * innerFreq * length matrix) by lia.
  replace ((j * innerFreq + k + h * innerFreq * length matrix) / innerFreq)
    with (j + h * length matrix).
  - rewrite Nat.Div0.mod_add, Nat.mod_small by lia. reflexivity.
  - replace (j * innerFreq + k + h * innerFreq * length matrix)
      with ((j + h * length matrix) * innerFreq + k) by lia.
    rewrite Nat.div_add_l by lia. rewrite Nat.div_small by lia. lia.
Qed.

End EnumeratorFacts.

Section BooleanRows.

Variable A : Type.
Variables t f : A.

Let M : list A := [t; f].

Lemma frequency_from (l : list (list A)) (a : nat) :
  fold_left (fun freq matrix => freq * length matrix) l a = a * frequency l.
Proof.
  unfold frequency. revert a. induction l as [|m l IH]; intros a; simpl.
  - lia.
  - rewrite IH, (IH (length m + 0)). lia.
Qed.

Lemma frequency_repeat (n : nat) : frequency (repeat M n) = 2 ^ n.
Proof.
  induction n as [|n IH]; [reflexivity|].
  unfold frequency. cbn [repeat fold_left]. rewrite frequency_from, IH.
  simpl. lia.
Qed.

Lemma skipn_repeat (n k : nat) (x : list A) : skipn k (repeat x n) = repeat x (n - k).
Proof.
  revert k; induction n as [|n IH]; intros [|k]; simpl; auto.
Qed.

Lemma firstn_repeat (n k : nat) (x : list A) : k <= n -> firstn k (repeat x n) = repeat x k.
Proof.
  revert k; induction n as [|n IH]; intros [|k] H; simpl; auto; try lia.
  rewrite IH by lia. reflexivity.
Qed.

(** The value of column [i] in row [x] of the table for [n] premises. *)
Definition cell (n i x : nat) : A :=
  if (x / 2 ^ (n - i - 1)) mod 2 =? 0 then t else f.

Lemma column_repeat (n i : nat) (cartesian : rows A) :
  i < n ->
  column (repeat M n) i cartesian =
  for_ (2 ^ n) (fun x => put x (cell n i x)) cartesian.
Proof.
  intros Hi.
  assert (Hinner : frequency (skipn (i + 1) (repeat M n)) = 2 ^ (n - i - 1)).
  { rewrite skipn_repeat, frequency_repeat. f_equal. lia. }
  assert (Houter : frequency (firstn i (repeat M n)) = 2 ^ i).
  { rewrite firstn_repeat, frequency_repeat by lia. reflexivity. }
  assert (Hm : nth i (repeat M n) [] = M).
  { apply nth_error_nth. apply nth_error_repeat. exact Hi. }
  assert (Hpos : 0 < 2 ^ (n - i - 1)).
  { apply Nat.neq_0_lt_0, Nat.pow_nonzero. lia. }
  rewrite column_flat by (rewrite Hinner; exact Hpos).
  rewrite Hinner, Houter, Hm.
  replace (2 ^ i * (length M * 2 ^ (n - i - 1))) with (2 ^ n).
  - apply for_ext. intros x s _. unfold cell. cbn [length M].
    assert (Hlt : (x / 2 ^ (n - i - 1)) mod 2 < 2) by (apply Nat.mod_upper_bound; lia).
    destruct ((x / 2 ^ (n - i - 1)) mod 2) as [|[|k]]; [reflexivity | reflexivity | lia].
  - cbn [length M]. replace n with (i + Datatypes.S (n - i - 1)) at 1 by lia.
    rewrite Nat.pow_add_r, Nat.pow_succ_r'. lia.
Qed.

(** Row [x] of the table for [n] premises, cut after [c] columns. *)
Definition prefix_row (n c x : nat) : list A := map (fun i => cell n i x) (seq 0 c).

Lemma columns_repeat (n c : nat) :
  1 <= c <= n ->
  for_ c (column (repeat M n)) [] = rowsOf A (prefix_row n c) (2 ^ n).
Proof.
  intros [H1 Hn]. induction c as [|c IH]; [lia|].
  rewrite for_S. destruct c as [|c].
  - cbn [for_ seq fold_left]. rewrite column_repeat by lia. apply fill_first.
  - rewrite IH by lia. rewrite column_repeat by lia. rewrite fill_all.
    unfold rowsOf. apply map_ext. intros x. unfold prefix_row.
    rewrite (seq_S (Datatypes.S c)), map_app. reflexivity.
Qed.

(** The closed form of the enumeration. *)
Lemma cartesianProduct_repeat (n : nat) :
  1 <= n ->
  cartesianProduct (repeat M n) = rowsOf A (prefix_row n n) (2 ^ n).
Proof.
  intros Hn. unfold cartesianProduct. rewrite repeat_length.
  apply columns_repeat. lia.
Qed.

End BooleanRows.

(** Rows as bit vectors: bit [i] of row [x] among [n]. *)
Definition row_bits (n x : nat) : list bool :=
  map (fun i => (x / 2 ^ (n - i - 1)) mod 2 =? 0) (seq 0 n).

(** The row in which a vector of truth values is found. *)
Fixpoint row_index (v : list bool) : nat :=
  match v with
  | [] => 0
  | b :: v' => (if b then 0 else 2 ^ length v') + row_index v'
  end.

Lemma length_row_bits (n x : nat) : length (row_bits n x) = n.
Proof. unfold row_bits. rewrite length_map, length_seq. reflexivity. Qed.

Lemma row_bits_S (n x : nat) :
  row_bits (S n) x = ((x / 2 ^ n) mod 2 =? 0) :: row_bits n x.
Proof.
  unfold row_bits. cbn [seq map]. f_equal.
  - replace (S n - 0 - 1) with n by lia. reflexivity.
  - rewrite <- seq_shift, map_map. apply map_ext. intros i. reflexivity.
Qed.

Lemma row_index_bound (v : list bool) : row_index v < 2 ^ length v.
Proof.
  induction v as [|b v IH]; [simpl; lia|].
  cbn [row_index length]. rewrite Nat.pow_succ_r'.
  destruct b; lia.
Qed.

Lemma row_bits_add (n q r : nat) : row_bits n (q * 2 ^ n + r) = row_bits n r.
Proof.
  unfold row_bits. apply map_ext_in. intros i Hi. apply in_seq in Hi.
  f_equal.
  replace (2 ^ n) with (2 ^ Datatypes.S i * 2 ^ (n - i - 1))
    by (rewrite <- Nat.pow_add_r; f_equal; lia).
  replace (q * (2 ^ Datatypes.S i * 2 ^ (n - i - 1)) + r)
    with (q * 2 ^ Datatypes.S i * 2 ^ (n - i - 1) + r) by lia.
  rewrite Nat.div_add_l by (apply Nat.pow_nonzero; lia).
  rewrite Nat.pow_succ_r'.
  replace (q * (2 * 2 ^ i) + r / 2 ^ (n - i - 1))
    with (r / 2 ^ (n - i - 1) + q * 2 ^ i * 2) by lia.
  apply Nat.Div0.mod_add.
Qed.

Lemma row_bits_index (v : list bool) : row_bits (length v) (row_index v) = v.
Proof.
  induction v as [|b v IH]; [reflexivity|].
  cbn [length row_index]. rewrite row_bits_S.
  pose proof (row_index_bound v) as Hb.
  assert (Hpos : 2 ^ length v <> 0) by (apply Nat.pow_nonzero; lia).
  f_equal.
  - destruct b.
    + rewrite Nat.add_0_l, Nat.div_small by lia. reflexivity.
    + replace (2 ^ length v + row_index v) with (1 * 2 ^ length v + row_index v) by lia.
      rewrite Nat.div_add_l, Nat.div_small by lia. reflexivity.
  - destruct b.
    + rewrite Nat.add_0_l. exact IH.
    + replace (2 ^ length v + row_index v) with (1 * 2 ^ length v + row_index v) by lia.
      rewrite row_bits_add. exact IH.
Qed.

Lemma row_index_bits (n x : nat) : row_index (row_bits n x) = x mod 2 ^ n.
Proof.
  induction n as [|n IH].
  - simpl. reflexivity.
  - rewrite row_bits_S. cbn [row_index]. rewrite length_row_bits, IH.
    rewrite Nat.pow_succ_r', (Nat.mul_comm 2), Nat.Div0.mod_mul_r.
    assert (Hlt : (x / 2 ^ n) mod 2 < 2) by (apply Nat.mod_upper_bound; lia).
    destruct ((x / 2 ^ n) mod 2) as [|[|k]]; simpl; lia.
Qed.

Lemma enumerate_closed_form (premiseOrder : list str) :
  1 <= length premiseOrder ->
  enumerate premiseOrder =
  map (fun x => Some (map VBool (row_bits (length premiseOrder) x)))
    (seq 0 (2 ^ length premiseOrder)).
Proof.
  intros Hn. unfold enumerate.
  rewrite map_const, cartesianProduct_repeat by exact Hn.
  unfold rowsOf. apply map_ext. intros x. f_equal.
  unfold prefix_row, row_bits. rewrite map_map. apply map_ext. intros i.
  unfold cell. destruct (_ =? 0); reflexivity.
Qed.

(** C2: for [N >= 1] premises the enumeration has [2 ^ N] rows; row [x] gives
    premise [i] the value true exactly when [(x / 2 ^ (N - i - 1)) mod 2] is
    0, which is binary counting with the first premise most significant and
    true before false; no row occurs twice and every assignment occurs. *)
Theorem enumerate_counts_in_binary (premiseOrder : list str) :
  1 <= length premiseOrder ->
  let N := length premiseOrder in
  let premiseCartesian := enumerate premiseOrder in
  length premiseCartesian = 2 ^ N /\
  (forall x, x < 2 ^ N ->
     exists row, nth_error premiseCartesian x = Some (Some row) /\
                 length row = N /\
                 forall i, i < N ->
                   nth i row VUndefined = VBool ((x / 2 ^ (N - i - 1)) mod 2 =? 0)) /\
  NoDup premiseCartesian /\
  (forall v : list bool, length v = N -> In (Some (map VBool v)) premiseCartesian).
Proof.
  intros Hn N premiseCartesian. subst premiseCartesian.
  rewrite enumerate_closed_form by exact Hn. fold N.
  split; [|split; [|split]].
  - rewrite length_map, length_seq. reflexivity.
  - intros x Hx. exists (map VBool (row_bits N x)). split; [|split].
    + rewrite nth_error_map, nth_error_seq_0.
      destruct (Nat.ltb_spec x (2 ^ N)); [reflexivity | lia].
    + rewrite length_map. apply length_row_bits.
    + intros i Hi. unfold row_bits. rewrite map_map.
      rewrite (nth_indep _ VUndefined (VBool ((x / 2 ^ (N - 0 - 1)) mod 2 =? 0)))
        by (rewrite length_map, length_seq; exact Hi).
      rewrite (map_nth (fun i => VBool ((x / 2 ^ (N - i - 1)) mod 2 =? 0)) (seq 0 N) 0 i).
      rewrite seq_nth by exact Hi. reflexivity.
  - apply NoDup_map_NoDup_ForallPairs; [|apply seq_NoDup].
    intros x y Hx Hy Heq. apply in_seq in Hx, Hy.
    injection Heq as Heq.
    assert (Hb : row_bits N x = row_bits N y).
    { revert Heq. generalize (row_bits N x) (row_bits N y).
      induction l as [|a l IH]; intros [|b l'] H; simpl in H; try discriminate; auto.
      injection H as -> H. f_equal. auto. }
    apply (f_equal row_index) in Hb. rewrite !row_index_bits in Hb.
    rewrite !Nat.mod_small in Hb by lia. exact Hb.
  - intros v Hv. apply in_map_iff. exists (row_index v). split.
    + rewrite <- Hv. rewrite row_bits_index. reflexivity.
    + apply in_seq. pose proof (row_index_bound v). rewrite Hv in H. lia.
Qed.

Lemma enumerate_counts_in_binary_witness :
  1 <= length ["p" : str; "q" : str] /\
  length (enumerate ["p" : str; "q" : str]) = 2 ^ 2.
Proof.
  split; [simpl; lia|].
  apply (enumerate_counts_in_binary ["p" : str; "q" : str]). simpl. lia.
Defined.

(** ** Failure of the Table Evaluator *)

Definition fails (rowCode : str) : bool :=
  match Eval.eval rowCode with inl _ => true | inr _ => false end.

Definition value_of (rowCode : str) : value :=
  match Eval.eval rowCode with inr v => v | inl _ => VUndefined end.

(** A fully substituted text: its tokens are the literals [true] and
    [false], numerals, the operators [!], [&&], [||], [==], [^] and
    parentheses.  No identifier is left in it and nothing that the lexer of
    the model refuses, so evaluating it reads and writes no variable, and
    [Eval.eval] is what [eval] does with it. *)
Definition fully_substituted (rowCode : str) : bool :=
  match Eval.tokens rowCode with
  | Some ts => forallb (fun t => match t with Eval.TIdent _ => false | _ => true end) ts
  | None => false
  end.

(** The texts that [calculateTruthTable] hands to [eval], row by row. *)
Definition rowCodes_of (logic : str) : list str :=
  let codes := compile logic in
  let premiseOrder := premiseOrder_of codes in
  flat_map (fun r : option (list value) =>
              match r with
              | Some row => substitute premiseOrder row codes
              | None => []
              end) (enumerate premiseOrder).

Lemma find_app (A : Type) (p : A -> bool) (l1 l2 : list A) :
  find p (l1 ++ l2) = match find p l1 with Some x => Some x | None => find p l2 end.
Proof.
  induction l1 as [|a l1 IH]; simpl; [reflexivity|].
  destruct (p a); [reflexivity | exact IH].
Qed.

Lemma evaluate_first_failure (rowCodes : list str) (row : list value) :
  match find fails rowCodes with
  | Some rowCode =>
      exists err, Eval.eval rowCode = inl err /\
                  evaluate row rowCodes = inl {| error := err; rowCode := Some rowCode |}
  | None => evaluate row rowCodes = inr (row ++ map value_of rowCodes)
  end.
Proof.
  revert row. induction rowCodes as [|rc rcs IH]; intros row; simpl.
  - rewrite app_nil_r. reflexivity.
  - unfold fails at 1, value_of at 1. destruct (Eval.eval rc) as [err|v] eqn:He.
    + exists err. split; [exact He | reflexivity].
    + specialize (IH (row ++ [v])). destruct (find fails rcs) as [rc'|].
      * exact IH.
      * rewrite IH, <- app_assoc. reflexivity.
Qed.

Lemma eachRow_first_failure (premiseOrder codes : list str) (assignments : list (list value)) :
  match find fails (flat_map (fun row => substitute premiseOrder row codes) assignments) with
  | Some rowCode =>
      exists err, Eval.eval rowCode = inl err /\
                  eachRow premiseOrder codes (map Some assignments) =
                  inl {| error := err; rowCode := Some rowCode |}
  | None =>
      eachRow premiseOrder codes (map Some assignments) =
      inr (map (fun row => row ++ map value_of (substitute premiseOrder row codes)) assignments)
  end.
Proof.
  induction assignments as [|row rest IH]; [reflexivity|].
  cbn [flat_map map eachRow]. rewrite find_app.
  pose proof (evaluate_first_failure (substitute premiseOrder row codes) row) as Hrow.
  destruct (find fails (substitute premiseOrder row codes)) as [rc|].
  - destruct Hrow as (err & He & Hrow). exists err. rewrite Hrow. auto.
  - rewrite Hrow.
    destruct (find fails (flat_map _ rest)) as [rc|].
    + destruct IH as (err & He & IH). exists err. rewrite IH. auto.
    + rewrite IH. reflexivity.
Qed.

(** The enumeration has no missing row. *)
Lemma enumerate_total (premiseOrder : list str) :
  exists assignments : list (list value), enumerate premiseOrder = map Some assignments.
Proof.
  destruct premiseOrder as [|p ps] eqn:E.
  - exists []. reflexivity.
  - rewrite <- E. rewrite enumerate_closed_form by (rewrite E; simpl; lia).
    exists (map (fun x => map VBool (row_bits (length premiseOrder) x))
              (seq 0 (2 ^ length premiseOrder))).
    rewrite map_map. reflexivity.
Qed.



(** ** Counterexamples to the stated precedence, case folding and shadowing *)

(** C7 as stated fails: "p and q = r" compiles to [p && q == r], and in the
    row where all three are false its value is false, the value of
    [p && (q == r)], while [(p && q) == r] is true there. *)
Lemma equality_binds_tighter_than_and :
  parse "p and q = r" = "p && q == r" /\
  Eval.eval "false && false == false" = inr (VBool false) /\
  Eval.eval "(false && false) == false" = inr (VBool true) /\
  Eval.eval "true || false ^ true" = inr (VBool true) /\
  Eval.eval "(true || false) ^ true" = inr (VNum 0).
Proof. vm_compute. repeat split. Qed.

(** C5 as stated fails: the upper-case spelling is not translated. *)
Lemma upper_case_and_is_not_translated :
  parse "p AND q" <> parse "p and q".
Proof. vm_compute. discriminate. Qed.

(** C10 as stated fails for premises spelled like a boolean literal: the
    rows (T,T) and (T,F) of "TRUE and True" differ in the later premise only,
    and their results differ. *)
Lemma later_premise_spelled_true_changes_result :
  calculateTruthTable "TRUE and True" =
  inr [ [VStr "TRUE"; VStr "True"; VStr "TRUE and True"];
        [T; T; T];
        [T; F; F];
        [F; T; F];
        [F; F; F] ].
Proof. vm_compute. reflexivity. Qed.


(** ** Precedence of the evaluator *)

Module Precedence.

Import Eval.

(** The literals of a fully substituted expression. *)
Inductive literal : Type := LTrue | LFalse | LOne | LZero.

Definition literal_text (l : literal) : str :=
  match l with LTrue => "true" | LFalse => "false" | LOne => "1" | LZero => "0" end.

Definition literal_token (l : literal) : token :=
  match l with LTrue => TTrue | LFalse => TFalse | LOne => TNum 1 | LZero => TNum 0 end.

Definition literal_value (l : literal) : value :=
  match l with
  | LTrue => VBool true
  | LFalse => VBool false
  | LOne => VNum 1
  | LZero => VNum 0
  end.

Inductive operator : Type := OOr | OAnd | OXor | OEq.

Definition operator_text (o : operator) : str :=
  match o with OOr => "||" | OAnd => "&&" | OXor => "^" | OEq => "==" end.

Definition operator_token (o : operator) : token :=
  match o with OOr => TOr | OAnd => TAnd | OXor => TXor | OEq => TEq end.

Definition operator_expr (o : operator) : expr -> expr -> expr :=
  match o with OOr => Or | OAnd => And | OXor => Xor | OEq => Eq end.

(** How tightly an operator binds. *)
Definition strength (o : operator) : nat :=
  match o with OOr => 0 | OAnd => 1 | OXor => 2 | OEq => 3 end.

(** An expression as a tree: what is applied to what. *)
Inductive formula : Type :=
| FLit (l : literal)
| FNot (f : formula)                       (* [!f] *)
| FBin (o : operator) (f1 f2 : formula)    (* [f1 o f2] *)
| FGroup (f : formula).                    (* [(f)] *)

(** The text of a tree, with no parenthesis but those of its groups. *)
Fixpoint show (f : formula) : str :=
  match f with
  | FLit l => literal_text l
  | FNot f1 => "!" ++ show f1
  | FBin o f1 f2 => show f1 ++ " " ++ operator_text o ++ " " ++ show f2
  | FGroup f1 => "(" ++ show f1 ++ ")"
  end.

(** How tightly the top of a tree binds: a binary operator by its strength,
    then [!], then literals and groups. *)
Definition tightness (f : formula) : nat :=
  match f with
  | FBin o _ _ => strength o
  | FNot _ => 4
  | FLit _ | FGroup _ => 5
  end.

(** A tree follows the precedence when no operand binds looser than the
    operator it stands under: [!] has a literal, a group or another [!]
    under it; the left operand of a binary operator binds at least as
    tightly as the operator (operators of one level associate to the left),
    the right operand strictly tighter; inside a group anything goes. *)
Fixpoint proper (f : formula) : bool :=
  match f with
  | FLit _ => true
  | FNot f1 => proper f1 && (4 <=? tightness f1)
  | FBin o f1 f2 =>
      proper f1 && proper f2 && (strength o <=? tightness f1) && (strength o <? tightness f2)
  | FGroup f1 => proper f1
  end.

(** The value of an operator on two values. *)
Definition operator_value (o : operator) (v1 v2 : value) : value :=
  match o with
  | OOr => if toBoolean v1 then v1 else v2
  | OAnd => if toBoolean v1 then v2 else v1
  | OXor => VNum (Z.lxor (toInt32 (toNumber v1)) (toInt32 (toNumber v2)))
  | OEq => VBool (toNumber v1 =? toNumber v2)%Z
  end.

(** The value of a tree, from the values of its operands. *)
Fixpoint denote (f : formula) : value :=
  match f with
  | FLit l => literal_value l
  | FNot f1 => VBool (negb (toBoolean (denote f1)))
  | FBin o f1 f2 => operator_value o (denote f1) (denote f2)
  | FGroup f1 => denote f1
  end.

(** The tokens of the text of a tree, and the expression that it is. *)
Fixpoint toks (f : formula) : list token :=
  match f with
  | FLit l => [literal_token l]
  | FNot f1 => TNot :: toks f1
  | FBin o f1 f2 => toks f1 ++ operator_token o :: toks f2
  | FGroup f1 => TOpen :: toks f1 ++ [TClose]
  end.

Fixpoint expr_of (f : formula) : expr :=
  match f with
  | FLit l => Lit (literal_value l)
  | FNot f1 => Not (expr_of f1)
  | FBin o f1 f2 => operator_expr o (expr_of f1) (expr_of f2)
  | FGroup f1 => expr_of f1
  end.

(** The two loops of [parse_level], by name. *)
Definition operands (fuel' level : nat)
    : nat -> expr -> list token -> option (expr * list token) :=
  fix operands (n : nat) (e : expr) (rest : list token) {struct n}
      : option (expr * list token) :=
    match n, rest with
    | S n', t :: rest' =>
        match binary level t with
        | Some op =>
            match parse_level fuel' (S level) rest' with
            | Some (e', rest'') => operands n' (op e e') rest''
            | None => None
            end
        | None => Some (e, rest)
        end
    | _, _ => Some (e, rest)
    end.

Definition calls (fuel' : nat) : nat -> expr -> list token -> option (expr * list token) :=
  fix calls (n : nat) (e : expr) (rest : list token) {struct n}
      : option (expr * list token) :=
    match n, rest with
    | S n', TOpen :: TClose :: rest' => calls n' (Call e) rest'
    | S n', TOpen :: rest' =>
        match parse_level fuel' 0 rest' with
        | Some (a, TClose :: rest'') => calls n' (CallWith e a) rest''
        | _ => None
        end
    | _, _ => Some (e, rest)
    end.

(** What may follow an operand read at a level: the end, a closing
    parenthesis, or an operator that binds looser than the level. *)
Definition stops (level : nat) (rest : list token) : bool :=
  match rest with
  | [] => true
  | TClose :: _ => true
  | TOr :: _ => 0 <? level
  | TAnd :: _ => 1 <? level
  | TXor :: _ => 2 <? level
  | TEq :: _ => 3 <? level
  | _ => false
  end.

(** What may follow a literal in a text: the end, a blank or a closing
    parenthesis. *)
Definition delimited (s : str) : bool :=
  match s with
  | [] => true
  | c :: _ => Ascii.eqb c " " || Ascii.eqb c ")"
  end.

(** Fuel that is enough to read the tokens of a tree. *)
Fixpoint height (f : formula) : nat :=
  match f with
  | FLit _ => 6
  | FNot f1 => 5 + height f1
  | FBin _ f1 f2 => 4 + Nat.max (height f1) (height f2)
  | FGroup f1 => 6 + height f1
  end.

End Precedence.

Import Precedence.

(** *** The lexer on the text of a tree *)

Lemma span_length (p : ascii -> bool) (s : str) :
  length (snd (Eval.span p s)) <= length s.
Proof.
  induction s as [|c s IH]; simpl; [lia|].
  destruct (p c); simpl; [|lia].
  destruct (Eval.span p s); simpl in *; lia.
Qed.

(** The lexer spends one unit of fuel on a token or a blank: the length of
    the text is enough, and more changes nothing. *)
Lemma tokens_fuel_enough (fuel1 : nat) :
  forall (fuel2 : nat) (s : str),
    length s <= fuel1 -> length s <= fuel2 ->
    Eval.tokens_fuel fuel1 s = Eval.tokens_fuel fuel2 s.
Proof.
  induction fuel1 as [|fuel1 IH]; intros fuel2 s H1 H2.
  - destruct s; [|simpl in H1; lia]. destruct fuel2; reflexivity.
  - destruct fuel2 as [|fuel2].
    + destruct s; [reflexivity|simpl in H2; lia].
    + destruct s as [|c s]; [reflexivity|].
      assert (E : forall x : str, length x <= length s ->
                    Eval.tokens_fuel fuel1 x = Eval.tokens_fuel fuel2 x)
        by (intros x Hx; simpl in H1, H2; apply IH; lia).
      pose proof (span_length is_digit s) as Hd.
      pose proof (span_length Eval.is_ident_char s) as Hi.
      assert (E2 : forall c1 c2 x, s = c1 :: c2 :: x ->
                     Eval.tokens_fuel fuel1 x = Eval.tokens_fuel fuel2 x)
        by (intros c1 c2 x ->; apply E; simpl; lia).
      assert (E1 : forall c1 x, s = c1 :: x ->
                     Eval.tokens_fuel fuel1 x = Eval.tokens_fuel fuel2 x)
        by (intros c1 x ->; apply E; simpl; lia).
      cbn [Eval.tokens_fuel Eval.span].
      destruct (Eval.span is_digit s) as [ds rest].
      destruct (Eval.span Eval.is_ident_char s) as [w rest'].
      cbn [snd] in Hd, Hi.
      destruct (is_digit c), (Eval.is_ident_char c); cbn beta iota;
        rewrite ?(E s), ?(E rest), ?(E rest') by lia;
        destruct s as [|c1 [|c2 x]];
        rewrite ?(E1 _ _ eq_refl), ?(E2 _ _ _ eq_refl); reflexivity.
Qed.

(** Tests on the characters of a text that is known decide by computation. *)
Ltac char_test t :=
  let b := eval vm_compute in t in
  match b with
  | true => change t with true
  | false => change t with false
  end.

Ltac char_tests :=
  repeat (match goal with
          | |- context [Eval.is_blank ?c] => char_test (Eval.is_blank c)
          | |- context [is_digit ?c] => char_test (is_digit c)
          | |- context [Eval.is_ident_char ?c] => char_test (Eval.is_ident_char c)
          | |- context [Ascii.eqb ?c ?d] => char_test (Ascii.eqb c d)
          end; cbn beta iota).

Lemma tokens_step (s : str) :
  Eval.tokens_fuel (S (length s)) s = Eval.tokens s.
Proof. apply tokens_fuel_enough; lia. Qed.

Lemma tokens_blank (s : str) : Eval.tokens (" " ++ s) = Eval.tokens s.
Proof. reflexivity. Qed.

Lemma tokens_open (s : str) :
  Eval.tokens ("(" ++ s) = option_map (cons Eval.TOpen) (Eval.tokens s).
Proof. reflexivity. Qed.

Lemma tokens_close (s : str) :
  Eval.tokens (")" ++ s) = option_map (cons Eval.TClose) (Eval.tokens s).
Proof. reflexivity. Qed.

Lemma tokens_not (s : str) :
  match s with "="%char :: _ => False | _ => True end ->
  Eval.tokens ("!" ++ s) = option_map (cons Eval.TNot) (Eval.tokens s).
Proof.
  intros H. unfold Eval.tokens. cbn [app length list_ascii_of_string Eval.tokens_fuel].
  change (Eval.is_blank "!") with false. cbn -[Eval.tokens_fuel].
  destruct s as [|c s]; [reflexivity|].
  destruct (Ascii.eqb_spec c "=") as [->|Hc]; [contradiction|].
  destruct c as [[] [] [] [] [] [] [] []]; try reflexivity. contradiction Hc; reflexivity.
Qed.

Lemma tokens_operator (o : operator) (s : str) :
  Eval.tokens (" " ++ operator_text o ++ " " ++ s) =
  option_map (cons (operator_token o)) (Eval.tokens s).
Proof.
  transitivity (option_map (cons (operator_token o))
                  (Eval.tokens_fuel (match o with OXor => 0 | _ => 1 end + length s) s)).
  - destruct o; reflexivity.
  - f_equal. apply tokens_fuel_enough; lia.
Qed.

Lemma span_delimited (p : ascii -> bool) (s : str) :
  p " "%char = false -> p ")"%char = false ->
  delimited s = true -> Eval.span p s = ([], s).
Proof.
  intros H1 H2 Hs. destruct s as [|c s]; [reflexivity|].
  simpl in Hs. simpl.
  destruct (Ascii.eqb_spec c " ") as [->|_]; [rewrite H1; reflexivity|].
  destruct (Ascii.eqb_spec c ")") as [->|_]; [rewrite H2; reflexivity|discriminate].
Qed.

Lemma delimited_no_ident (s : str) :
  delimited s = true ->
  match s with c :: _ => Eval.is_ident_char c = false | [] => True end.
Proof.
  destruct s as [|c s]; [trivial|]. simpl.
  destruct (Ascii.eqb_spec c " ") as [->|_]; [reflexivity|].
  destruct (Ascii.eqb_spec c ")") as [->|_]; [reflexivity|discriminate].
Qed.

Lemma tokens_fuel_literal (l : literal) (fuel : nat) (s : str) :
  delimited s = true ->
  Eval.tokens_fuel (S fuel) (literal_text l ++ s) =
  option_map (cons (literal_token l)) (Eval.tokens_fuel fuel s).
Proof.
  intros Hs.
  pose proof (span_delimited is_digit s eq_refl eq_refl Hs) as Hd.
  pose proof (span_delimited Eval.is_ident_char s eq_refl eq_refl Hs) as Hi.
  pose proof (delimited_no_ident s Hs) as Hn.
  destruct l;
    cbn [literal_text literal_token app list_ascii_of_string Eval.tokens_fuel Eval.span].
  all: char_tests.
  all: rewrite ?Hd, ?Hi; cbn beta iota.
  1, 2: reflexivity.
  all: destruct s as [|c s]; [reflexivity|]; rewrite Hn; reflexivity.
Qed.

Lemma tokens_literal (l : literal) (s : str) :
  delimited s = true ->
  Eval.tokens (literal_text l ++ s) = option_map (cons (literal_token l)) (Eval.tokens s).
Proof.
  intros Hs. unfold Eval.tokens at 1. rewrite length_app.
  replace (length (literal_text l) + length s)
    with (S (length (literal_text l) - 1 + length s)) by (destruct l; reflexivity).
  rewrite tokens_fuel_literal by exact Hs.
  f_equal. apply tokens_fuel_enough; lia.
Qed.

Lemma show_first (f : formula) (s : str) :
  match show f ++ s with "="%char :: _ => False | _ => True end.
Proof.
  induction f as [l|f IH|o f1 IH1 f2 IH2|f IH] in s |- *; simpl.
  - destruct l; exact I.
  - exact I.
  - rewrite <- app_assoc. apply IH1.
  - exact I.
Qed.

Lemma option_map_app {A : Type} (a b : list A) (x : option (list A)) :
  option_map (app a) (option_map (app b) x) = option_map (app (a ++ b)) x.
Proof. destruct x; simpl; [rewrite app_assoc|]; reflexivity. Qed.

(** The tokens of the text of a tree, whatever follows it. *)
Lemma tokens_show_app (f : formula) :
  forall s : str,
    delimited s = true ->
    Eval.tokens (show f ++ s) = option_map (app (toks f)) (Eval.tokens s).
Proof.
  induction f as [l|f IH|o f1 IH1 f2 IH2|f IH]; intros s Hs.
  - cbn [show toks]. rewrite tokens_literal by exact Hs. reflexivity.
  - cbn [show toks]. rewrite <- app_assoc.
    rewrite tokens_not by apply show_first.
    rewrite IH by exact Hs. destruct (Eval.tokens s); reflexivity.
  - cbn [show toks]. rewrite <- !app_assoc.
    rewrite IH1 by reflexivity.
    rewrite (tokens_operator o (show f2 ++ s)).
    rewrite IH2 by exact Hs.
    destruct (Eval.tokens s); simpl; [rewrite <- app_assoc|]; reflexivity.
  - cbn [show toks]. rewrite <- !app_assoc.
    rewrite tokens_open. rewrite IH by reflexivity.
    rewrite tokens_close.
    destruct (Eval.tokens s); simpl; [rewrite <- app_assoc|]; reflexivity.
Qed.

Lemma tokens_show (f : formula) : Eval.tokens (show f) = Some (toks f).
Proof.
  rewrite <- (app_nil_r (show f)), tokens_show_app by reflexivity.
  simpl. rewrite app_nil_r. reflexivity.
Qed.

(** *** The parser on the tokens of a tree *)

Lemma parse_level_binary (fuel' level : nat) (ts : list Eval.token) :
  level < 4 ->
  Eval.parse_level (S fuel') level ts =
  match Eval.parse_level fuel' (S level) ts with
  | Some (e, rest) => operands fuel' level (length rest) e rest
  | None => None
  end.
Proof.
  intros H. apply Nat.ltb_lt in H. cbn [Eval.parse_level]. rewrite H. reflexivity.
Qed.

Lemma parse_level_unary (fuel' : nat) (ts : list Eval.token) :
  Eval.parse_level (S fuel') 4 ts =
  match ts with
  | Eval.TNot :: rest =>
      match Eval.parse_level fuel' 4 rest with
      | Some (e, rest') => Some (Eval.Not e, rest')
      | None => None
      end
  | _ => Eval.parse_level fuel' 5 ts
  end.
Proof. reflexivity. Qed.

Lemma parse_level_operand (fuel' : nat) (ts : list Eval.token) :
  Eval.parse_level (S fuel') 5 ts =
  match ts with
  | Eval.TTrue :: rest => calls fuel' (length rest) (Eval.Lit (VBool true)) rest
  | Eval.TFalse :: rest => calls fuel' (length rest) (Eval.Lit (VBool false)) rest
  | Eval.TNum n :: rest => calls fuel' (length rest) (Eval.Lit (VNum n)) rest
  | Eval.TIdent x :: rest => calls fuel' (length rest) (Eval.Ident x) rest
  | Eval.TOpen :: rest =>
      match Eval.parse_level fuel' 0 rest with
      | Some (e, Eval.TClose :: rest') => calls fuel' (length rest') e rest'
      | _ => None
      end
  | _ => None
  end.
Proof. reflexivity. Qed.

Lemma operands_step (fuel' level n : nat) (e : Eval.expr) (t : Eval.token)
    (rest : list Eval.token) (op : Eval.expr -> Eval.expr -> Eval.expr) :
  Eval.binary level t = Some op ->
  operands fuel' level (S n) e (t :: rest) =
  match Eval.parse_level fuel' (S level) rest with
  | Some (e', rest') => operands fuel' level n (op e e') rest'
  | None => None
  end.
Proof. intros H. cbn [operands]. rewrite H. reflexivity. Qed.

Lemma stops_mono (level level' : nat) (rest : list Eval.token) :
  stops level rest = true -> level <= level' -> stops level' rest = true.
Proof.
  intros H Hl. destruct rest as [|[] rest]; simpl in *; try exact H;
    apply Nat.ltb_lt in H; apply Nat.ltb_lt; lia.
Qed.

Lemma stops_operator (level : nat) (o : operator) (rest : list Eval.token) :
  stops level (operator_token o :: rest) = (strength o <? level).
Proof. destruct o; reflexivity. Qed.

Lemma binary_operator (o : operator) :
  Eval.binary (strength o) (operator_token o) = Some (operator_expr o).
Proof. destruct o; reflexivity. Qed.

Lemma strength_bound (o : operator) : strength o < 4.
Proof. destruct o; simpl; lia. Qed.

(** Nothing more is called where an operand may stop. *)
Lemma calls_stops (fuel' level n : nat) (e : Eval.expr) (rest : list Eval.token) :
  stops level rest = true -> calls fuel' n e rest = Some (e, rest).
Proof.
  intros H. destruct n, rest as [|[] rest]; simpl in *; try reflexivity; discriminate.
Qed.

(** No operand more is read at a level where an operand of a looser level
    may stop. *)
Lemma operands_stops (fuel' level level' n : nat) (e : Eval.expr) (rest : list Eval.token) :
  stops level rest = true -> level <= level' ->
  operands fuel' level' n e rest = Some (e, rest).
Proof.
  intros H Hl. destruct n; [destruct rest; reflexivity|].
  destruct rest as [|t rest]; [reflexivity|]. cbn [operands].
  assert (Eval.binary level' t = None) as ->; [|reflexivity].
  destruct t; simpl in H; try discriminate;
    destruct level' as [|[|[|[|]]]]; try reflexivity; apply Nat.ltb_lt in H; lia.
Qed.

(** [reads bound level ts e rest]: with [bound] units of fuel or more, the
    parser reads [e] at [level] from [ts] and leaves [rest]. *)
Definition reads (bound level : nat) (ts : list Eval.token) (e : Eval.expr)
    (rest : list Eval.token) : Prop :=
  forall fuel, bound <= fuel -> Eval.parse_level fuel level ts = Some (e, rest).

Lemma reads_looser (k : nat) :
  forall (bound level : nat) ts e rest,
    level + k <= 4 ->
    reads bound (level + k) ts e rest ->
    stops level rest = true ->
    reads (k + bound) level ts e rest.
Proof.
  induction k as [|k IH]; intros bound level ts e rest Hk H Hs.
  - rewrite Nat.add_0_r in H. exact H.
  - intros fuel Hf. destruct fuel as [|fuel]; [lia|].
    rewrite parse_level_binary by lia.
    rewrite (IH bound (S level) ts e rest); try lia.
    + apply operands_stops with level; [exact Hs|lia].
    + replace (S level + k) with (level + S k) by lia. exact H.
    + apply stops_mono with level; [exact Hs|lia].
Qed.

Lemma reads_from (level0 bound level bound' : nat) ts e rest :
  reads bound level0 ts e rest ->
  level <= level0 -> level0 <= 4 ->
  stops level rest = true ->
  (level0 - level) + bound <= bound' ->
  reads bound' level ts e rest.
Proof.
  intros H Hl H4 Hs Hb fuel Hf.
  apply (reads_looser (level0 - level) bound level ts e rest); try lia; try assumption.
  replace (level + (level0 - level)) with level0 by lia. exact H.
Qed.

Lemma reads_operand (bound level bound' : nat) ts e rest :
  reads bound 5 ts e rest ->
  match ts with Eval.TNot :: _ => False | _ => True end ->
  level <= 5 ->
  stops level rest = true ->
  5 + bound <= bound' ->
  reads bound' level ts e rest.
Proof.
  intros H Hn Hl Hs Hb.
  destruct (Nat.eq_dec level 5) as [->|Hne].
  - intros fuel Hf. apply H. lia.
  - apply (reads_from 4 (S bound)); try lia; try assumption.
    intros fuel Hf. destruct fuel as [|fuel]; [lia|].
    rewrite parse_level_unary.
    destruct ts as [|[] ts]; try contradiction; apply H; lia.
Qed.

Lemma toks_literal (l : literal) (fuel' : nat) (rest : list Eval.token) (level : nat) :
  stops level rest = true ->
  Eval.parse_level (S fuel') 5 (literal_token l :: rest) =
  Some (Eval.Lit (literal_value l), rest).
Proof.
  intros Hs. rewrite parse_level_operand.
  destruct l; cbn [literal_token literal_value]; apply calls_stops with level; exact Hs.
Qed.

(** The tokens of a tree that follows the precedence are read as the tree:
    at every level up to its own, whatever follows that may follow; and at
    its own level, when the top is a binary operator, the loop over the
    operands reads on from it. *)
Lemma parse_tree (f : formula) :
  proper f = true ->
  (forall level rest,
     level <= tightness f -> stops level rest = true ->
     reads (height f) level (toks f ++ rest) (expr_of f) rest) /\
  (forall fuel' rest,
     tightness f < 4 -> height f <= fuel' + 4 ->
     stops (S (tightness f)) rest = true ->
     exists e1 rest1,
       Eval.parse_level fuel' (S (tightness f)) (toks f ++ rest) = Some (e1, rest1) /\
       forall n, length rest1 <= n ->
         exists m, length rest <= m /\
           operands fuel' (tightness f) n e1 rest1 =
           operands fuel' (tightness f) m (expr_of f) rest).
Proof.
  induction f as [l|f IH|o f1 IH1 f2 IH2|f IH]; intros Hp.
  - (* literal *)
    split; [|cbn [tightness]; intros; lia].
    intros level rest Hl Hs. cbn [toks expr_of height app] in *.
    apply (reads_operand 1 level); try assumption; try lia.
    + intros fuel Hf. destruct fuel as [|fuel]; [lia|].
      apply toks_literal with level. exact Hs.
    + destruct l; exact I.
  - (* negation *)
    cbn [proper] in Hp. apply andb_prop in Hp as [Hp Ht]. apply Nat.leb_le in Ht.
    destruct (IH Hp) as [IHa _].
    split; [|cbn [tightness]; intros; lia].
    intros level rest Hl Hs. cbn [toks expr_of height tightness] in *.
    apply (reads_from 4 (S (height f))); try lia; try assumption.
    intros fuel Hf. destruct fuel as [|fuel]; [lia|].
    rewrite parse_level_unary. cbn [app].
    rewrite (IHa 4 rest Ht (stops_mono _ _ _ Hs Hl)) by lia. reflexivity.
  - (* binary operator *)
    cbn [proper] in Hp.
    apply andb_prop in Hp as [Hp Ht2]. apply andb_prop in Hp as [Hp Ht1].
    apply andb_prop in Hp as [Hp1 Hp2].
    apply Nat.leb_le in Ht1. apply Nat.ltb_lt in Ht2.
    destruct (IH1 Hp1) as [IH1a IH1b]. destruct (IH2 Hp2) as [IH2a _].
    pose proof (strength_bound o) as Ho.
    cbn [tightness toks expr_of height].
    assert (B : forall fuel' rest,
               height f1 <= fuel' -> height f2 <= fuel' ->
               stops (S (strength o)) rest = true ->
               exists e1 rest1,
                 Eval.parse_level fuel' (S (strength o))
                   ((toks f1 ++ operator_token o :: toks f2) ++ rest) = Some (e1, rest1) /\
                 forall n, length rest1 <= n ->
                   exists m, length rest <= m /\
                     operands fuel' (strength o) n e1 rest1 =
                     operands fuel' (strength o) m
                       (operator_expr o (expr_of f1) (expr_of f2)) rest).
    { intros fuel' rest H1 H2 Hs.
      rewrite <- app_assoc. cbn [app].
      assert (Hso : stops (S (strength o)) (operator_token o :: toks f2 ++ rest) = true)
        by (rewrite stops_operator; apply Nat.ltb_lt; lia).
      assert (Hstep : forall m e,
                 length (operator_token o :: toks f2 ++ rest) <= m ->
                 exists m', length rest <= m' /\
                   operands fuel' (strength o) m e (operator_token o :: toks f2 ++ rest) =
                   operands fuel' (strength o) m' (operator_expr o e (expr_of f2)) rest).
      { intros m e Hm. destruct m as [|m]; [simpl in Hm; lia|].
        exists m. split; [simpl in Hm; rewrite length_app in Hm; lia|].
        rewrite (operands_step _ _ _ _ _ _ _ (binary_operator o)).
        rewrite (IH2a (S (strength o)) rest Ht2 Hs) by exact H2. reflexivity. }
      destruct (Nat.eq_dec (tightness f1) (strength o)) as [E|E].
      - destruct (IH1b fuel' (operator_token o :: toks f2 ++ rest))
          as (e1 & rest1 & Hparse & Hloop); try lia.
        { rewrite E. exact Hso. }
        rewrite E in Hparse, Hloop.
        exists e1, rest1. split; [exact Hparse|].
        intros n Hn. destruct (Hloop n Hn) as (m & Hm & ->).
        apply Hstep. exact Hm.
      - exists (expr_of f1), (operator_token o :: toks f2 ++ rest). split.
        + apply IH1a; [lia|exact Hso|exact H1].
        + intros n Hn. apply Hstep. exact Hn. }
    split.
    + intros level rest Hl Hs.
      apply (reads_from (strength o) (S (Nat.max (height f1) (height f2))));
        try lia; try assumption.
      intros fuel Hf. destruct fuel as [|fuel]; [lia|].
      rewrite parse_level_binary by exact Ho.
      destruct (B fuel rest) as (e1 & rest1 & Hparse & Hloop); try lia.
      { apply stops_mono with level; [exact Hs|lia]. }
      rewrite Hparse.
      destruct (Hloop (length rest1) (le_n _)) as (m & _ & ->).
      apply operands_stops with level; assumption.
    + intros fuel' rest _ Hf Hs. apply B; try assumption; lia.
  - (* group *)
    cbn [proper] in Hp. destruct (IH Hp) as [IHa _].
    split; [|cbn [tightness]; intros; lia].
    intros level rest Hl Hs. cbn [toks expr_of height tightness] in *.
    apply (reads_operand (S (height f)) level); try assumption; try lia; [|exact I].
    intros fuel Hf. destruct fuel as [|fuel]; [lia|].
    rewrite parse_level_operand. cbn [app]. rewrite <- app_assoc. cbn [app].
    rewrite (IHa 0 (Eval.TClose :: rest) (Nat.le_0_l _) eq_refl) by lia.
    apply calls_stops with level. exact Hs.
Qed.

Lemma height_bound (f : formula) : height f <= 7 * S (length (toks f)).
Proof.
  induction f as [l|f IH|o f1 IH1 f2 IH2|f IH]; cbn [height toks length].
  - lia.
  - lia.
  - rewrite length_app. cbn [length]. lia.
  - rewrite length_app. cbn [length]. lia.
Qed.

Lemma toks_not_nil (f : formula) : toks f <> [].
Proof.
  induction f as [l|f IH|o f1 IH1 f2 IH2|f IH]; cbn [toks]; try discriminate.
  destruct (toks f1); discriminate.
Qed.

Lemma parse_expr_toks (f : formula) :
  proper f = true -> Eval.parse_expr (toks f) = Some (expr_of f).
Proof.
  intros Hp. unfold Eval.parse_expr.
  destruct (parse_tree f Hp) as [H _].
  pose proof (H 0 [] (Nat.le_0_l _) eq_refl _ (height_bound f)) as E.
  rewrite app_nil_r in E. rewrite E. reflexivity.
Qed.

Lemma run_expr_of (f : formula) : Eval.run (expr_of f) = inr (denote f).
Proof.
  induction f as [l|f IH|o f1 IH1 f2 IH2|f IH]; cbn [expr_of denote].
  - reflexivity.
  - cbn [Eval.run]. rewrite IH. reflexivity.
  - destruct o; cbn [operator_expr operator_value Eval.run]; rewrite IH1, ?IH2;
      try reflexivity; destruct (Eval.toBoolean (denote f1)); try reflexivity; exact IH2.
  - exact IH.
Qed.

Lemma eval_toks (f : formula) (code : str) :
  proper f = true ->
  Eval.tokens code = Some (toks f) ->
  Eval.eval code = inr (denote f).
Proof.
  intros Hp Ht. unfold Eval.eval. rewrite Ht.
  pose proof (toks_not_nil f) as Hn.
  destruct (toks f) as [|t ts] eqn:E; [contradiction|].
  rewrite <- E, (parse_expr_toks f Hp). apply run_expr_of.
Qed.

(** C7, amended: the evaluator reads a fully substituted expression with the
    precedence of JavaScript: [!] binds tightest, then [==], then [^], then
    [&&], then [||]; operators of one level associate to the left;
    parentheses override.  Whatever tree of literals, [!], binary operators
    and groups follows this precedence, its text evaluates to the value of
    the tree, and so does every text with the same tokens (one that differs
    from it in blanks only).  So [p && q == r] is [p && (q == r)] and
    [p || q ^ r] is [p || (q ^ r)]. *)
Theorem eval_precedence (f : formula) :
  proper f = true ->
  Eval.eval (show f) = inr (denote f) /\
  forall code : str,
    Eval.tokens code = Eval.tokens (show f) -> Eval.eval code = inr (denote f).
Proof.
  intros Hp. split.
  - apply eval_toks; [exact Hp|apply tokens_show].
  - intros code Hc. apply eval_toks; [exact Hp|]. rewrite Hc. apply tokens_show.
Qed.

Lemma eval_precedence_witness :
  proper (FBin OOr
            (FNot (FGroup (FBin OAnd (FLit LTrue) (FBin OEq (FLit LFalse) (FLit LFalse)))))
            (FGroup (FBin OXor (FBin OXor (FLit LOne) (FLit LZero)) (FLit LOne)))) = true /\
  Eval.eval "!(true && false == false) || (1 ^ 0 ^ 1)" = inr (VNum 0) /\
  Eval.eval "!(true&&false==false)||( 1^0 ^1 )" = inr (VNum 0).
Proof.
  pose proof (eval_precedence
                (FBin OOr
                   (FNot (FGroup (FBin OAnd (FLit LTrue)
                                    (FBin OEq (FLit LFalse) (FLit LFalse)))))
                   (FGroup (FBin OXor (FBin OXor (FLit LOne) (FLit LZero)) (FLit LOne))))
                eq_refl) as [H1 H2].
  split; [reflexivity|]. split; [exact H1|].
  apply H2. vm_compute. reflexivity.
Defined.

(** ** Case of the operator words *)

Definition other_case (c : ascii) : ascii :=
  if is_lower c then ascii_of_nat (code c - 32)
  else if is_upper c then ascii_of_nat (code c + 32)
  else c.

(** The spellings of a word that differ from it in the case of letters only. *)
Fixpoint spellings (w : str) : list str :=
  match w with
  | [] => [[]]
  | c :: w' =>
      map (cons c) (spellings w') ++
      (if Ascii.eqb (other_case c) c then [] else map (cons (other_case c)) (spellings w'))
  end.

(** The word forms that the translator and the implication step know. *)
Definition operator_words : list str :=
  ["and" : str; "or" : str; "not" : str; "xor" : str; "then" : str;
   "true" : str; "false" : str; "T" : str; "F" : str].

Definition left_alone (statement : str) : bool := str_eqb (parse statement) statement.

Definition case_check (word : str) : bool :=
  forallb (fun w =>
             if str_eqb w word
             then negb (left_alone ("p " ++ w ++ " q"))
             else left_alone ("p " ++ w ++ " q") && left_alone (w ++ " p")
                  && existsb (str_eqb w) (premiseOrder_of (compile ("p " ++ w ++ " q"))))
    (spellings word).

Lemma str_eqb_eq (a b : str) : str_eqb a b = true <-> a = b.
Proof. unfold str_eqb. destruct (list_eq_dec ascii_dec a b); split; congruence. Qed.

Lemma left_alone_spec (s : str) : left_alone s = true <-> parse s = s.
Proof. apply str_eqb_eq. Qed.

Lemma case_check_all : forallb case_check operator_words = true.
Proof. vm_compute. reflexivity. Qed.

(** C5, amended: the operator words are matched with their case.  A spelling
    that differs from an operator word in the case of some letter (AND, Or,
    NOT, XOR, True, FALSE, t, ..) is not translated: the statement is
    compiled to itself and the spelling is taken for a premise.  The word
    itself is translated. *)
Theorem operator_words_are_case_sensitive (word w : str) :
  In word operator_words ->
  In w (spellings word) ->
  (w <> word ->
     parse ("p " ++ w ++ " q") = "p " ++ w ++ " q" /\
     parse (w ++ " p") = w ++ " p" /\
     In w (premiseOrder_of (compile ("p " ++ w ++ " q")))) /\
  (w = word -> parse ("p " ++ w ++ " q") <> "p " ++ w ++ " q").
Proof.
  intros Hword Hw.
  pose proof case_check_all as Hall.
  rewrite forallb_forall in Hall. specialize (Hall word Hword).
  unfold case_check in Hall. rewrite forallb_forall in Hall. specialize (Hall w Hw).
  cbv beta in Hall. split.
  - intros Hne. destruct (str_eqb w word) eqn:E.
    + apply str_eqb_eq in E. contradiction.
    + apply andb_prop in Hall as [H12 H3]. apply andb_prop in H12 as [H1 H2].
      apply left_alone_spec in H1, H2.
      split; [exact H1|]. split; [exact H2|].
      apply existsb_exists in H3 as (x & Hx & Hwx). apply str_eqb_eq in Hwx.
      subst x. exact Hx.
  - intros Heq. rewrite (proj2 (str_eqb_eq w word) Heq) in Hall.
    apply negb_true_iff in Hall. intros Hp. apply left_alone_spec in Hp. congruence.
Qed.

Lemma operator_words_are_case_sensitive_witness :
  In ("and" : str) operator_words /\
  In ("AND" : str) (spellings "and") /\
  parse ("p " ++ "AND" ++ " q") = "p " ++ "AND" ++ " q".
Proof.
  assert (H1 : In ("and" : str) operator_words) by (simpl; auto).
  assert (H2 : In ("AND" : str) (spellings "and")) by (vm_compute; auto 10).
  split; [exact H1|]. split; [exact H2|].
  assert (Hne : ("AND" : str) <> "and") by (intros E; vm_compute in E; discriminate E).
  exact (proj1 (proj1 (operator_words_are_case_sensitive "and" "AND" H1 H2) Hne)).
Defined.

(** ** Whole-word substitution *)

(** Equality of two texts up to the case of letters. *)
Fixpoint same_letters (v w : str) : bool :=
  match v, w with
  | [], [] => true
  | c :: v', x :: w' => Matcher.same_char true c x && same_letters v' w'
  | _, _ => false
  end.

Definition starts_word (s : str) : bool :=
  match s with c :: _ => is_word c | [] => false end.

Lemma is_word_canonicalize (c : ascii) : is_word (canonicalize c) = is_word c.
Proof. destruct c as [[] [] [] [] [] [] [] []]; reflexivity. Qed.

Lemma same_char_word (c x : ascii) :
  Matcher.same_char true c x = true -> is_word x = is_word c.
Proof.
  unfold Matcher.same_char. intros H. apply Ascii.eqb_eq in H.
  rewrite <- (is_word_canonicalize x), <- (is_word_canonicalize c). congruence.
Qed.

Lemma same_letters_word (v w : str) :
  same_letters v w = true -> forallb is_word w = forallb is_word v.
Proof.
  revert w; induction v as [|c v IH]; intros [|x w] H; simpl in *; try discriminate; auto.
  apply andb_prop in H as [H1 H2]. rewrite (same_char_word _ _ H1), (IH _ H2). reflexivity.
Qed.

Lemma same_letters_length (v w : str) : same_letters v w = true -> length w = length v.
Proof.
  revert w; induction v as [|c v IH]; intros [|x w] H; simpl in *; try discriminate; auto.
  apply andb_prop in H as [_ H]. f_equal. auto.
Qed.

(** A text read forwards under the [i] flag. *)
Lemma text_forward (A : Type) (v : str) (b a : str) (k : zipper -> option A) :
  Matcher.text true true v (b, a) k =
  if same_letters v (firstn (length v) a) then k (rev (firstn (length v) a) ++ b, skipn (length v) a)
  else None.
Proof.
  revert b a; induction v as [|c v IH]; intros b a.
  - reflexivity.
  - destruct a as [|x a]; [reflexivity|].
    cbn [Matcher.text Matcher.one Matcher.advance length firstn skipn same_letters].
    destruct (Matcher.same_char true c x); [|reflexivity].
    rewrite IH. cbn [andb rev]. rewrite <- app_assoc. reflexivity.
Qed.

Section WholeWord.

Variable premise : str.
Hypothesis premise_word : forallb is_word premise = true.
Hypothesis premise_not_empty : premise <> [].

(** Where the expression of a premise matches, and what. *)
Lemma exec_wholeWord (b a : str) :
  exec_at (wholeWord premise) b a =
  let w := firstn (length premise) a in
  let rest := skipn (length premise) a in
  if negb (starts_word b) && same_letters premise w && negb (starts_word rest)
  then Some ((rev w ++ b, rest), [(1, Matcher.between_positions (b, a) (rev w ++ b, rest))])
  else None.
Proof.
  unfold exec_at, Matcher.exec, wholeWord. cbn [pattern ignoreCase seqs Matcher.rmatch].
  rewrite list_ascii_of_string_of_list_ascii.
  unfold Matcher.at_word_boundary at 1. cbn [fst snd]. fold (starts_word b) (starts_word a).
  rewrite text_forward.
  destruct (same_letters premise (firstn (length premise) a)) eqn:Hs.
  - pose proof (same_letters_word _ _ Hs) as Hw. rewrite premise_word in Hw.
    pose proof (same_letters_length _ _ Hs) as Hl.
    destruct (firstn (length premise) a) as [|x w] eqn:Hf.
    { destruct premise; [congruence | discriminate]. }
    assert (Ha : starts_word a = true).
    { destruct a as [|y a']; [destruct premise; discriminate|].
      destruct premise as [|p0 ps]; [congruence|]. simpl in Hf. injection Hf as -> _.
      simpl in Hw. apply andb_prop in Hw as [Hw _]. exact Hw. }
    rewrite Ha. unfold Matcher.at_word_boundary. cbn [fst snd].
    assert (Hlast : match rev (x :: w) ++ b with c :: _ => is_word c | [] => false end = true).
    { assert (Hr : forallb is_word (rev (x :: w)) = true).
      { rewrite forallb_forall in *. intros c Hc. apply Hw. apply in_rev. exact Hc. }
      destruct (rev (x :: w)) as [|c r] eqn:Hrev.
      - apply (f_equal (@length ascii)) in Hrev. rewrite length_rev in Hrev. discriminate.
      - simpl in Hr. apply andb_prop in Hr as [Hr _]. exact Hr. }
    rewrite Hlast. fold (starts_word (skipn (length premise) a)).
    destruct (starts_word b), (starts_word (skipn (length premise) a)); reflexivity.
  - rewrite andb_false_r. cbn [andb].
    destruct (negb (Bool.eqb (starts_word b) (starts_word a))); reflexivity.
Qed.

End WholeWord.

(** *** Texts as words *)

Definition flush (f : str -> str) (acc : str) : str :=
  match acc with [] => [] | _ => f (rev acc) end.

(** [map_words f s] applies [f] to every maximal run of word characters of
    [s]; [acc] holds, last character first, the part of the current word that
    was read. *)
Fixpoint map_words_from (f : str -> str) (acc : str) (s : str) : str :=
  match s with
  | [] => flush f acc
  | c :: s' =>
      if is_word c then map_words_from f (c :: acc) s'
      else flush f acc ++ c :: map_words_from f [] s'
  end.

Definition map_words (f : str -> str) (s : str) : str := map_words_from f [] s.

Lemma span_spec (p : ascii -> bool) (s : str) :
  s = fst (Eval.span p s) ++ snd (Eval.span p s) /\
  forallb p (fst (Eval.span p s)) = true /\
  match snd (Eval.span p s) with c :: _ => p c = false | [] => True end.
Proof.
  induction s as [|c s IH]; simpl; [auto|].
  destruct (p c) eqn:Hc.
  - destruct (Eval.span p s) as [w rest]. simpl in *. rewrite Hc.
    destruct IH as (IH1 & IH2 & IH3). repeat split; [f_equal; exact IH1 | exact IH2 | exact IH3].
  - simpl. auto.
Qed.

Lemma span_app (p : ascii -> bool) (w rest : str) :
  forallb p w = true ->
  match rest with c :: _ => p c = false | [] => True end ->
  Eval.span p (w ++ rest) = (w, rest).
Proof.
  intros Hw Hr. induction w as [|c w IH]; simpl in *.
  - destruct rest as [|c r]; [reflexivity|]. simpl. rewrite Hr. reflexivity.
  - apply andb_prop in Hw as [Hc Hw]. rewrite Hc, IH by exact Hw. reflexivity.
Qed.

Lemma map_words_from_span (f : str -> str) (acc s : str) :
  map_words_from f acc s =
  flush f (rev (fst (Eval.span is_word s)) ++ acc) ++ map_words f (snd (Eval.span is_word s)).
Proof.
  revert acc; induction s as [|c s IH]; intros acc; simpl.
  - rewrite app_nil_r. reflexivity.
  - destruct (is_word c) eqn:Hc.
    + rewrite IH. destruct (Eval.span is_word s) as [w rest]. simpl.
      rewrite <- app_assoc. reflexivity.
    + simpl. unfold map_words. simpl. rewrite Hc. reflexivity.
Qed.

Lemma map_words_word (f : str -> str) (w rest : str) :
  w <> [] -> forallb is_word w = true -> starts_word rest = false ->
  map_words f (w ++ rest) = f w ++ map_words f rest.
Proof.
  intros Hne Hw Hr. unfold map_words at 1. rewrite map_words_from_span.
  rewrite span_app; [| exact Hw | destruct rest; simpl in *; auto].
  simpl. rewrite app_nil_r. unfold flush.
  destruct (rev w) eqn:E.
  - apply (f_equal (@rev ascii)) in E. rewrite rev_involutive in E. simpl in E. congruence.
  - rewrite <- E, rev_involutive. reflexivity.
Qed.

Section WholeWordReplace.

Variable premise : str.
Hypothesis premise_word : forallb is_word premise = true.
Hypothesis premise_not_empty : premise <> [].
Variable t : str.

Let f (w : str) : str := if same_letters premise w then t else w.

Let flat (ps : list (ascii + matched)) : str :=
  flat_map (fun p => match p with inl c => [c] | inr _ => t end) ps.

(** The rest of a word that was not replaced, and what follows. *)
Let copy (a : str) : str :=
  fst (Eval.span is_word a) ++ map_words f (snd (Eval.span is_word a)).

Lemma copy_not_word (a : str) : starts_word a = false -> copy a = map_words f a.
Proof.
  unfold copy. destruct a as [|c a]; simpl; [reflexivity|].
  intros ->. reflexivity.
Qed.

Lemma pieces_wholeWord (n : nat) (b a : str) :
  length a < n ->
  flat (pieces_from (wholeWord premise) n b a) =
  if starts_word b then copy a else map_words f a.
Proof.
  revert b a; induction n as [|n IH]; intros b a Hn; [lia|].
  cbn [pieces_from]. rewrite (exec_wholeWord premise premise_word premise_not_empty).
  cbv zeta.
  destruct (starts_word b) eqn:Hb; cbn [negb andb].
  - (* inside or right after a word: nothing matches *)
    destruct a as [|c a]; [reflexivity|].
    cbn [flat flat_map app]. fold (flat (pieces_from (wholeWord premise) n (c :: b) a)).
    rewrite IH by (simpl in Hn; lia). cbn [starts_word].
    unfold copy. simpl. destruct (is_word c) eqn:Hc.
    + destruct (Eval.span is_word a) as [w rest]. reflexivity.
    + unfold map_words. simpl. rewrite Hc. reflexivity.
  - destruct (same_letters premise (firstn (length premise) a)
              && negb (starts_word (skipn (length premise) a))) eqn:Hm.
    + (* the word at this position is the premise *)
      apply andb_prop in Hm as [Hs Hr]. apply negb_true_iff in Hr.
      pose proof (same_letters_length _ _ Hs) as Hl.
      pose proof (same_letters_word _ _ Hs) as Hw. rewrite premise_word in Hw.
      assert (Hpos : 0 < length premise) by (destruct premise; simpl; [congruence|lia]).
      assert (Hlen : length (skipn (length premise) a) < length a).
      { rewrite length_skipn. rewrite length_firstn in Hl. lia. }
      destruct (Nat.eqb_spec (length (skipn (length premise) a)) (length a)); [lia|].
      cbn [flat flat_map].
      fold (flat (pieces_from (wholeWord premise) n
                    (rev (firstn (length premise) a) ++ b) (skipn (length premise) a))).
      rewrite IH by lia.
      assert (Hsw : starts_word (rev (firstn (length premise) a) ++ b) = true).
      { destruct (rev (firstn (length premise) a)) as [|c r] eqn:E.
        - apply (f_equal (@length ascii)) in E. rewrite length_rev in E. simpl in E. lia.
        - assert (Hr' : forallb is_word (c :: r) = true).
          { rewrite <- E. rewrite forallb_forall in *. intros x Hx. apply Hw, in_rev, Hx. }
          simpl in Hr'. apply andb_prop in Hr' as [Hc _]. exact Hc. }
      rewrite Hsw, copy_not_word by exact Hr.
      transitivity (map_words f (firstn (length premise) a ++ skipn (length premise) a));
        [| rewrite firstn_skipn; reflexivity].
      rewrite map_words_word; [| | exact Hw | exact Hr].
      * unfold f. rewrite Hs. reflexivity.
      * intros E. rewrite E in Hl. simpl in Hl. lia.
    + (* no match here *)
      destruct a as [|c a]; [reflexivity|].
      cbn [flat flat_map app]. fold (flat (pieces_from (wholeWord premise) n (c :: b) a)).
      rewrite IH by (simpl in Hn; lia). cbn [starts_word].
      destruct (is_word c) eqn:Hc.
      * unfold map_words. rewrite (map_words_from_span f [] (c :: a)).
        rewrite app_nil_r. unfold copy.
        destruct (span_spec is_word (c :: a)) as (Ha & Hw & Hr).
        simpl in Ha, Hw, Hr |- *. rewrite Hc in *.
        destruct (Eval.span is_word a) as [w rest]. simpl in *.
        unfold flush. rewrite rev_app_distr, rev_involutive. simpl.
        destruct (rev w ++ [c]) eqn:E; [destruct (rev w); discriminate|].
        unfold f. destruct (same_letters premise (c :: w)) eqn:Hs; [|reflexivity].
        exfalso.
        pose proof (same_letters_length _ _ Hs) as Hl.
        injection Ha as Ha.
        assert (Hf : firstn (length premise) (c :: a) = c :: w).
        { rewrite <- Hl, Ha. change (c :: w ++ rest) with ((c :: w) ++ rest).
          rewrite firstn_app, Nat.sub_diag, firstn_all. simpl. f_equal. apply app_nil_r. }
        assert (Hk : skipn (length premise) (c :: a) = rest).
        { rewrite <- Hl, Ha. change (c :: w ++ rest) with ((c :: w) ++ rest).
          rewrite skipn_app, Nat.sub_diag, skipn_all. reflexivity. }
        rewrite Hf, Hk, Hs in Hm. simpl in Hm.
        destruct rest as [|x rest]; simpl in *; [discriminate|].
        rewrite Hr in Hm. discriminate.
      * unfold map_words. simpl. rewrite Hc. reflexivity.
Qed.

(** Replacing a premise replaces the words that spell it, whatever the case. *)
Lemma replaceAll_wholeWord (s : str) :
  replaceAll (wholeWord premise) t s =
  map_words (fun w => if same_letters premise w then t else w) s.
Proof.
  unfold replaceAll, replaceAllWith, pieces.
  apply (pieces_wholeWord (S (length s)) [] s). lia.
Qed.

End WholeWordReplace.

Definition wordlike (w : str) : Prop := w <> [] /\ forallb is_word w = true.

(** Two word maps in a row are one, when the first gives words for words. *)
Lemma map_words_from_compose (f g : str -> str) (s acc : str) :
  (forall w, wordlike w -> wordlike (g w)) ->
  forallb is_word acc = true ->
  map_words f (map_words_from g acc s) = map_words_from (fun w => f (g w)) acc s.
Proof.
  intros Hg. revert acc. induction s as [|c s IH]; intros acc Hacc.
  - simpl. destruct acc as [|x acc]; [reflexivity|].
    unfold flush. set (word := rev (x :: acc)).
    assert (Hword : wordlike word).
    { split.
      - intros E. apply (f_equal (@length ascii)) in E. unfold word in E.
        rewrite length_rev in E. discriminate.
      - unfold word. rewrite forallb_forall in *. intros y Hy. apply Hacc, in_rev, Hy. }
    destruct (Hg _ Hword) as [Hne Hw].
    transitivity (map_words f (g word ++ [])); [rewrite app_nil_r; reflexivity|].
    rewrite map_words_word by auto. apply app_nil_r.
  - simpl. destruct (is_word c) eqn:Hc.
    + apply IH. simpl. rewrite Hc, Hacc. reflexivity.
    + destruct acc as [|x acc].
      * simpl. unfold map_words at 1. simpl. rewrite Hc. simpl. f_equal.
        apply (IH []). reflexivity.
      * unfold flush. set (word := rev (x :: acc)).
        assert (Hword : wordlike word).
        { split.
          - intros E. apply (f_equal (@length ascii)) in E. unfold word in E.
            rewrite length_rev in E. discriminate.
          - unfold word. rewrite forallb_forall in *. intros y Hy. apply Hacc, in_rev, Hy. }
        destruct (Hg _ Hword) as [Hne Hw].
        rewrite map_words_word; [| exact Hne | exact Hw | simpl; exact Hc].
        f_equal. unfold map_words at 1. simpl. rewrite Hc. simpl. f_equal.
        apply (IH []). reflexivity.
Qed.

Lemma map_words_compose (f g : str -> str) (s : str) :
  (forall w, wordlike w -> wordlike (g w)) ->
  map_words f (map_words g s) = map_words (fun w => f (g w)) s.
Proof. intros Hg. apply map_words_from_compose; auto. Qed.

Lemma map_words_from_ext (f g : str -> str) (s acc : str) :
  (forall w, wordlike w -> f w = g w) ->
  forallb is_word acc = true ->
  map_words_from f acc s = map_words_from g acc s.
Proof.
  intros Hfg. revert acc. induction s as [|c s IH]; intros acc Hacc.
  - simpl. destruct acc as [|x acc]; [reflexivity|]. unfold flush. apply Hfg. split.
    + intros E. apply (f_equal (@length ascii)) in E. rewrite length_rev in E. discriminate.
    + rewrite forallb_forall in *. intros y Hy. apply Hacc, in_rev, Hy.
  - simpl. destruct (is_word c) eqn:Hc.
    + apply IH. simpl. rewrite Hc, Hacc. reflexivity.
    + rewrite (IH []) by reflexivity. f_equal.
      destruct acc as [|x acc]; [reflexivity|]. unfold flush. apply Hfg. split.
      * intros E. apply (f_equal (@length ascii)) in E. rewrite length_rev in E. discriminate.
      * rewrite forallb_forall in *. intros y Hy. apply Hacc, in_rev, Hy.
Qed.

Lemma map_words_ext (f g : str -> str) (s : str) :
  (forall w, wordlike w -> f w = g w) -> map_words f s = map_words g s.
Proof. intros H. apply map_words_from_ext; auto. Qed.

(** *** The premises are words *)

Lemma between_positions_forward (b a w a' : str) :
  Matcher.between_positions (b, a) (rev w ++ b, a') = w.
Proof.
  unfold Matcher.between_positions. cbn [fst].
  rewrite length_app, length_rev.
  destruct (Nat.leb_spec (length b) (length w + length b)); [|lia].
  replace (length w + length b - length b) with (length (rev w)) by (rewrite length_rev; lia).
  rewrite firstn_app, Nat.sub_diag, firstn_all. simpl.
  rewrite app_nil_r. apply rev_involutive.
Qed.

Lemma more_greedy_class (p : ascii -> bool) (n : nat) (b a : str) (cs : captures)
    (r : zipper * captures) :
  Matcher.more_greedy
    (fun z cs k => Matcher.one true p z (fun z' => k z' cs)) true
    (fun z' cs' => Some (z', cs')) n (b, a) cs = Some r ->
  exists w, forallb p w = true /\ fst (fst r) = rev w ++ b /\ a = w ++ snd (fst r).
Proof.
  revert b a; induction n as [|n IH]; intros b a H.
  - simpl in H. injection H as <-. exists []. auto.
  - simpl in H. unfold Matcher.one at 1 in H. 
    destruct a as [|c a]; cbn [Matcher.advance] in H.
    + injection H as <-. exists []. auto.
    + destruct (p c) eqn:Hc.
      * unfold Matcher.progress in H. cbn [Matcher.ahead snd length] in H.
        destruct (Nat.eqb_spec (length a) (S (length a))); [lia|]. cbn [negb] in H.
        destruct (Matcher.more_greedy _ _ _ n (c :: b, a) cs) as [r'|] eqn:E.
        -- injection H as <-. destruct (IH _ _ E) as (w & Hw & Hb & Ha).
           exists (c :: w). simpl. rewrite Hc, Hw, Hb, <- app_assoc. split; [reflexivity|].
           split; [reflexivity|]. f_equal. exact Ha.
        -- injection H as <-. exists []. auto.
      * injection H as <-. exists []. auto.
Qed.

Lemma exec_premises (b a : str) (z : zipper) (cs : captures) :
  exec_at premises b a = Some (z, cs) ->
  exists w, w <> [] /\ forallb premise_char w = true /\ z = (rev w ++ b, snd z) /\ a = w ++ snd z.
Proof.
  unfold exec_at, Matcher.exec, premises. cbn [pattern ignoreCase global Matcher.rmatch].
  unfold Matcher.one at 1. destruct a as [|c a]; cbn [Matcher.advance]; [discriminate|].
  destruct (premise_char c) eqn:Hc; [|discriminate].
  intros H. apply more_greedy_class in H. destruct H as (w & Hw & Hb & Ha).
  exists (c :: w). simpl in *. rewrite Hc, Hw. split; [discriminate|]. split; [reflexivity|].
  destruct z as [b' a']. simpl in *. subst. rewrite <- app_assoc. auto.
Qed.

Lemma premise_char_word (w : str) : forallb premise_char w = true -> forallb is_word w = true.
Proof.
  intros H. rewrite forallb_forall in *. intros c Hc. specialize (H c Hc).
  unfold premise_char in H. destruct (is_word c); [reflexivity | discriminate].
Qed.

Lemma matchAll_premises (n : nat) (b a : str) (v : str) :
  In v (flat_map (fun p => match p with inl _ => [] | inr m => [whole m] end)
          (pieces_from premises n b a)) ->
  wordlike v.
Proof.
  revert b a; induction n as [|n IH]; intros b a H; [contradiction|].
  cbn [pieces_from] in H.
  destruct (exec_at premises b a) as [[[b' a'] cs]|] eqn:E.
  - apply exec_premises in E. destruct E as (w & Hne & Hw & Hz & Ha).
    cbn [snd] in Hz, Ha. injection Hz as ->.
    rewrite between_positions_forward in H.
    destruct (length a' =? length a).
    + cbn [flat_map whole] in H. destruct H as [<-|H].
      * split; [exact Hne | apply premise_char_word, Hw].
      * destruct a as [|c rest]; [contradiction|]. simpl in H. eauto.
    + cbn [flat_map whole] in H. destruct H as [<-|H].
      * split; [exact Hne | apply premise_char_word, Hw].
      * eauto.
  - destruct a as [|c rest]; [contradiction|]. simpl in H. eauto.
Qed.

Lemma unique_from_In (l seen : list str) (v : str) : In v (unique_from seen l) -> In v l.
Proof.
  revert seen; induction l as [|x l IH]; intros seen H; simpl in *; [exact H|].
  destruct (existsb (str_eqb x) seen).
  - right. eauto.
  - destruct H as [H|H]; [left; exact H | right; eauto].
Qed.

Lemma premiseOrder_wordlike (codes : list str) (v : str) :
  In v (premiseOrder_of codes) -> wordlike v.
Proof.
  unfold premiseOrder_of, unique, matchAll, pieces. intros H.
  apply unique_from_In in H. eapply matchAll_premises, H.
Qed.

(** *** Substitution of a row, word by word *)

Lemma map_words_from_id (s acc : str) :
  map_words_from (fun w => w) acc s = rev acc ++ s.
Proof.
  revert acc; induction s as [|c s IH]; intros acc; simpl.
  - rewrite app_nil_r. destruct acc; reflexivity.
  - destruct (is_word c).
    + rewrite IH. simpl. rewrite <- app_assoc. reflexivity.
    + rewrite (IH []). simpl. destruct acc; reflexivity.
Qed.

Lemma same_letters_trans (a b c : str) :
  same_letters a b = true -> same_letters b c = true -> same_letters a c = true.
Proof.
  revert b c; induction a as [|x a IH]; intros [|y b] [|z c] H1 H2; simpl in *;
    try discriminate; auto.
  apply andb_prop in H1 as [H1 H1'], H2 as [H2 H2'].
  rewrite (IH _ _ H1' H2'), andb_true_r.
  unfold Matcher.same_char in *. apply Ascii.eqb_eq in H1, H2. apply Ascii.eqb_eq. congruence.
Qed.

Lemma for_invariant (S : Type) (P : S -> Prop) (n : nat) (body : nat -> S -> S) (s : S) :
  P s -> (forall i x, i < n -> P x -> P (body i x)) -> P (for_ n body s).
Proof.
  intros H0 Hstep. induction n as [|n IH]; [exact H0|].
  rewrite for_S. apply Hstep; [lia|]. apply IH. intros; apply Hstep; [lia | assumption].
Qed.

(** What one turn of the substitution loop does to a word. *)
Definition substitute_word (premiseOrder : list str) (row : list value) (j : nat) (w : str) : str :=
  if same_letters (nth j premiseOrder []) w then toString (nth j row VUndefined) else w.

Definition boolean_row (n : nat) (row : list value) : Prop :=
  forall j, j < n -> exists b : bool, nth j row VUndefined = VBool b.

Lemma toString_boolean_wordlike (b : bool) : wordlike (toString (VBool b)).
Proof. destruct b; split; (discriminate || reflexivity). Qed.

Section Substitution.

Variable premiseOrder : list str.
Hypothesis premises_wordlike : forall v, In v premiseOrder -> wordlike v.

Variable row : list value.
Hypothesis row_boolean : boolean_row (length premiseOrder) row.

Lemma substitute_word_wordlike (n : nat) (w : str) :
  n <= length premiseOrder ->
  wordlike w -> wordlike (for_ n (substitute_word premiseOrder row) w).
Proof.
  intros Hn Hw. apply for_invariant; [exact Hw|].
  intros j x Hj Hx. unfold substitute_word.
  destruct (same_letters (nth j premiseOrder []) x); [|exact Hx].
  destruct (row_boolean j) as [b ->]; [lia|]. apply toString_boolean_wordlike.
Qed.

Lemma substitute_prefix (n : nat) (codes : list str) :
  n <= length premiseOrder ->
  for_ n (fun j rowCodes =>
            map (fun rowCode =>
                   replaceAll (wholeWord (nth j premiseOrder []))
                     (toString (nth j row VUndefined)) rowCode) rowCodes) codes =
  map (map_words (fun w => for_ n (substitute_word premiseOrder row) w)) codes.
Proof.
  induction n as [|n IH]; intros Hn.
  - cbn [for_ seq fold_left]. symmetry. rewrite <- (map_id codes) at 2.
    apply map_ext. intros s. unfold map_words. apply (map_words_from_id s []).
  - rewrite for_S, IH by lia. rewrite map_map. apply map_ext. intros code.
    assert (Hv : wordlike (nth n premiseOrder [])).
    { apply premises_wordlike. apply nth_In. lia. }
    destruct Hv as [Hne Hword].
    rewrite (replaceAll_wholeWord _ Hword Hne).
    rewrite map_words_compose.
    + apply map_words_ext. intros w _. rewrite for_S. reflexivity.
    + intros w Hw. apply substitute_word_wordlike; [lia | exact Hw].
Qed.

Lemma substitute_by_words (codes : list str) :
  substitute premiseOrder row codes =
  map (map_words (fun w => for_ (length premiseOrder) (substitute_word premiseOrder row) w))
    codes.
Proof. apply substitute_prefix. lia. Qed.

End Substitution.

(** *** Premises that differ in case only *)

Lemma enumerate_boolean_row (premiseOrder : list str) (row : list value) :
  In (Some row) (enumerate premiseOrder) ->
  boolean_row (length premiseOrder) row /\ length row = length premiseOrder.
Proof.
  intros H. destruct premiseOrder as [|p ps] eqn:E; [contradiction|].
  rewrite <- E in *. rewrite enumerate_closed_form in H by (rewrite E; simpl; lia).
  apply in_map_iff in H as (x & Hx & _). injection Hx as <-. split.
  - intros j Hj. exists (nth j (row_bits (length premiseOrder) x) false).
    rewrite <- (map_nth VBool). apply nth_indep. rewrite length_map, length_row_bits. exact Hj.
  - rewrite length_map. apply length_row_bits.
Qed.

Lemma evaluate_from_empty (rowCodes : list str) (row : list value) :
  evaluate row rowCodes =
  match evaluate [] rowCodes with
  | inl e => inl e
  | inr results => inr (row ++ results)
  end.
Proof.
  pose proof (evaluate_first_failure rowCodes row) as H1.
  pose proof (evaluate_first_failure rowCodes []) as H2.
  destruct (find fails rowCodes) as [rc|].
  - destruct H1 as (e1 & He1 & ->), H2 as (e2 & He2 & ->). congruence.
  - rewrite H1, H2. reflexivity.
Qed.

Section Shadowing.

Variable premiseOrder : list str.
Hypothesis premises_wordlike : forall v, In v premiseOrder -> wordlike v.

Variables j1 j2 : nat.
Variables v1 v2 : str.
Hypothesis earlier : j1 < j2.
Hypothesis at_j1 : nth_error premiseOrder j1 = Some v1.
Hypothesis at_j2 : nth_error premiseOrder j2 = Some v2.
Hypothesis same : same_letters v1 v2 = true.
Hypothesis not_true : same_letters v2 "true" = false.
Hypothesis not_false : same_letters v2 "false" = false.

Variables row row' : list value.
Hypothesis row_boolean : boolean_row (length premiseOrder) row.
Hypothesis row'_boolean : boolean_row (length premiseOrder) row'.
Hypothesis agree : forall j, j <> j2 -> nth j row VUndefined = nth j row' VUndefined.

Let N := length premiseOrder.

Lemma j2_in_range : j2 < N.
Proof. apply nth_error_Some. rewrite at_j2. discriminate. Qed.

(** Once the earlier premise has been replaced, no word spells the later
    one, and the turns in between do not bring one back. *)
Lemma no_word_left (w : str) :
  same_letters v2 (for_ j2 (substitute_word premiseOrder row) w) = false.
Proof.
  pose proof j2_in_range as Hj2.
  replace j2 with (S j1 + (j2 - S j1)) by lia.
  rewrite for_add. apply (for_invariant _ (fun x => same_letters v2 x = false)).
  - rewrite for_S. unfold substitute_word at 1.
    rewrite (nth_error_nth _ _ _ at_j1).
    destruct (same_letters v1 (for_ j1 _ w)) eqn:E.
    + destruct (row_boolean j1) as [[|] ->]; [unfold N in *; lia | exact not_true | exact not_false].
    + destruct (same_letters v2 (for_ j1 _ w)) eqn:E2; [|reflexivity].
      rewrite (same_letters_trans _ _ _ same E2) in E. discriminate.
  - intros i x Hi Hx. unfold substitute_word.
    destruct (same_letters (nth (S j1 + i) premiseOrder []) x); [|exact Hx].
    destruct (row_boolean (S j1 + i)) as [[|] ->];
      [unfold N in *; lia | exact not_true | exact not_false].
Qed.

End Shadowing.

Section Shadowed.

Variable premiseOrder : list str.
Hypothesis premises_wordlike : forall v, In v premiseOrder -> wordlike v.

Variables j1 j2 : nat.
Variables v1 v2 : str.
Hypothesis earlier : j1 < j2.
Hypothesis at_j1 : nth_error premiseOrder j1 = Some v1.
Hypothesis at_j2 : nth_error premiseOrder j2 = Some v2.
Hypothesis same : same_letters v1 v2 = true.
Hypothesis not_true : same_letters v2 "true" = false.
Hypothesis not_false : same_letters v2 "false" = false.

Variables row row' : list value.
Hypothesis row_boolean : boolean_row (length premiseOrder) row.
Hypothesis row'_boolean : boolean_row (length premiseOrder) row'.
Hypothesis agree : forall j, j <> j2 -> nth j row VUndefined = nth j row' VUndefined.

Lemma substitute_word_agree (w : str) :
  for_ (length premiseOrder) (substitute_word premiseOrder row) w =
  for_ (length premiseOrder) (substitute_word premiseOrder row') w.
Proof.
  pose proof (j2_in_range premiseOrder j2 v2 at_j2) as Hj2.
  assert (Hfirst : for_ j2 (substitute_word premiseOrder row) w =
                   for_ j2 (substitute_word premiseOrder row') w).
  { apply for_ext. intros i x Hi. unfold substitute_word. rewrite agree by lia. reflexivity. }
  replace (length premiseOrder) with (S j2 + (length premiseOrder - S j2)) by lia.
  rewrite !for_add, !for_S.
  assert (Hstep : substitute_word premiseOrder row j2 (for_ j2 (substitute_word premiseOrder row) w) =
                  substitute_word premiseOrder row' j2 (for_ j2 (substitute_word premiseOrder row') w)).
  { unfold substitute_word at 1 3. rewrite (nth_error_nth _ _ _ at_j2).
    rewrite (no_word_left premiseOrder j1 j2 v1 v2 earlier at_j1 at_j2 same not_true not_false
               row row_boolean w).
    assert (agree' : forall j, j <> j2 -> nth j row' VUndefined = nth j row VUndefined)
      by (intros; symmetry; auto).
    rewrite (no_word_left premiseOrder j1 j2 v1 v2 earlier at_j1 at_j2 same not_true not_false
               row' row'_boolean w).
    exact Hfirst. }
  rewrite Hstep. apply for_ext. intros i x Hi. unfold substitute_word.
  rewrite agree by lia. reflexivity.
Qed.

Lemma substitute_agree (codes : list str) :
  substitute premiseOrder row codes = substitute premiseOrder row' codes.
Proof.
  rewrite !substitute_by_words by assumption.
  apply map_ext. intros code. apply map_words_ext. intros w _. apply substitute_word_agree.
Qed.

End Shadowed.

(** C10, amended: when two premises differ in the case of letters only and
    are not spelled like [true] or [false], the substitution for the earlier
    one replaces the later one as well.  Two rows of the enumeration that
    differ in the value of the later premise only then have the same row
    codes; and where these are fully substituted texts, the same results in
    every statement column (or the same failure). *)
Theorem later_premise_is_shadowed (logic : str) (j1 j2 : nat) (v1 v2 : str)
    (row row' : list value) :
  let codes := compile logic in
  let premiseOrder := premiseOrder_of codes in
  j1 < j2 ->
  nth_error premiseOrder j1 = Some v1 ->
  nth_error premiseOrder j2 = Some v2 ->
  same_letters v1 v2 = true ->
  same_letters v2 "true" = false ->
  same_letters v2 "false" = false ->
  In (Some row) (enumerate premiseOrder) ->
  In (Some row') (enumerate premiseOrder) ->
  (forall j, j <> j2 -> nth j row VUndefined = nth j row' VUndefined) ->
  substitute premiseOrder row codes = substitute premiseOrder row' codes /\
  (forallb fully_substituted (substitute premiseOrder row codes) = true ->
   match evaluate row (substitute premiseOrder row codes),
         evaluate row' (substitute premiseOrder row' codes) with
   | inr out, inr out' =>
       skipn (length premiseOrder) out = skipn (length premiseOrder) out'
   | inl e, inl e' => e = e'
   | _, _ => False
   end).
Proof.
  intros codes premiseOrder Hlt H1 H2 Hsame Ht Hf Hrow Hrow' Hagree.
  destruct (enumerate_boolean_row _ _ Hrow) as [Hb Hl].
  destruct (enumerate_boolean_row _ _ Hrow') as [Hb' Hl'].
  assert (Heq : substitute premiseOrder row codes = substitute premiseOrder row' codes).
  { apply (substitute_agree premiseOrder (premiseOrder_wordlike codes) j1 j2 v1 v2); assumption. }
  split; [exact Heq|]. intros _.
  rewrite <- Heq.
  rewrite (evaluate_from_empty _ row), (evaluate_from_empty _ row').
  destruct (evaluate [] (substitute premiseOrder row codes)) as [e|results]; [reflexivity|].
  rewrite !skipn_app, <- Hl, skipn_all, Nat.sub_diag. rewrite Hl, <- Hl', skipn_all, Nat.sub_diag.
  reflexivity.
Qed.


Lemma later_premise_is_shadowed_witness :
  substitute (premiseOrder_of (compile "P and p")) [T; T] (compile "P and p") =
  substitute (premiseOrder_of (compile "P and p")) [T; F] (compile "P and p") /\
  match evaluate [T; T]
          (substitute (premiseOrder_of (compile "P and p")) [T; T] (compile "P and p")),
        evaluate [T; F]
          (substitute (premiseOrder_of (compile "P and p")) [T; F] (compile "P and p")) with
  | inr out, inr out' =>
      skipn (length (premiseOrder_of (compile "P and p"))) out =
      skipn (length (premiseOrder_of (compile "P and p"))) out'
  | inl e, inl e' => e = e'
  | _, _ => False
  end.
Proof.
  assert (H1 : nth_error (premiseOrder_of (compile "P and p")) 0 = Some ("P" : str))
    by (vm_compute; reflexivity).
  assert (H2 : nth_error (premiseOrder_of (compile "P and p")) 1 = Some ("p" : str))
    by (vm_compute; reflexivity).
  assert (H3 : same_letters "P" "p" = true) by (vm_compute; reflexivity).
  assert (H4 : same_letters "p" "true" = false) by (vm_compute; reflexivity).
  assert (H5 : same_letters "p" "false" = false) by (vm_compute; reflexivity).
  assert (H6 : In (Some [T; T]) (enumerate (premiseOrder_of (compile "P and p"))))
    by (vm_compute; left; reflexivity).
  assert (H7 : In (Some [T; F]) (enumerate (premiseOrder_of (compile "P and p"))))
    by (vm_compute; right; left; reflexivity).
  assert (H8 : forall j, j <> 1 -> nth j [T; T] VUndefined = nth j [T; F] VUndefined)
    by (intros [|[|j]] Hj; [reflexivity | congruence | reflexivity]).
  pose proof (later_premise_is_shadowed "P and p" 0 1 "P" "p" [T; T] [T; F]) as H.
  cbv zeta in H.
  specialize (H Nat.lt_0_1 H1 H2 H3 H4 H5 H6 H7 H8).
  destruct H as [Ha Hb]. split; [exact Ha|].
  apply Hb. vm_compute. reflexivity.
Defined.

(** ** Termination of the Parenthesis Rewriter *)

Lemma length_substr_from (s : str) (i : Z) :
  (0 <= i <= Z.of_nat (length s))%Z ->
  substr_from s i = skipn (Z.to_nat i) s.
Proof.
  intros Hi. unfold substr_from, substr. cbv zeta.
  destruct (Z.ltb_spec i 0); [lia|].
  replace (Z.min i (Z.of_nat (length s))) with i by lia.
  apply firstn_all2. rewrite length_skipn. lia.
Qed.

Lemma length_substr_prefix (s : str) (n : Z) :
  (Z.of_nat (length (substr s 0 n)) <= Z.max n 0)%Z.
Proof.
  unfold substr. cbv zeta. rewrite length_firstn. lia.
Qed.

Lemma length_substr (s : str) (start len : Z) :
  (Z.of_nat (length (substr s start len)) <= Z.max len 0)%Z.
Proof.
  unfold substr. cbv zeta. rewrite length_firstn. lia.
Qed.

(** One turn of the loop brings [i] at least one closer to the end. *)
Lemma replaceParanthesis_body_progress (callback : str -> str) (st st' : scan) (i i' : Z) :
  (0 <= i < Z.of_nat (length (scan_string st)))%Z ->
  (-1 <= startIndex st)%Z ->
  replaceParanthesis_body callback st i = (st', i') ->
  (0 <= i' + 1)%Z /\ (-1 <= startIndex st')%Z /\
  (Z.of_nat (length (scan_string st')) - (i' + 1) <= Z.of_nat (length (scan_string st)) - i - 1)%Z.
Proof.
  intros Hi Hs. unfold replaceParanthesis_body.
  destruct (charAt (scan_string st) i) as [c|]; [|intros [= <- <-]; lia].
  destruct (Ascii.eqb_spec c "("%char) as [->|Ho].
  - intros [= <- <-]. cbn [scan_string startIndex].
    destruct (control st + 1 =? 1)%Z; lia.
  - destruct (Ascii.eqb_spec c ")"%char) as [->|Hc].
    + destruct (control st - 1 =? 0)%Z.
      * intros [= <- <-]. cbn [scan_string startIndex].
        rewrite !length_app, length_substr_from by lia.
        rewrite length_skipn.
        pose proof (length_substr_prefix (scan_string st) (startIndex st + 1)).
        lia.
      * intros [= <- <-]. cbn [scan_string startIndex]. lia.
    + intros H.
      assert (H' : (st, i) = (st', i')).
      { revert H. destruct c as [[] [] [] [] [] [] [] []]; try (intros H; exact H); congruence. }
      injection H' as <- <-. lia.
Qed.




(** ** The recursion of the Expression Compiler *)

Definition suffix_of (s t : str) : Prop := exists p, t = skipn p s.

Lemma suffix_of_skipn (s t : str) (k : nat) : suffix_of s t -> suffix_of s (skipn k t).
Proof. intros [p ->]. exists (k + p). apply skipn_skipn. Qed.

Lemma suffix_of_length (s t : str) : suffix_of s t -> length t <= length s.
Proof. intros [p ->]. rewrite length_skipn. lia. Qed.

(** What the scan keeps true: the text from [i] on is an end of the text the
    scan started with, and so is the text from the opening parenthesis of the
    current outermost group on. *)
Definition scan_inv (s : str) (st : scan) (i : Z) : Prop :=
  (0 <= i)%Z /\
  suffix_of s (skipn (Z.to_nat i) (scan_string st)) /\
  ((1 <= control st)%Z ->
   (0 <= startIndex st < i)%Z /\
   suffix_of s (skipn (Z.to_nat (startIndex st)) (scan_string st))).

Lemma skipn_S_suffix (s l : str) (n : nat) :
  suffix_of s (skipn n l) -> suffix_of s (skipn (S n) l).
Proof.
  intros H. replace (skipn (S n) l) with (skipn 1 (skipn n l)).
  - apply suffix_of_skipn, H.
  - rewrite skipn_skipn. reflexivity.
Qed.

Lemma substr_prefix (s : str) (n : Z) :
  (0 <= n <= Z.of_nat (length s))%Z -> substr s 0 n = firstn (Z.to_nat n) s.
Proof.
  intros Hn. unfold substr. cbv zeta. cbn [Z.ltb Z.compare].
  replace (Z.min 0 (Z.of_nat (length s))) with 0%Z by lia.
  replace (Z.min (Z.max n 0) (Z.of_nat (length s) - 0)) with n by lia.
  reflexivity.
Qed.

Lemma replaceParanthesis_body_inv (s : str) (f g : str -> str) (st : scan) (i : Z) :
  (forall t, length t < length s -> f t = g t) ->
  scan_inv s st i ->
  (i < Z.of_nat (length (scan_string st)))%Z ->
  replaceParanthesis_body f st i = replaceParanthesis_body g st i /\
  scan_inv s (fst (replaceParanthesis_body f st i)) (snd (replaceParanthesis_body f st i) + 1).
Proof.
  intros Hfg (Hi & Hsuf & Hgrp) Hlt. unfold replaceParanthesis_body.
  assert (Hnext : suffix_of s (skipn (Z.to_nat (i + 1)) (scan_string st))).
  { replace (Z.to_nat (i + 1)) with (S (Z.to_nat i)) by lia. apply skipn_S_suffix, Hsuf. }
  destruct (charAt (scan_string st) i) as [c|].
  2:{ split; [reflexivity|]. cbn [fst snd]. unfold scan_inv. split; [lia|]. split; [exact Hnext|].
      intros Hc. destruct Hgrp as [H1 H2]; [lia|]. split; [lia | exact H2]. }
  destruct (Ascii.eqb_spec c "("%char) as [->|Ho].
  - split; [reflexivity|]. cbn [fst snd]. unfold scan_inv. cbn [scan_string control startIndex].
    split; [lia|]. split; [exact Hnext|]. intros Hc.
    destruct (Z.eqb_spec (control st + 1) 1) as [E|E].
    + split; [lia | exact Hsuf].
    + destruct Hgrp as [H1 H2]; [lia|]. split; [lia | exact H2].
  - destruct (Ascii.eqb_spec c ")"%char) as [->|Hc].
    + destruct (Z.eqb_spec (control st - 1) 0) as [E|E].
      * destruct Hgrp as [Hsi Hsufsi]; [lia|].
        set (inside := substr (scan_string st) (startIndex st + 1) (i - startIndex st - 1)).
        assert (Hin : length inside < length s).
        { pose proof (length_substr (scan_string st) (startIndex st + 1) (i - startIndex st - 1)).
          fold inside in H. apply suffix_of_length in Hsufsi.
          rewrite length_skipn in Hsufsi. lia. }
        rewrite (Hfg _ Hin). split; [reflexivity|].
        cbn [fst snd]. unfold scan_inv. cbn [scan_string control startIndex].
        split; [lia|]. split; [|intros; lia].
        rewrite substr_prefix, length_substr_from by lia.
        set (R := g inside).
        replace (Z.to_nat (startIndex st + Z.of_nat (length R) + 3 + 1))
          with (length (firstn (Z.to_nat (startIndex st + 1)) (scan_string st)) + (length R + 3)).
        -- rewrite skipn_app, skipn_all2 by lia.
           replace (_ + (length R + 3) - _) with (length R + 3) by lia.
           rewrite skipn_app, skipn_all2 by lia.
           replace (length R + 3 - length R) with 3 by lia.
           apply suffix_of_skipn, Hsuf.
        -- rewrite length_firstn. lia.
      * split; [reflexivity|]. cbn [fst snd]. unfold scan_inv. cbn [scan_string control startIndex].
        split; [lia|]. split; [exact Hnext|]. intros Hc1.
        destruct Hgrp as [H1 H2]; [lia|]. split; [lia | exact H2].
    + assert (E : forall (A : Type) (x y z : A),
                 match c with "("%char => x | ")"%char => y | _ => z end = z).
      { intros A x y z. destruct c as [[] [] [] [] [] [] [] []]; try reflexivity; congruence. }
      rewrite !E. split; [reflexivity|]. cbn [fst snd]. unfold scan_inv.
      split; [lia|]. split; [exact Hnext|]. intros Hc1.
      destruct Hgrp as [H1 H2]; [lia|]. split; [lia | exact H2].
Qed.

Lemma replaceParanthesis_loop_ext (s : str) (f g : str -> str) (fuel : nat) (st : scan) (i : Z) :
  (forall t, length t < length s -> f t = g t) ->
  scan_inv s st i ->
  replaceParanthesis_loop fuel f st i = replaceParanthesis_loop fuel g st i.
Proof.
  intros Hfg. revert st i. induction fuel as [|fuel IH]; intros st i Hinv; [reflexivity|].
  cbn [replaceParanthesis_loop].
  destruct (Z.ltb_spec i (Z.of_nat (length (scan_string st)))) as [Hlt|Hge]; [|reflexivity].
  destruct (replaceParanthesis_body_inv s f g st i Hfg Hinv Hlt) as [Heq Hinv'].
  rewrite <- Heq. destruct (replaceParanthesis_body f st i) as [st' i'].
  apply IH. exact Hinv'.
Qed.

(** The rewrite function is only given texts shorter than the string. *)
Lemma replaceParanthesis_ext (s : str) (f g : str -> str) :
  (forall t, length t < length s -> f t = g t) ->
  replaceParanthesis s f = replaceParanthesis s g.
Proof.
  intros Hfg. unfold replaceParanthesis. apply (replaceParanthesis_loop_ext s); [exact Hfg|].
  split; [lia|]. split.
  - exists 0. reflexivity.
  - cbn [control]. lia.
Qed.

Lemma parse_depth_enough (depth depth' : nat) (logic : str) :
  length logic < depth -> length logic < depth' ->
  parse_depth depth logic = parse_depth depth' logic.
Proof.
  revert depth' logic. induction depth as [|depth IH]; intros depth' logic H H'; [lia|].
  destruct depth' as [|depth']; [lia|].
  cbn [parse_depth]. do 2 f_equal.
  apply replaceParanthesis_ext. intros t Ht. apply IH; lia.
Qed.

(** X2: [parse] is the function that the source defines by recursion: the
    outermost groups are rewritten by [parse] itself, then the implication,
    then the operator words.  The inside of a group is shorter than the text,
    so the nesting of the calls is bounded by the length. *)
Theorem parse_unfold (logic : str) :
  parse logic =
  translate (replaceAllWith thenWrap wrapThen (replaceParanthesis logic parse)).
Proof.
  unfold parse at 1. cbn [parse_depth]. do 2 f_equal.
  apply replaceParanthesis_ext. intros t Ht. unfold parse. apply parse_depth_enough; lia.
Qed.

(** ** What the Parenthesis Rewriter does rewrite *)

Definition is_paren (c : ascii) : bool := Ascii.eqb c "(" || Ascii.eqb c ")".

(** A text without parenthesis. *)
Definition plain (s : str) : bool := forallb (fun c => negb (is_paren c)) s.

(** [balanced_from d s]: read at depth [d], the text [s] never closes more
    parentheses than are open and ends at depth 0. *)
Fixpoint balanced_from (d : nat) (s : str) : bool :=
  match s with
  | [] => d =? 0
  | c :: s' =>
      if Ascii.eqb c "(" then balanced_from (S d) s'
      else if Ascii.eqb c ")" then
        match d with 0 => false | S d' => balanced_from d' s' end
      else balanced_from d s'
  end.

Definition balanced (s : str) : bool := balanced_from 0 s.

Lemma body_open (callback : str -> str) (st : scan) (i : Z) :
  charAt (scan_string st) i = Some "("%char ->
  replaceParanthesis_body callback st i =
  ({| scan_string := scan_string st; control := control st + 1;
      startIndex := if (control st + 1 =? 1)%Z then i else startIndex st |}, i).
Proof. unfold replaceParanthesis_body. intros ->. reflexivity. Qed.

Lemma body_close_keep (callback : str -> str) (st : scan) (i : Z) :
  charAt (scan_string st) i = Some ")"%char ->
  (control st - 1)%Z <> 0%Z ->
  replaceParanthesis_body callback st i =
  ({| scan_string := scan_string st; control := control st - 1;
      startIndex := startIndex st |}, i).
Proof.
  unfold replaceParanthesis_body. intros -> H.
  destruct (Z.eqb_spec (control st - 1) 0); [contradiction | reflexivity].
Qed.

Lemma body_close_splice (callback : str -> str) (st : scan) (i : Z) :
  charAt (scan_string st) i = Some ")"%char ->
  (control st - 1)%Z = 0%Z ->
  replaceParanthesis_body callback st i =
  (let replacementString :=
     callback (substr (scan_string st) (startIndex st + 1) (i - startIndex st - 1)) in
   ({| scan_string := substr (scan_string st) 0 (startIndex st + 1) ++ replacementString
                      ++ substr_from (scan_string st) i;
       control := control st - 1; startIndex := startIndex st |},
    (startIndex st + Z.of_nat (length replacementString) + 3)%Z)).
Proof.
  unfold replaceParanthesis_body. intros -> H.
  destruct (Z.eqb_spec (control st - 1) 0); [reflexivity | contradiction].
Qed.

Lemma body_other (callback : str -> str) (st : scan) (i : Z) (c : ascii) :
  charAt (scan_string st) i = Some c ->
  is_paren c = false ->
  replaceParanthesis_body callback st i = (st, i).
Proof.
  unfold replaceParanthesis_body. intros -> H.
  destruct c as [[] [] [] [] [] [] [] []]; try reflexivity; discriminate.
Qed.

(** [reaches callback st i st' i']: from the state [st] at index [i] the loop
    comes to the state [st'] at index [i'], given turns enough. *)
Definition reaches (callback : str -> str) (st : scan) (i : Z) (st' : scan) (i' : Z) : Prop :=
  (0 <= i)%Z -> (-1 <= startIndex st)%Z ->
  ((0 <= i')%Z /\ (-1 <= startIndex st')%Z) /\
  forall fuel, (Z.of_nat (length (scan_string st)) - i <= Z.of_nat fuel)%Z ->
    exists fuel', (Z.of_nat (length (scan_string st')) - i' <= Z.of_nat fuel')%Z /\
                  replaceParanthesis_loop fuel callback st i =
                  replaceParanthesis_loop fuel' callback st' i'.

Lemma reaches_refl (callback : str -> str) (st : scan) (i : Z) : reaches callback st i st i.
Proof. intros Hi Hs. split; [auto|]. intros fuel Hf. exists fuel. auto. Qed.

Lemma reaches_trans (callback : str -> str) (st1 st2 st3 : scan) (i1 i2 i3 : Z) :
  reaches callback st1 i1 st2 i2 -> reaches callback st2 i2 st3 i3 ->
  reaches callback st1 i1 st3 i3.
Proof.
  intros H12 H23 Hi Hs. destruct (H12 Hi Hs) as [[Hi2 Hs2] F12].
  destruct (H23 Hi2 Hs2) as [[Hi3 Hs3] F23]. split; [auto|].
  intros fuel Hf. destruct (F12 fuel Hf) as (fuel2 & Hf2 & E12).
  destruct (F23 fuel2 Hf2) as (fuel3 & Hf3 & E23). exists fuel3. split; [exact Hf3 | congruence].
Qed.

Lemma reaches_step (callback : str -> str) (st st' : scan) (i i' : Z) :
  (i < Z.of_nat (length (scan_string st)))%Z ->
  replaceParanthesis_body callback st i = (st', i') ->
  reaches callback st i st' (i' + 1).
Proof.
  intros Hlt Hb Hi Hs.
  destruct (replaceParanthesis_body_progress _ _ _ _ _ (conj Hi Hlt) Hs Hb) as (H1 & H2 & H3).
  split; [auto|]. intros fuel Hf. destruct fuel as [|fuel]; [lia|].
  exists fuel. split; [lia|]. apply loop_next; assumption.
Qed.

Lemma reaches_end (callback : str -> str) (st st' : scan) (i i' : Z) (fuel : nat) :
  reaches callback st i st' i' ->
  (0 <= i)%Z -> (-1 <= startIndex st)%Z ->
  (Z.of_nat (length (scan_string st')) <= i')%Z ->
  (Z.of_nat (length (scan_string st)) - i <= Z.of_nat fuel)%Z ->
  replaceParanthesis_loop fuel callback st i = scan_string st'.
Proof.
  intros H Hi Hs Hend Hf. destruct (H Hi Hs) as [_ F].
  destruct (F fuel Hf) as (fuel' & _ & E). rewrite E. apply loop_done. exact Hend.
Qed.

Lemma substr_at (a b c : str) (start len : Z) :
  start = Z.of_nat (length a) -> len = Z.of_nat (length b) ->
  substr (a ++ b ++ c) start len = b.
Proof.
  intros -> ->. unfold substr. cbv zeta.
  destruct (Z.ltb_spec (Z.of_nat (length a)) 0); [lia|].
  rewrite !length_app.
  replace (Z.min (Z.of_nat (length a)) (Z.of_nat (length a + (length b + length c))))
    with (Z.of_nat (length a)) by lia.
  replace (Z.min (Z.max (Z.of_nat (length b)) 0)
             (Z.of_nat (length a + (length b + length c)) - Z.of_nat (length a)))
    with (Z.of_nat (length b)) by lia.
  rewrite !Nat2Z.id.
  rewrite skipn_app, skipn_all, Nat.sub_diag. cbn [skipn app].
  rewrite firstn_app, firstn_all, Nat.sub_diag. cbn [firstn]. apply app_nil_r.
Qed.

Lemma charAt_at (a c : str) (x : ascii) (i : Z) :
  i = Z.of_nat (length a) -> charAt (a ++ x :: c) i = Some x.
Proof. apply charAt_app. Qed.

(** Characters that are no parenthesis are passed over. *)
Lemma reaches_plain (callback : str -> str) (w done rest string : str) (ctl si : Z) :
  plain w = true ->
  string = done ++ w ++ rest ->
  reaches callback {| scan_string := string; control := ctl; startIndex := si |}
    (Z.of_nat (length done))
    {| scan_string := string; control := ctl; startIndex := si |}
    (Z.of_nat (length done) + Z.of_nat (length w)).
Proof.
  revert done. induction w as [|c w IH]; intros done Hw Hs.
  - replace (Z.of_nat (length done) + Z.of_nat (length (@nil ascii)))%Z
      with (Z.of_nat (length done)) by (cbn [length]; lia).
    apply reaches_refl.
  - cbn [plain forallb] in Hw. apply andb_prop in Hw as [Hc Hw]. apply negb_true_iff in Hc.
    eapply reaches_trans.
    + apply reaches_step.
      * cbn [scan_string]. rewrite Hs, !length_app. cbn [length]. lia.
      * apply (body_other _ _ _ c); [|exact Hc]. cbn [scan_string]. rewrite Hs.
        apply charAt_at. reflexivity.
    + replace (Z.of_nat (length done) + 1)%Z with (Z.of_nat (length (done ++ [c])))
        by (rewrite length_app; cbn [length]; lia).
      replace (Z.of_nat (length done) + Z.of_nat (length (c :: w)))%Z
        with (Z.of_nat (length (done ++ [c])) + Z.of_nat (length w))%Z
        by (rewrite length_app; cbn [length]; lia).
      apply IH; [exact Hw|]. rewrite Hs, <- app_assoc. reflexivity.
Qed.

(** Inside a group the depth goes up and down and comes back to 1. *)
Lemma reaches_nested (callback : str -> str) (w pre post string : str) (d : nat) (si : Z) :
  balanced_from d w = true ->
  string = pre ++ w ++ post ->
  reaches callback
    {| scan_string := string; control := 1 + Z.of_nat d; startIndex := si |}
    (Z.of_nat (length pre))
    {| scan_string := string; control := 1; startIndex := si |}
    (Z.of_nat (length pre) + Z.of_nat (length w)).
Proof.
  revert pre d. induction w as [|c w IH]; intros pre d Hw Hs.
  - cbn [balanced_from] in Hw. apply Nat.eqb_eq in Hw. subst d.
    replace (1 + Z.of_nat 0)%Z with 1%Z by lia.
    replace (Z.of_nat (length pre) + Z.of_nat (length (@nil ascii)))%Z
      with (Z.of_nat (length pre)) by (cbn [length]; lia).
    apply reaches_refl.
  - assert (Hlt : (Z.of_nat (length pre) < Z.of_nat (length string))%Z).
    { rewrite Hs, !length_app. cbn [length]. lia. }
    assert (Hch : charAt string (Z.of_nat (length pre)) = Some c).
    { rewrite Hs. apply charAt_at. reflexivity. }
    assert (Hs' : string = (pre ++ [c]) ++ w ++ post).
    { rewrite Hs, <- app_assoc. reflexivity. }
    assert (Hi : (Z.of_nat (length pre) + 1)%Z = Z.of_nat (length (pre ++ [c]))).
    { rewrite length_app. cbn [length]. lia. }
    assert (Hj : (Z.of_nat (length pre) + Z.of_nat (length (c :: w)))%Z
                 = (Z.of_nat (length (pre ++ [c])) + Z.of_nat (length w))%Z).
    { rewrite length_app. cbn [length]. lia. }
    cbn [balanced_from] in Hw.
    destruct (Ascii.eqb_spec c "("%char) as [->|Ho].
    + eapply reaches_trans.
      * apply reaches_step; [exact Hlt|]. apply body_open. exact Hch.
      * cbn [control startIndex scan_string].
        destruct (Z.eqb_spec (1 + Z.of_nat d + 1) 1); [lia|].
        rewrite Hi, Hj.
        replace (1 + Z.of_nat d + 1)%Z with (1 + Z.of_nat (S d))%Z by lia.
        apply IH; assumption.
    + destruct (Ascii.eqb_spec c ")"%char) as [->|Hc].
      * destruct d as [|d]; [discriminate|].
        eapply reaches_trans.
        -- apply reaches_step; [exact Hlt|]. apply body_close_keep; [exact Hch|].
           cbn [control]. lia.
        -- cbn [control startIndex scan_string]. rewrite Hi, Hj.
           replace (1 + Z.of_nat (S d) - 1)%Z with (1 + Z.of_nat d)%Z by lia.
           apply IH; assumption.
      * eapply reaches_trans.
        -- apply reaches_step; [exact Hlt|]. apply (body_other _ _ _ c); [exact Hch|].
           unfold is_paren. apply Ascii.eqb_neq in Ho, Hc. rewrite Ho, Hc. reflexivity.
        -- rewrite Hi, Hj. apply IH; assumption.
Qed.

(** An outermost group met at depth 0 is rewritten; the scan goes on two
    characters after the character that follows its closing parenthesis. *)
Lemma reaches_group (callback : str -> str) (done inner rest : str) (si : Z) :
  balanced inner = true ->
  reaches callback
    {| scan_string := done ++ "(" ++ inner ++ ")" ++ rest; control := 0; startIndex := si |}
    (Z.of_nat (length done))
    {| scan_string := done ++ "(" ++ callback inner ++ ")" ++ rest; control := 0;
       startIndex := Z.of_nat (length done) |}
    (Z.of_nat (length done) + Z.of_nat (length (callback inner)) + 4).
Proof.
  intros Hin.
  set (string := done ++ "(" ++ inner ++ ")" ++ rest).
  assert (Hlen : length string = length done + 1 + length inner + 1 + length rest).
  { unfold string. rewrite !length_app. cbn [length list_ascii_of_string]. 
    change (length (list_ascii_of_string "(")) with 1.
    change (length (list_ascii_of_string ")")) with 1. lia. }
  eapply reaches_trans.
  { apply reaches_step.
    - cbn [scan_string]. fold string. lia.
    - apply body_open. cbn [scan_string]. apply charAt_at. reflexivity. }
  cbn [control startIndex scan_string]. change (0 + 1 =? 1)%Z with true. cbv iota.
  eapply reaches_trans.
  { replace (Z.of_nat (length done) + 1)%Z with (Z.of_nat (length (done ++ "("))).
    - change (0 + 1)%Z with (1 + Z.of_nat 0)%Z.
      apply (reaches_nested callback inner (done ++ "(") (")" ++ rest)); [exact Hin|].
      rewrite <- app_assoc. reflexivity.
    - rewrite length_app. change (length (list_ascii_of_string "(")) with 1. lia. }
  fold string.
  assert (Hi : (Z.of_nat (length (done ++ "(")) + Z.of_nat (length inner))%Z
               = Z.of_nat (length (done ++ "(" ++ inner))).
  { rewrite !length_app. lia. }
  rewrite Hi.
  assert (Hch : charAt string (Z.of_nat (length (done ++ "(" ++ inner))) = Some ")"%char).
  { unfold string. replace (done ++ "(" ++ inner ++ ")" ++ rest)
      with ((done ++ "(" ++ inner) ++ ")"%char :: rest)
      by (rewrite <- !app_assoc; reflexivity).
    apply charAt_at. reflexivity. }
  pose proof (body_close_splice callback
                {| scan_string := string; control := 1; startIndex := Z.of_nat (length done) |}
                _ Hch eq_refl) as Hb.
  cbv zeta in Hb. cbn [scan_string control startIndex] in Hb.
  assert (Hinside : substr string (Z.of_nat (length done) + 1)
                      (Z.of_nat (length (done ++ "(" ++ inner)) - Z.of_nat (length done) - 1)
                    = inner).
  { unfold string. replace (done ++ "(" ++ inner ++ ")" ++ rest)
      with ((done ++ "(") ++ inner ++ (")" ++ rest))
      by (rewrite <- !app_assoc; reflexivity).
    apply substr_at.
    - rewrite length_app. change (length (list_ascii_of_string "(")) with 1. lia.
    - rewrite !length_app. change (length (list_ascii_of_string "(")) with 1. lia. }
  assert (Hbefore : substr string 0 (Z.of_nat (length done) + 1) = done ++ "(").
  { unfold string. replace (done ++ "(" ++ inner ++ ")" ++ rest)
      with ([] ++ (done ++ "(") ++ (inner ++ ")" ++ rest))
      by (cbn [app]; rewrite <- !app_assoc; reflexivity).
    apply substr_at; [reflexivity|].
    rewrite length_app. change (length (list_ascii_of_string "(")) with 1. lia. }
  assert (Hafter : substr_from string (Z.of_nat (length (done ++ "(" ++ inner))) = ")" ++ rest).
  { rewrite length_substr_from by (rewrite Hlen, !length_app;
      change (length (list_ascii_of_string "(")) with 1; lia).
    rewrite Nat2Z.id. unfold string.
    replace (done ++ "(" ++ inner ++ ")" ++ rest)
      with ((done ++ "(" ++ inner) ++ ")" ++ rest)
      by (rewrite <- !app_assoc; reflexivity).
    rewrite skipn_app, skipn_all, Nat.sub_diag. reflexivity. }
  rewrite Hinside, Hbefore, Hafter in Hb.
  eapply reaches_trans.
  { apply reaches_step; [|exact Hb]. cbn [scan_string]. rewrite Hlen, !length_app.
    change (length (list_ascii_of_string "(")) with 1. lia. }
  replace (done ++ "(" ++ callback inner ++ ")" ++ rest)
    with ((done ++ "(") ++ callback inner ++ ")" ++ rest)
    by (rewrite <- !app_assoc; reflexivity).
  replace (Z.of_nat (length done) + Z.of_nat (length (callback inner)) + 3 + 1)%Z
    with (Z.of_nat (length done) + Z.of_nat (length (callback inner)) + 4)%Z by lia.
  change (1 - 1)%Z with 0%Z.
  apply reaches_refl.
Qed.

(** A text cut into its outermost groups: each group with what follows it up
    to the next group. *)
Fixpoint spread (callback : str -> str) (groups : list (str * str)) : str :=
  match groups with
  | [] => []
  | (inner, sep) :: groups' => "(" ++ callback inner ++ ")" ++ sep ++ spread callback groups'
  end.

(** The groups are balanced, and two characters at least, none of them a
    parenthesis, stand between a group and the next one. *)
Fixpoint well_separated (groups : list (str * str)) : Prop :=
  match groups with
  | [] => True
  | (inner, sep) :: groups' =>
      balanced inner = true /\ plain sep = true /\
      (groups' = [] \/ 2 <= length sep) /\ well_separated groups'
  end.

Lemma replaceParanthesis_loop_groups (callback : str -> str) (groups : list (str * str)) :
  well_separated groups ->
  forall (done pre : str) (si : Z) (fuel : nat),
  plain pre = true ->
  (-1 <= si)%Z ->
  (Z.of_nat (length (done ++ pre ++ spread (fun s => s) groups)) - Z.of_nat (length done)
   <= Z.of_nat fuel)%Z ->
  replaceParanthesis_loop fuel callback
    {| scan_string := done ++ pre ++ spread (fun s => s) groups; control := 0; startIndex := si |}
    (Z.of_nat (length done)) =
  done ++ pre ++ spread callback groups.
Proof.
  induction groups as [|[inner sep] groups IH]; intros Hsep done pre si fuel Hpre Hsi Hfuel.
  - cbn [spread] in *.
    apply (reaches_end callback _ _ _ _ fuel
             (reaches_plain callback pre done [] _ 0 si Hpre eq_refl)).
    + lia.
    + exact Hsi.
    + cbn [scan_string]. rewrite !length_app. cbn [length]. lia.
    + exact Hfuel.
  - cbn [well_separated] in Hsep. destruct Hsep as (Hin & Hplain & Hgap & Hrest).
    cbn [spread] in *.
    set (rest := sep ++ spread (fun s => s) groups) in *.
    assert (Hscan : reaches callback
              {| scan_string := done ++ pre ++ "(" ++ inner ++ ")" ++ rest;
                 control := 0; startIndex := si |}
              (Z.of_nat (length done))
              {| scan_string := (done ++ pre) ++ "(" ++ callback inner ++ ")" ++ rest;
                 control := 0; startIndex := Z.of_nat (length (done ++ pre)) |}
              (Z.of_nat (length (done ++ pre)) + Z.of_nat (length (callback inner)) + 4)).
    { eapply reaches_trans.
      - apply (reaches_plain callback pre done ("(" ++ inner ++ ")" ++ rest)); [exact Hpre|].
        reflexivity.
      - replace (Z.of_nat (length done) + Z.of_nat (length pre))%Z
          with (Z.of_nat (length (done ++ pre))) by (rewrite length_app; lia).
        replace (done ++ pre ++ "(" ++ inner ++ ")" ++ rest)
          with ((done ++ pre) ++ "(" ++ inner ++ ")" ++ rest)
          by (rewrite <- app_assoc; reflexivity).
        apply reaches_group. exact Hin. }
    destruct (Hscan ltac:(lia) Hsi) as [[Hi' Hsi'] F].
    destruct (F fuel Hfuel) as (fuel' & Hf' & E). rewrite E. clear E F Hscan Hfuel.
    cbn [scan_string] in Hf'. subst rest.
    assert (Hgoal : forall x, done ++ pre ++ "(" ++ callback inner ++ ")" ++ x
                              = (done ++ pre) ++ "(" ++ callback inner ++ ")" ++ x).
    { intros x. rewrite <- app_assoc. reflexivity. }
    rewrite Hgoal.
    destruct sep as [|c1 [|c2 sep']].
    + (* nothing follows the last group *)
      destruct Hgap as [->|Hgap]; [|cbn [length] in Hgap; lia].
      apply loop_done. cbn [scan_string]. cbn [spread app].
      rewrite !length_app. change (length (list_ascii_of_string "(")) with 1.
      change (length (list_ascii_of_string ")")) with 1. cbn [length]. lia.
    + (* one character follows the last group *)
      destruct Hgap as [->|Hgap]; [|cbn [length] in Hgap; lia].
      apply loop_done. cbn [scan_string]. cbn [spread app].
      rewrite !length_app. change (length (list_ascii_of_string "(")) with 1.
      change (length (list_ascii_of_string ")")) with 1. cbn [length]. lia.
    + (* the two characters passed over belong to the separation *)
      set (done2 := (done ++ pre) ++ "(" ++ callback inner ++ ")" ++ [c1; c2]).
      assert (Hstr : forall x, (done ++ pre) ++ "(" ++ callback inner ++ ")" ++ (c1 :: c2 :: sep') ++ x
                               = done2 ++ sep' ++ x).
      { intros x. unfold done2. rewrite <- !app_assoc. reflexivity. }
      assert (Hlen2 : (Z.of_nat (length (done ++ pre)) + Z.of_nat (length (callback inner)) + 4)%Z
                      = Z.of_nat (length done2)).
      { unfold done2. rewrite !length_app. change (length (list_ascii_of_string "(")) with 1.
        change (length (list_ascii_of_string ")")) with 1. cbn [length]. lia. }
      rewrite Hstr in Hf' |- *. rewrite Hlen2 in Hf' |- *.
      rewrite (Hstr (spread callback groups)).
      apply IH; try assumption.
      cbn [plain forallb] in Hplain. apply andb_prop in Hplain as [_ Hplain].
      apply andb_prop in Hplain as [_ Hplain]. exact Hplain.
Qed.

(** X3: when the outermost groups of a string are balanced and any two of
    them have two characters at least between them, the inside of every one
    is handed to the rewrite function and replaced by what it returns; the
    rest of the string stays. *)
Theorem replaceParanthesis_rewrites_separated_groups (callback : str -> str) (pre : str)
    (groups : list (str * str)) :
  plain pre = true ->
  well_separated groups ->
  replaceParanthesis (pre ++ spread (fun s => s) groups) callback =
  pre ++ spread callback groups.
Proof.
  intros Hpre Hsep. unfold replaceParanthesis.
  apply (replaceParanthesis_loop_groups callback groups Hsep [] pre (-1)); [exact Hpre | lia |].
  cbn [app length]. lia.
Qed.

Lemma replaceParanthesis_rewrites_separated_groups_witness :
  replaceParanthesis ("not " ++ spread (fun s => s) [("p or (q)" : str, " and " : str); ("r" : str, "" : str)])
    (fun s => "<" ++ s ++ ">") =
  "not " ++ spread (fun s => "<" ++ s ++ ">") [("p or (q)" : str, " and " : str); ("r" : str, "" : str)].
Proof.
  apply (replaceParanthesis_rewrites_separated_groups (fun s => "<" ++ s ++ ">") "not "
           [("p or (q)" : str, " and " : str); ("r" : str, "" : str)]).
  - reflexivity.
  - cbn [well_separated]. repeat split; try reflexivity; auto. right. simpl. lia.
Defined.

(** ** The Cartesian product of any matrices *)

Section ProductFacts.

Variable A : Type.

Lemma frequency_app (l1 l2 : list (list A)) :
  frequency (l1 ++ l2) = frequency l1 * frequency l2.
Proof.
  unfold frequency at 1. rewrite fold_left_app. fold (frequency l1).
  apply frequency_from.
Qed.

Lemma frequency_cons (m : list A) (l : list (list A)) :
  frequency (m :: l) = length m * frequency l.
Proof.
  unfold frequency at 1. cbn [fold_left]. rewrite frequency_from. lia.
Qed.

Lemma frequency_split (params : list (list A)) (i : nat) :
  i < length params ->
  frequency params =
  frequency (firstn i params) * (length (nth i params []) * frequency (skipn (i + 1) params)).
Proof.
  intros Hi.
  rewrite <- (firstn_skipn i params) at 1. rewrite frequency_app. f_equal.
  destruct (skipn i params) as [|m rest] eqn:E.
  - apply (f_equal (@length (list A))) in E. rewrite length_skipn in E. simpl in E. lia.
  - rewrite frequency_cons.
    assert (Hm : nth i params [] = m).
    { rewrite <- (firstn_skipn i params), E.
      rewrite app_nth2 by (rewrite length_firstn; lia).
      rewrite length_firstn. replace (i - Nat.min i (length params)) with 0 by lia. reflexivity. }
    assert (Hr : skipn (i + 1) params = rest).
    { replace (i + 1) with (1 + i) by lia. rewrite <- skipn_skipn, E. reflexivity. }
    rewrite Hm, Hr. reflexivity.
Qed.

Lemma for_id (S : Type) (n : nat) (body : nat -> S -> S) (s : S) :
  (forall i s', i < n -> body i s' = s') -> for_ n body s = s.
Proof.
  intros H. induction n as [|n IH]; [reflexivity|].
  rewrite for_S, IH by (intros; apply H; lia). apply H. lia.
Qed.

(** A column in general: every index below the product of the lengths is
    visited once, in order. *)
Lemma column_general (params : list (list A)) (i : nat) (cartesian : rows A) :
  i < length params ->
  column params i cartesian =
  for_ (frequency params)
    (fun x cartesian =>
       match nth_error (nth i params [])
               ((x / frequency (skipn (i + 1) params)) mod length (nth i params [])) with
       | Some e => put x e cartesian
       | None => cartesian
       end) cartesian.
Proof.
  intros Hi. rewrite (frequency_split params i Hi).
  destruct (frequency (skipn (i + 1) params)) as [|k] eqn:E.
  - rewrite !Nat.mul_0_r. cbn [for_ seq fold_left].
    unfold column. rewrite E.
    apply for_id. intros h s1 _. apply for_id. intros j s2 _. reflexivity.
  - rewrite <- E. apply column_flat. lia.
Qed.

Variable d : A.

(** The element of matrix [i] in row [x]. *)
Definition element (params : list (list A)) (i x : nat) : A :=
  nth ((x / frequency (skipn (i + 1) params)) mod length (nth i params [])) (nth i params []) d.

Lemma column_total (params : list (list A)) (i : nat) (cartesian : rows A) :
  i < length params ->
  0 < frequency params ->
  column params i cartesian =
  for_ (frequency params) (fun x => put x (element params i x)) cartesian.
Proof.
  intros Hi Hpos. rewrite column_general by exact Hi.
  apply for_ext. intros x s _.
  pose proof (frequency_split params i Hi) as Hs.
  assert (Hlen : 0 < length (nth i params [])).
  { destruct (length (nth i params [])); [|lia]. rewrite Nat.mul_0_l, Nat.mul_0_r in Hs. lia. }
  unfold element.
  rewrite (nth_error_nth' _ d) by (apply Nat.mod_upper_bound; lia). reflexivity.
Qed.

Lemma columns_total (params : list (list A)) (c : nat) :
  1 <= c <= length params ->
  0 < frequency params ->
  for_ c (column params) [] =
  rowsOf A (fun x => map (fun i => element params i x) (seq 0 c)) (frequency params).
Proof.
  intros [H1 Hn] Hpos. induction c as [|c IH]; [lia|].
  rewrite for_S. destruct c as [|c].
  - cbn [for_ seq fold_left]. rewrite column_total by lia. apply fill_first.
  - rewrite IH by lia. rewrite column_total by lia. rewrite fill_all.
    unfold rowsOf. apply map_ext. intros x.
    rewrite (seq_S (S c)), map_app. reflexivity.
Qed.

End ProductFacts.

(** X4: for any matrices, one at least, [cartesianProduct] gives as many rows
    as the product of their lengths, none missing, each with one element per
    matrix; row [x] holds, for matrix [i], its element
    [(x / innerFreq) mod length], where [innerFreq] is the product of the
    lengths of the matrices after [i].  So the last matrix varies fastest,
    and an empty matrix leaves no row. *)
Theorem cartesianProduct_rows (A : Type) (params : list (list A)) :
  params <> [] ->
  length (cartesianProduct params) = frequency params /\
  forall x, x < frequency params ->
    exists row,
      nth_error (cartesianProduct params) x = Some (Some row) /\
      length row = length params /\
      forall i, i < length params ->
        nth_error row i =
        nth_error (nth i params [])
          ((x / frequency (skipn (i + 1) params)) mod length (nth i params [])).
Proof.
  intros Hne.
  assert (Hn : 1 <= length params) by (destruct params; [congruence | simpl; lia]).
  destruct (frequency params) as [|k] eqn:E.
  - split; [|intros x Hx; lia].
    unfold cartesianProduct. rewrite for_id; [reflexivity|].
    intros i s Hi. rewrite column_general by exact Hi. rewrite E. reflexivity.
  - assert (Hd : exists d : A, True).
    { destruct params as [|[|d m] ps]; [congruence | | exists d; exact I].
      rewrite frequency_cons in E. simpl in E. discriminate. }
    destruct Hd as [d _].
    unfold cartesianProduct. rewrite (columns_total A d) by lia. rewrite E.
    split; [unfold rowsOf; rewrite length_map, length_seq; reflexivity|].
    intros x Hx. exists (map (fun i => element A d params i x) (seq 0 (length params))).
    split; [|split].
    + unfold rowsOf. rewrite nth_error_map, nth_error_seq_0.
      destruct (Nat.ltb_spec x (S k)); [reflexivity | lia].
    + rewrite length_map, length_seq. reflexivity.
    + intros i Hi. rewrite nth_error_map, nth_error_seq_0.
      destruct (Nat.ltb_spec i (length params)); [|lia]. cbn [option_map].
      unfold element. symmetry. apply nth_error_nth'.
      pose proof (frequency_split A params i Hi) as Hs. rewrite E in Hs.
      apply Nat.mod_upper_bound.
      destruct (length (nth i params [])); [|lia]. rewrite Nat.mul_0_l, Nat.mul_0_r in Hs. lia.
Qed.

Lemma cartesianProduct_rows_witness :
  length (cartesianProduct [[1; 2; 3]; [4; 5]]) = frequency [[1; 2; 3]; [4; 5]].
Proof.
  assert (H : [[1; 2; 3]; [4; 5]] <> []) by discriminate.
  destruct (cartesianProduct_rows nat [[1; 2; 3]; [4; 5]] H) as [Hl _]. exact Hl.
Defined.

(** ** The premises *)

Lemma existsb_str_eqb (x : str) (l : list str) : existsb (str_eqb x) l = true <-> In x l.
Proof.
  rewrite existsb_exists. split.
  - intros (y & Hy & E). apply str_eqb_eq in E. subst. exact Hy.
  - intros H. exists x. split; [exact H | apply str_eqb_eq; reflexivity].
Qed.

Lemma unique_from_spec (l seen : list str) :
  NoDup (unique_from seen l) /\
  forall v, In v (unique_from seen l) <-> In v l /\ ~ In v seen.
Proof.
  revert seen. induction l as [|x l IH]; intros seen.
  - split; [constructor|]. simpl. tauto.
  - cbn [unique_from]. destruct (existsb (str_eqb x) seen) eqn:E.
    + apply existsb_str_eqb in E. destruct (IH seen) as [Hn Hi]. split; [exact Hn|].
      intros v. rewrite Hi. simpl. split; [tauto|].
      intros [[->|H] Hs]; [contradiction | tauto].
    + assert (Hx : ~ In x seen).
      { intros H. apply existsb_str_eqb in H. congruence. }
      destruct (IH (x :: seen)) as [Hn Hi]. split.
      * constructor; [|exact Hn]. rewrite Hi. simpl. tauto.
      * intros v. simpl. rewrite Hi. simpl. split.
        -- intros [->|[H1 H2]]; [tauto|]. split; [tauto|]. tauto.
        -- intros [[->|H1] H2]; [tauto|].
           destruct (list_eq_dec ascii_dec x v) as [->|Hne]; [tauto|]. right. tauto.
Qed.

Lemma matchAll_premise_chars (n : nat) (b a : str) (v : str) :
  In v (flat_map (fun p => match p with inl _ => [] | inr m => [whole m] end)
          (pieces_from premises n b a)) ->
  v <> [] /\ forallb premise_char v = true.
Proof.
  revert b a; induction n as [|n IH]; intros b a H; [contradiction|].
  cbn [pieces_from] in H.
  destruct (exec_at premises b a) as [[[b' a'] cs]|] eqn:E.
  - apply exec_premises in E. destruct E as (w & Hne & Hw & Hz & Ha).
    cbn [snd] in Hz, Ha. injection Hz as ->.
    rewrite between_positions_forward in H.
    destruct (length a' =? length a).
    + cbn [flat_map whole] in H. destruct H as [<-|H]; [auto|].
      destruct a as [|c rest]; [contradiction|]. simpl in H. eauto.
    + cbn [flat_map whole] in H. destruct H as [<-|H]; [auto | eauto].
  - destruct a as [|c rest]; [contradiction|]. simpl in H. eauto.
Qed.

(** X5: the premises are the texts that the expression [premises] finds in
    the joined codes, each listed once; each is a non-empty run of word
    characters other than [0] and [1]. *)
Theorem premiseOrder_distinct (codes : list str) :
  NoDup (premiseOrder_of codes) /\
  (forall v, In v (premiseOrder_of codes) <-> In v (matchAll premises (join "," codes))) /\
  (forall v, In v (premiseOrder_of codes) -> v <> [] /\ forallb premise_char v = true).
Proof.
  unfold premiseOrder_of, unique.
  destruct (unique_from_spec (matchAll premises (join "," codes)) []) as [Hn Hi].
  split; [exact Hn|]. split.
  - intros v. rewrite Hi. simpl. tauto.
  - intros v Hv. apply Hi in Hv as [Hv _]. unfold matchAll, pieces in Hv.
    eapply matchAll_premise_chars, Hv.
Qed.

(** ** The shape of the table *)

Lemma length_substitute (premiseOrder : list str) (row : list value) (codes : list str) :
  length (substitute premiseOrder row codes) = length codes.
Proof.
  unfold substitute.
  apply (for_invariant _ (fun rowCodes => length rowCodes = length codes)); [reflexivity|].
  intros i x _ Hx. rewrite length_map. exact Hx.
Qed.

Lemma join_split (s : str) : join "," (split "," s) = s.
Proof.
  induction s as [|c s IH]; [reflexivity|].
  cbn [split]. destruct (Ascii.eqb_spec c ","%char) as [->|Hc].
  - destruct (split "," s) as [|p ps] eqn:E.
    + simpl in IH. subst s. discriminate E.
    + cbn [join]. cbn [join] in IH. rewrite IH. reflexivity.
  - destruct (split "," s) as [|p ps] eqn:E.
    + simpl in IH. subst s. discriminate E.
    + cbn [join] in *. destruct ps; [simpl; congruence|]. simpl. f_equal. exact IH.
Qed.

(** X6: when the row codes are fully substituted texts, a table that comes
    back is rectangular.  Its header holds the [N] premises and then the [M]
    statements as they were typed (joined with commas they give the input
    back); there are [2 ^ N] body rows when there is a premise and none
    otherwise; every body row has [N + M] cells. *)
Theorem table_shape (logic : str) (t : table) :
  forallb fully_substituted (rowCodes_of logic) = true ->
  calculateTruthTable logic = inr t ->
  let statements := split "," logic in
  let premiseOrder := premiseOrder_of (compile logic) in
  let N := length premiseOrder in
  let M := length statements in
  exists body,
    t = (map VStr premiseOrder ++ map VStr statements) :: body /\
    join "," statements = logic /\
    length body = (if N =? 0 then 0 else 2 ^ N) /\
    Forall (fun row => length row = N + M) body.
Proof.
  intros _ Ht statements premiseOrder N M.
  destruct (enumerate_total premiseOrder) as [assignments Hen].
  pose proof (eachRow_first_failure premiseOrder (compile logic) assignments) as H.
  unfold calculateTruthTable in Ht. fold statements in Ht.
  change (map parse statements) with (compile logic) in Ht. fold premiseOrder in Ht.
  rewrite Hen in Ht.
  destruct (find fails _) as [rc|].
  { destruct H as (err & _ & H). rewrite H in Ht. discriminate. }
  rewrite H in Ht. injection Ht as <-.
  eexists. split; [reflexivity|]. split; [apply join_split|]. split.
  - rewrite length_map.
    assert (Hl : length (enumerate premiseOrder) = length assignments)
      by (rewrite Hen, length_map; reflexivity).
    rewrite <- Hl. destruct (Nat.eqb_spec N 0) as [E|E].
    + apply length_zero_iff_nil in E. fold premiseOrder. rewrite E. reflexivity.
    + rewrite enumerate_closed_form by (fold N; lia).
      rewrite length_map, length_seq. reflexivity.
  - apply Forall_forall. intros row Hrow. apply in_map_iff in Hrow as (r & <- & Hr).
    rewrite length_app, length_map, length_substitute.
    assert (Hin : In (Some r) (enumerate premiseOrder)).
    { rewrite Hen. apply in_map. exact Hr. }
    destruct (enumerate_boolean_row _ _ Hin) as [_ Hlr].
    rewrite Hlr. unfold M, statements, compile. rewrite length_map. reflexivity.
Qed.

Lemma table_shape_witness :
  forallb fully_substituted (rowCodes_of "p and q") = true /\
  exists body,
    [ [VStr "p"; VStr "q"; VStr "p and q"]; [T; T; T]; [T; F; F]; [F; T; F]; [F; F; F] ] =
    (map VStr (premiseOrder_of (compile "p and q")) ++ map VStr (split "," "p and q")) :: body.
Proof.
  assert (Hl : forallb fully_substituted (rowCodes_of "p and q") = true)
    by (vm_compute; reflexivity).
  assert (Ht : calculateTruthTable "p and q" =
               inr [ [VStr "p"; VStr "q"; VStr "p and q"];
                     [T; T; T]; [T; F; F]; [F; T; F]; [F; F; F] ])
    by (vm_compute; reflexivity).
  split; [exact Hl|].
  pose proof (table_shape "p and q" _ Hl Ht) as H. cbv zeta in H.
  destruct H as (body & E & _). exists body. exact E.
Defined.

(** ** What substitution replaces *)

(** X7: the substitution of a premise replaces the maximal runs of word
    characters that spell the premise, whatever the case of their letters,
    and nothing else: not a part of a longer word, and no other word. *)
Theorem substitution_replaces_whole_words (premise t s : str) :
  premise <> [] ->
  forallb is_word premise = true ->
  replaceAll (wholeWord premise) t s =
  map_words (fun w => if same_letters premise w then t else w) s.
Proof.
  intros Hne Hw. apply replaceAll_wholeWord; assumption.
Qed.

Lemma substitution_replaces_whole_words_witness :
  replaceAll (wholeWord "p") "true" "p && P1 || (pq == P)" =
  map_words (fun w => if same_letters "p" w then "true" : str else w) "p && P1 || (pq == P)".
Proof.
  apply (substitution_replaces_whole_words "p" "true" "p && P1 || (pq == P)").
  - discriminate.
  - reflexivity.
Defined.

(** The text of a boolean. *)
Definition boolean_text (w : str) : Prop := w = "true" \/ w = "false".

Lemma substitute_word_result (premiseOrder : list str) (row : list value) (n : nat) (w : str) :
  boolean_row (length premiseOrder) row ->
  n <= length premiseOrder ->
  boolean_text (for_ n (substitute_word premiseOrder row) w) \/
  (for_ n (substitute_word premiseOrder row) w = w /\
   forall j, j < n -> same_letters (nth j premiseOrder []) w = false).
Proof.
  intros Hrow. induction n as [|n IH]; intros Hn.
  - right. split; [reflexivity|]. intros j Hj. lia.
  - rewrite for_S. specialize (IH ltac:(lia)).
    remember (for_ n (substitute_word premiseOrder row) w) as x eqn:Hx.
    unfold substitute_word.
    destruct (Hrow n) as [b Hb]; [lia|]. rewrite Hb.
    destruct (same_letters (nth n premiseOrder []) x) eqn:E.
    + left. destruct b; [left | right]; reflexivity.
    + destruct IH as [IH|[IH1 IH2]]; [left; exact IH |].
      right. split; [exact IH1|]. intros j Hj.
      destruct (Nat.eq_dec j n) as [->|Hne]; [rewrite IH1 in E; exact E | apply IH2; lia].
Qed.

(** X8: in the codes of a row every word has become [true] or [false], or is
    a word that spells no premise and is left as it was: once a row is
    substituted, no occurrence of a premise is left to be read as an
    identifier. *)
Theorem substitute_leaves_no_premise (logic : str) (row : list value) :
  let codes := compile logic in
  let premiseOrder := premiseOrder_of codes in
  In (Some row) (enumerate premiseOrder) ->
  exists G : str -> str,
    substitute premiseOrder row codes = map (map_words G) codes /\
    forall w, boolean_text (G w) \/
              (G w = w /\ forall v, In v premiseOrder -> same_letters v w = false).
Proof.
  intros codes premiseOrder Hrow.
  destruct (enumerate_boolean_row _ _ Hrow) as [Hb _].
  exists (fun w => for_ (length premiseOrder) (substitute_word premiseOrder row) w).
  split.
  - apply substitute_by_words; [|exact Hb]. apply premiseOrder_wordlike.
  - intros w.
    destruct (substitute_word_result premiseOrder row (length premiseOrder) w Hb (le_n _))
      as [H|[H1 H2]]; [left; exact H|].
    right. split; [exact H1|]. intros v Hv.
    destruct (In_nth _ _ [] Hv) as (j & Hj & <-). apply H2. exact Hj.
Qed.

Lemma substitute_leaves_no_premise_witness :
  exists G : str -> str,
    substitute (premiseOrder_of (compile "p or q1")) [F; T] (compile "p or q1") =
    map (map_words G) (compile "p or q1").
Proof.
  assert (Hrow : In (Some [F; T]) (enumerate (premiseOrder_of (compile "p or q1")))).
  { vm_compute. right. right. left. reflexivity. }
  pose proof (substitute_leaves_no_premise "p or q1" [F; T]) as H. cbv zeta in H.
  destruct (H Hrow) as (G & E & _). exists G. exact E.
Defined.

(** ** The Pretty Printer *)

Lemma replaceAllChar_In (a : ascii) (t s : str) (c : ascii) :
  In c (replaceAllChar a t s) -> In c t \/ (In c s /\ c <> a).
Proof.
  unfold replaceAllChar. intros H. apply in_flat_map in H as (x & Hx & Hc).
  destruct (Ascii.eqb_spec x a) as [->|Hne].
  - left. exact Hc.
  - right. destruct Hc as [<-|[]]. auto.
Qed.

(** X10: the text that [prettyPrint] returns holds no parenthesis: each one
    of its argument is replaced by its entity. *)
Theorem prettyPrint_has_no_parenthesis (string : str) (c : ascii) :
  In c (prettyPrint string) -> c <> "("%char /\ c <> ")"%char.
Proof.
  unfold prettyPrint. intros H.
  apply replaceAllChar_In in H as [H|[H Hc]].
  - vm_compute in H. intuition (subst; discriminate).
  - apply replaceAllChar_In in H as [H|[H Ho]].
    + vm_compute in H. intuition (subst; discriminate).
    + auto.
Qed.

Lemma prettyPrint_has_no_parenthesis_witness :
  "&"%char <> "("%char /\ "&"%char <> ")"%char.
Proof.
  apply (prettyPrint_has_no_parenthesis "(p)" "&"%char).
  vm_compute. left. reflexivity.
Defined.

(** ** Tables of the connectives *)

Inductive connective : Type := Conjunction | Disjunction | Implication | Biconditional | ExclusiveOr.

Definition meaning (c : connective) (a b : bool) : bool :=
  match c with
  | Conjunction => a && b
  | Disjunction => a || b
  | Implication => negb a || b
  | Biconditional => Bool.eqb a b
  | ExclusiveOr => xorb a b
  end.

(** The spellings that the translator takes between two operands. *)
Definition spellings_between : list (str * connective) :=
  [ ("and" : str, Conjunction); ("&" : str, Conjunction); ("/\" : str, Conjunction);
    ("^" : str, Conjunction);
    ("or" : str, Disjunction); ("|" : str, Disjunction); ("\/" : str, Disjunction);
    ("then" : str, Implication); ("->" : str, Implication); ("-->" : str, Implication);
    ("<->" : str, Biconditional); ("<-->" : str, Biconditional); ("=" : str, Biconditional);
    ("xor" : str, ExclusiveOr); ("(+)" : str, ExclusiveOr) ].

(** The value that [eval] gives: [^] gives a number, the others a boolean. *)
Definition result_cell (c : connective) (a b : bool) : value :=
  match c with
  | ExclusiveOr => VNum (if xorb a b then 1 else 0)
  | _ => VBool (meaning c a b)
  end.

Definition lower_case_letters : list ascii := map ascii_of_nat (seq 97 26).

Lemma is_lower_In (c : ascii) : is_lower c = true -> In c lower_case_letters.
Proof.
  destruct c as [[] [] [] [] [] [] [] []]; intros H; try discriminate H;
    vm_compute; tauto.
Qed.

(** [p o q] *)
Definition statement_of (p : ascii) (o : str) (q : ascii) : str := [p] ++ " " ++ o ++ " " ++ [q].

Definition table_of (p q : ascii) (logic : str) (c : connective) : table :=
  [VStr [p]; VStr [q]; VStr logic]
  :: map (fun ab : bool * bool => [VBool (fst ab); VBool (snd ab); result_cell c (fst ab) (snd ab)])
       [(true, true); (true, false); (false, true); (false, false)].

Definition value_eq_dec (x y : value) : {x = y} + {x <> y}.
Proof.
  decide equality.
  - apply Bool.bool_dec.
  - apply Z.eq_dec.
  - apply (list_eq_dec ascii_dec).
Defined.

Definition table_eqb (t t' : table) : bool :=
  if list_eq_dec (list_eq_dec value_eq_dec) t t' then true else false.

(** What [parse] makes of [p o q]. *)
Definition compiled (c : connective) (p q : ascii) : str :=
  match c with
  | Conjunction => statement_of p "&&" q
  | Disjunction => statement_of p "||" q
  | Implication => "!(" ++ [p] ++ ") || (" ++ [q] ++ ")"
  | Biconditional => statement_of p "==" q
  | ExclusiveOr => statement_of p "^" q
  end.

(** ** Repeated negation *)

(** Where an expression matches nowhere, nothing is replaced. *)
Lemma pieces_no_match (re : RegExp) (P : str -> Prop) :
  (forall b a, P a -> exec_at re b a = None) ->
  (forall c a, P (c :: a) -> P a) ->
  forall n b a, length a < n -> P a -> pieces_from re n b a = map inl a.
Proof.
  intros Hnone Htail. induction n as [|n IH]; intros b a Hn Ha; [lia|].
  cbn [pieces_from]. rewrite (Hnone b a Ha).
  destruct a as [|c a]; [reflexivity|].
  cbn [map]. f_equal. apply IH; [simpl in Hn; lia | eapply Htail, Ha].
Qed.

Lemma flat_map_inl (f : matched -> str) (a : str) :
  flat_map (fun p : ascii + matched => match p with inl c => [c] | inr m => f m end)
    (map inl a) = a.
Proof. induction a as [|c a IH]; [reflexivity|]. simpl. f_equal. exact IH. Qed.

Lemma replaceAllWith_no_match (re : RegExp) (P : str -> Prop) (f : matched -> str) (s : str) :
  (forall b a, P a -> exec_at re b a = None) ->
  (forall c a, P (c :: a) -> P a) ->
  P s -> replaceAllWith re f s = s.
Proof.
  intros Hnone Htail Hs. unfold replaceAllWith, pieces.
  rewrite (pieces_no_match re P Hnone Htail) by (auto; lia). apply flat_map_inl.
Qed.

(** A text without [-], and with no [h] but at its end, holds no implication
    marker. *)
Fixpoint no_marker (s : str) : bool :=
  match s with
  | [] => true
  | c :: s' =>
      negb (Ascii.eqb c "-")
      && (negb (Ascii.eqb c "h") || match s' with [] => true | _ => false end)
      && no_marker s'
  end.

Lemma no_marker_tail (c : ascii) (a : str) : no_marker (c :: a) = true -> no_marker a = true.
Proof. cbn [no_marker]. intros H. apply andb_prop in H as [_ H]. exact H. Qed.

Lemma no_marker_head (c : ascii) (a : str) :
  no_marker (c :: a) = true -> Ascii.eqb c "-" = false.
Proof.
  cbn [no_marker]. intros H. apply andb_prop in H as [H _]. apply andb_prop in H as [H _].
  apply negb_true_iff in H. exact H.
Qed.

Lemma marker_fails (A : Type) (b a : str) (cs : captures) (k : zipper -> captures -> option A) :
  no_marker a = true ->
  Matcher.rmatch false true (alts [Txt "then"; arrow]) (b, a) cs k = None.
Proof.
  intros Ha. cbn [alts Matcher.rmatch list_ascii_of_string Matcher.text].
  assert (Hthen : Matcher.one true (Matcher.same_char false "t") (b, a)
            (fun z' => Matcher.one true (Matcher.same_char false "h") z'
               (fun z'0 => Matcher.one true (Matcher.same_char false "e") z'0
                  (fun z'1 => Matcher.one true (Matcher.same_char false "n") z'1
                     (fun z'2 => k z'2 cs)))) = None).
  { unfold Matcher.one. destruct a as [|c a]; [reflexivity|]. cbn [Matcher.advance].
    destruct (Matcher.same_char false "t" c); [|reflexivity].
    destruct a as [|c' a]; [reflexivity|]. cbn [Matcher.advance].
    destruct (Matcher.same_char false "h" c') eqn:E; [|reflexivity].
    destruct a as [|c'' a]; [reflexivity|]. exfalso.
    unfold Matcher.same_char in E. apply Ascii.eqb_eq in E. subst c'.
    apply no_marker_tail in Ha. cbn [no_marker] in Ha.
    apply andb_prop in Ha as [Ha _]. apply andb_prop in Ha as [_ Ha].
    discriminate Ha. }
  rewrite Hthen.
  unfold arrow. cbn [seqs Matcher.rmatch].
  destruct (Matcher.one false _ (b, a) _); [reflexivity|].
  unfold Matcher.one. destruct a as [|c a]; [reflexivity|]. cbn [Matcher.advance].
  apply no_marker_head in Ha. unfold Matcher.same_char.
  rewrite Ascii.eqb_sym, Ha. reflexivity.
Qed.

Lemma more_lazy_fails (A : Type) (p : ascii -> bool) (k : zipper -> captures -> option A)
    (n : nat) (b a : str) (cs : captures) :
  (forall b' a' cs', no_marker a' = true -> k (b', a') cs' = None) ->
  no_marker a = true ->
  Matcher.more_lazy (fun z cs k => Matcher.one true p z (fun z' => k z' cs)) true k n (b, a) cs
  = None.
Proof.
  intros Hk. revert b a. induction n as [|n IH]; intros b a Ha.
  - apply Hk, Ha.
  - cbn [Matcher.more_lazy]. rewrite (Hk b a cs Ha).
    destruct a as [|c a]; [reflexivity|].
    unfold Matcher.one at 1. cbn [Matcher.advance].
    destruct (p c); [|reflexivity]. cbv beta.
    match goal with
    | |- context [Matcher.progress ?f ?z ?z'] => destruct (Matcher.progress f z z')
    end; [|reflexivity].
    apply IH. eapply no_marker_tail, Ha.
Qed.

Lemma thenWrap_fails (b a : str) : no_marker a = true -> exec_at thenWrap b a = None.
Proof.
  intros Ha. unfold exec_at, Matcher.exec, thenWrap.
  cbn [pattern ignoreCase global seqs Matcher.rmatch].
  unfold Matcher.one at 1. destruct a as [|c a]; [reflexivity|]. cbn [Matcher.advance].
  destruct (negb (is_line_terminator c)); [|reflexivity].
  apply no_marker_tail in Ha.
  unfold Matcher.one at 1. destruct a as [|c' a]; [reflexivity|]. cbn [Matcher.advance].
  destruct (negb (Ascii.eqb c' "-")); [|reflexivity].
  apply more_lazy_fails; [|eapply no_marker_tail, Ha].
  intros b' a' cs' Ha'. apply (marker_fails _ b' a' _ _ Ha').
Qed.

Lemma thenWrap_no_marker (s : str) :
  no_marker s = true -> replaceAllWith thenWrap wrapThen s = s.
Proof.
  intros Hs.
  apply (replaceAllWith_no_match thenWrap (fun a => no_marker a = true)).
  - exact thenWrap_fails.
  - exact no_marker_tail.
  - exact Hs.
Qed.

Lemma replaceParanthesis_plain (s : str) (callback : str -> str) :
  plain s = true -> replaceParanthesis s callback = s.
Proof.
  intros Hs. unfold replaceParanthesis.
  pose proof (replaceParanthesis_loop_groups callback [] I [] s (-1) (length s) Hs) as H.
  cbn [spread app] in H. rewrite !app_nil_r in H. cbn [length] in H.
  apply H; lia.
Qed.

(** The spellings of the negation. *)
Definition negations : list str := ["not " : str; "not" : str; "!" : str; not_sign : str].

Definition negation_group : regex :=
  Grp 1 (alts [Txt "not "; Txt "not"; Chr "!"; Txt not_sign]).

Definition not_space (s : str) : Prop :=
  match s with c :: _ => c <> " "%char | [] => True end.

Lemma first_success (A : Type) (x y : option A) (v : A) :
  x = Some v -> match x with Some a => Some a | None => y end = Some v.
Proof. intros ->. reflexivity. Qed.

Lemma negation_group_token (t rest b : str) (cs : captures) (zf : zipper)
    (K : zipper -> captures -> option (zipper * captures)) :
  In t negations -> not_space rest ->
  (forall cs1, exists cs', K (rev t ++ b, rest) cs1 = Some (zf, cs')) ->
  exists cs', Matcher.rmatch false true negation_group (b, t ++ rest) cs K = Some (zf, cs').
Proof.
  intros Ht Hrest HK. unfold negation_group.
  destruct Ht as [<-|[<-|[<-|[<-|[]]]]].
  - cbn in *.
    match goal with |- context [K ?z ?c] => destruct (HK c) as [cs' E] end.
    exists cs'. apply first_success. exact E.
  - destruct rest as [|c rest].
    + cbn in *.
      match goal with |- context [K ?z ?c] => destruct (HK c) as [cs' E] end.
      exists cs'. apply first_success. exact E.
    + cbn [not_space] in Hrest. apply Ascii.eqb_neq in Hrest. rewrite Ascii.eqb_sym in Hrest.
      cbn [alts Matcher.rmatch list_ascii_of_string Matcher.text app rev] in *.
      unfold Matcher.one. cbn [Matcher.advance Matcher.same_char].
      rewrite Hrest. cbn.
      match goal with |- context [K ?z ?c] => destruct (HK c) as [cs' E] end.
      exists cs'. apply first_success. exact E.
  - cbn in *.
    match goal with |- context [K ?z ?c] => destruct (HK c) as [cs' E] end.
    exists cs'. apply first_success. exact E.
  - cbn in *.
    match goal with |- context [K ?z ?c] => destruct (HK c) as [cs' E] end.
    exists cs'. exact E.
Qed.

Lemma negation_group_fails (p : ascii) (b : str) (cs : captures)
    (K : zipper -> captures -> option (zipper * captures)) :
  is_lower p = true ->
  Matcher.rmatch false true negation_group (b, [p]) cs K = None.
Proof.
  intros Hp. unfold negation_group.
  cbn [alts Matcher.rmatch list_ascii_of_string Matcher.text not_sign].
  unfold Matcher.one. cbn [Matcher.advance Matcher.same_char].
  destruct (Ascii.eqb "!" p) eqn:E.
  - apply Ascii.eqb_eq in E. subst p. discriminate Hp.
  - destruct (Ascii.eqb "n" p), (Ascii.eqb (ascii_of_nat 194) p); reflexivity.
Qed.

Lemma negation_group_end (b : str) (cs : captures)
    (K : zipper -> captures -> option (zipper * captures)) :
  Matcher.rmatch false true negation_group (b, []) cs K = None.
Proof. reflexivity. Qed.

Definition negating (ns : list str) : Prop := Forall (fun t => In t negations) ns.

Lemma not_space_negations (ns : list str) (p : ascii) :
  negating ns -> is_lower p = true -> not_space (concat ns ++ [p]).
Proof.
  intros Hns Hp. destruct Hns as [|t ns Ht _].
  - cbn. intros ->. discriminate Hp.
  - destruct Ht as [<-|[<-|[<-|[<-|[]]]]]; cbn; discriminate.
Qed.

Lemma more_greedy_negations (p : ascii) (ns : list str) :
  is_lower p = true -> negating ns ->
  forall (n : nat) (b : str) (cs : captures),
  length (concat ns ++ [p]) <= n ->
  exists cs',
    Matcher.more_greedy (fun z cs k => Matcher.rmatch false true negation_group z cs k) true
      (fun z' cs => Some (z', cs)) n (b, concat ns ++ [p]) cs
    = Some ((rev (concat ns) ++ b, [p]), cs').
Proof.
  intros Hp Hns. induction Hns as [|t ns Ht Hns IH]; intros n b cs Hn.
  - cbn [concat app rev]. destruct n as [|n]; [exists cs; reflexivity|].
    cbn [Matcher.more_greedy]. rewrite (negation_group_fails p b cs _ Hp).
    exists cs. reflexivity.
  - cbn [concat] in *. rewrite <- app_assoc, rev_app_distr, <- app_assoc.
    assert (Hlen : 1 <= length t).
    { destruct Ht as [<-|[<-|[<-|[<-|[]]]]]; cbn; lia. }
    rewrite <- app_assoc, length_app in Hn.
    destruct n as [|n]; [lia|].
    cbn [Matcher.more_greedy].
    destruct (negation_group_token t (concat ns ++ [p]) b cs
                (rev (concat ns) ++ rev t ++ b, [p])
                (fun z' cs' =>
                   if Matcher.progress true (b, t ++ concat ns ++ [p]) z'
                   then Matcher.more_greedy
                          (fun z cs k => Matcher.rmatch false true negation_group z cs k) true
                          (fun z' cs => Some (z', cs)) n z' cs'
                   else None) Ht (not_space_negations ns p Hns Hp)) as [cs' E].
    + intros cs1. cbv beta.
      match goal with
      | |- context [Matcher.progress ?f ?z ?z'] =>
          assert (Hprog : Matcher.progress f z z' = true)
      end.
      { unfold Matcher.progress, Matcher.ahead. cbn [snd].
        rewrite !length_app. apply negb_true_iff, Nat.eqb_neq. lia. }
      rewrite Hprog. apply IH. lia.
    + exists cs'. rewrite E. reflexivity.
Qed.

Lemma exec_not_at_start (s : str) :
  exec_at not [] s =
  Matcher.rmatch false true (Plus negation_group) ([], s) [] (fun z' cs => Some (z', cs)).
Proof. reflexivity. Qed.

Lemma exec_not_fails (b a : str) :
  (forall cs, Matcher.rmatch false true (Plus negation_group) (b, a) cs
                (fun z' cs => Some (z', cs)) = None) ->
  exec_at not b a = None.
Proof.
  intros H. unfold exec_at, Matcher.exec, not.
  cbn [pattern ignoreCase global seqs].
  change (Grp 1 (alts [Txt "not "; Txt "not"; Chr "!"; Txt not_sign])) with negation_group.
  cbn [Matcher.rmatch paren_before].
  match goal with |- match ?x with _ => _ end = _ => destruct x as [cs'|] end;
    [|reflexivity].
  apply (H cs').
Qed.

Lemma exec_not_negations (t : str) (ns : list str) (p : ascii) :
  is_lower p = true -> negating (t :: ns) ->
  exists cs, exec_at not [] (concat (t :: ns) ++ [p])
             = Some ((rev (concat (t :: ns)), [p]), cs).
Proof.
  intros Hp Hns. inversion Hns as [|t' ns' Ht Hns' E]; subst.
  rewrite exec_not_at_start. cbn [concat]. rewrite <- app_assoc, rev_app_distr.
  cbn [Matcher.rmatch].
  destruct (negation_group_token t (concat ns ++ [p]) [] [] (rev (concat ns) ++ rev t ++ [], [p])
              (fun z1 cs1 =>
                 Matcher.more_greedy
                   (fun z cs k => Matcher.rmatch false true negation_group z cs k) true
                   (fun z' cs => Some (z', cs)) (length (Matcher.ahead true z1)) z1 cs1)
              Ht (not_space_negations ns p Hns' Hp)) as [cs E].
  - intros cs1. cbv beta. apply more_greedy_negations; [exact Hp | exact Hns' |].
    unfold Matcher.ahead. cbn [snd]. lia.
  - exists cs. rewrite app_nil_r in E. exact E.
Qed.

Lemma pieces_not_single (p : ascii) (n : nat) (b : str) :
  is_lower p = true -> 1 <= n -> pieces_from not n b [p] = [inl p].
Proof.
  intros Hp Hn. destruct n as [|n]; [lia|]. cbn [pieces_from].
  rewrite exec_not_fails.
  - f_equal. destruct n as [|n]; [reflexivity|]. cbn [pieces_from].
    rewrite exec_not_fails; [reflexivity|].
    intros cs. cbn [Matcher.rmatch]. apply negation_group_end.
  - intros cs. cbn [Matcher.rmatch]. apply negation_group_fails. exact Hp.
Qed.

Lemma replaceAll_not_negations (ns : list str) (p : ascii) :
  ns <> [] -> negating ns -> is_lower p = true ->
  replaceAll not "!" (concat ns ++ [p]) = "!" ++ [p].
Proof.
  intros Hne Hns Hp. destruct ns as [|t ns]; [contradiction|].
  destruct (exec_not_negations t ns p Hp Hns) as [cs E].
  assert (Hlen : 2 <= length (concat (t :: ns) ++ [p])).
  { inversion Hns as [|t' ns' Ht Hns' E']; subst. cbn [concat].
    rewrite !length_app. cbn [length].
    destruct Ht as [<-|[<-|[<-|[<-|[]]]]]; cbn; lia. }
  unfold replaceAll, replaceAllWith, pieces. cbn [pieces_from]. rewrite E.
  destruct (Nat.eqb_spec (length [p]) (length (concat (t :: ns) ++ [p]))) as [Heq|_].
  - cbn [length] in Heq. lia.
  - cbn [flat_map]. rewrite pieces_not_single; [reflexivity | exact Hp | lia].
Qed.

(** No parenthesis, no implication marker, no comma. *)
Definition clean (s : str) : bool :=
  plain s && no_marker s && forallb (fun c => negb (Ascii.eqb c ",")) s.

Lemma clean_negations (ns : list str) (p : ascii) :
  negating ns -> is_lower p = true -> clean (concat ns ++ [p]) = true.
Proof.
  intros Hns Hp. induction Hns as [|t ns Ht Hns IH].
  - apply is_lower_In in Hp. cbn in Hp.
    repeat (destruct Hp as [<-|Hp]; [reflexivity|]). contradiction.
  - cbn [concat]. rewrite <- app_assoc.
    destruct Ht as [<-|[<-|[<-|[<-|[]]]]]; exact IH.
Qed.

Lemma split_no_separator (sep : ascii) (s : str) :
  forallb (fun c => negb (Ascii.eqb c sep)) s = true -> split sep s = [s].
Proof.
  induction s as [|c s IH]; intros H; [reflexivity|].
  cbn [forallb] in H. apply andb_prop in H as [Hc Hs]. apply negb_true_iff in Hc.
  cbn [split]. rewrite Hc, (IH Hs). reflexivity.
Qed.

Lemma negation_check_all :
  forallb (fun p =>
    str_eqb
      (replaceAll false_ "0"
        (replaceAll true_ "1"
          (replaceAll xor "^"
            (replaceAll equals "=="
              (replaceAll or "||"
                (replaceAll and "&&" ("!"%char :: [p])))))))
      ("!"%char :: [p])
    && (if list_eq_dec (list_eq_dec ascii_dec) (premiseOrder_of [("!"%char :: [p])]) [[p]]
        then true else false)
    && match eachRow [[p]] [("!"%char :: [p])] (enumerate [[p]]) with
       | inr body => table_eqb body [[T; F]; [F; T]]
       | inl _ => false
       end) lower_case_letters = true.
Proof. vm_cast_no_check (@eq_refl bool true). Qed.

(** X12: however many times the negation is written in front of a premise,
    in whatever spellings, it is compiled to one negation: [not not p] is
    [!p], and its table is the table of [not p]. *)
Theorem repeated_negation_is_one_negation (ns : list str) (p : ascii) :
  ns <> [] -> negating ns -> is_lower p = true ->
  parse (concat ns ++ [p]) = "!" ++ [p] /\
  calculateTruthTable (concat ns ++ [p]) =
  inr [[VStr [p]; VStr (concat ns ++ [p])]; [T; F]; [F; T]].
Proof.
  intros Hne Hns Hp.
  pose proof (clean_negations ns p Hns Hp) as Hclean. unfold clean in Hclean.
  apply andb_prop in Hclean as [Hclean Hcomma]. apply andb_prop in Hclean as [Hplain Hmark].
  pose proof negation_check_all as H. rewrite forallb_forall in H.
  specialize (H p (is_lower_In p Hp)). cbv beta in H.
  apply andb_prop in H as [H Hrows]. apply andb_prop in H as [Htr Hpo].
  apply str_eqb_eq in Htr.
  destruct (list_eq_dec (list_eq_dec ascii_dec) (premiseOrder_of [("!"%char :: [p])]) [[p]])
    as [Hpo'|]; [clear Hpo | discriminate Hpo].
  assert (Hparse : parse (concat ns ++ [p]) = "!" ++ [p]).
  { unfold parse. cbn [parse_depth].
    rewrite (replaceParanthesis_plain _ _ Hplain), (thenWrap_no_marker _ Hmark).
    unfold translate. rewrite (replaceAll_not_negations ns p Hne Hns Hp). exact Htr. }
  split; [exact Hparse|].
  unfold calculateTruthTable. cbv zeta.
  rewrite (split_no_separator _ _ Hcomma). cbn [map]. rewrite Hparse.
  change ("!" ++ [p]) with ("!"%char :: [p]).
  match goal with
  | |- context [premiseOrder_of ?c] =>
      replace (premiseOrder_of c) with [[p]] by (symmetry; exact Hpo')
  end.
  match goal with
  | |- context [eachRow ?po ?c ?r] =>
      change (eachRow po c r) with (eachRow [[p]] ["!"%char :: [p]] (enumerate [[p]]))
  end.
  destruct (eachRow [[p]] ["!"%char :: [p]] (enumerate [[p]])) as [e|body];
    [discriminate Hrows|].
  unfold table_eqb in Hrows.
  destruct (list_eq_dec (list_eq_dec value_eq_dec) body [[T; F]; [F; T]]) as [->|];
    [reflexivity | discriminate Hrows].
Qed.

Lemma repeated_negation_is_one_negation_witness :
  parse (concat ["not " : str; "not " : str] ++ ["p"%char]) = "!" ++ ["p"%char].
Proof.
  assert (Hne : ["not " : str; "not " : str] <> []) by discriminate.
  assert (Hns : negating ["not " : str; "not " : str]).
  { repeat constructor. }
  assert (Hp : is_lower "p" = true) by reflexivity.
  pose proof (repeated_negation_is_one_negation ["not " : str; "not " : str] "p" Hne Hns Hp) as H.
  destruct H as [H _]. exact H.
Defined.

(** ** [prettyPrint] applied twice *)

(** *** Replacement as a scan *)

(** The last character read, [p] when nothing was read. *)
Fixpoint lastc (w : str) (p : option ascii) : option ascii :=
  match w with
  | [] => p
  | c :: w' => lastc w' (Some c)
  end.

Lemma hd_error_rev_app (w b : str) : hd_error (rev w ++ b) = lastc w (hd_error b).
Proof.
  revert b. induction w as [|c w IH]; intros b; [reflexivity|].
  cbn [rev lastc]. rewrite <- app_assoc. cbn [app]. rewrite IH. reflexivity.
Qed.

Lemma lastc_app (w v : str) (p : option ascii) : lastc (w ++ v) p = lastc v (lastc w p).
Proof. revert p. induction w as [|c w IH]; intros p; [reflexivity|]. cbn. apply IH. Qed.

Section Scan.

(** [span p a]: the length of the match that starts in front of [a], after
    the character [p]. *)
Variable span : option ascii -> str -> option nat.

(** The replacement text. *)
Variable e : str.

(** [s.replaceAll(re, e)] read from left to right; [skip] counts the
    characters of the current match that are still to pass. *)
Fixpoint scan_replace (skip : nat) (p : option ascii) (a : str) : str :=
  match a with
  | [] => []
  | c :: a' =>
      match skip with
      | S k => scan_replace k (Some c) a'
      | 0 =>
          match span p a with
          | Some (S k) => e ++ scan_replace k (Some c) a'
          | _ => c :: scan_replace 0 (Some c) a'
          end
      end
  end.

Lemma scan_replace_skip (k : nat) (p : option ascii) (a : str) :
  k <= length a ->
  scan_replace k p a = scan_replace 0 (lastc (firstn k a) p) (skipn k a).
Proof.
  revert p a. induction k as [|k IH]; intros p a H; [reflexivity|].
  destruct a as [|c a]; [simpl in H; lia|].
  cbn [scan_replace firstn skipn lastc]. apply IH. simpl in H. lia.
Qed.

Lemma scan_replace_keep (p : option ascii) (c : ascii) (a : str) :
  span p (c :: a) = None ->
  scan_replace 0 p (c :: a) = c :: scan_replace 0 (Some c) a.
Proof. intros H. cbn [scan_replace]. rewrite H. reflexivity. Qed.

Hypothesis span_pos : forall p a n, span p a = Some n -> 1 <= n <= length a.

Lemma scan_replace_match (p : option ascii) (a : str) (n : nat) :
  span p a = Some n ->
  scan_replace 0 p a = e ++ scan_replace 0 (lastc (firstn n a) p) (skipn n a).
Proof.
  intros H. destruct (span_pos _ _ _ H) as [H1 H2].
  destruct a as [|c a]; [simpl in H2; lia|].
  destruct n as [|k]; [lia|].
  cbn [scan_replace]. rewrite H. f_equal.
  rewrite scan_replace_skip by (simpl in H2; lia). reflexivity.
Qed.

Variable re : RegExp.

Hypothesis span_exec : forall b a,
  option_map fst (exec_at re b a) =
  option_map (fun n => (rev (firstn n a) ++ b, skipn n a)) (span (hd_error b) a).

Lemma pieces_scan (fuel : nat) : forall b a,
  length a < fuel ->
  flat_map (fun x : ascii + matched => match x with inl c => [c] | inr _ => e end)
    (pieces_from re fuel b a) =
  scan_replace 0 (hd_error b) a.
Proof.
  induction fuel as [|fuel IH]; intros b a Hfuel; [lia|].
  cbn [pieces_from]. pose proof (span_exec b a) as Hex.
  destruct (span (hd_error b) a) as [n|] eqn:Hspan.
  - destruct (exec_at re b a) as [[[b' a'] cs]|]; [|discriminate Hex].
    cbn [option_map fst] in Hex. injection Hex as -> ->.
    destruct (span_pos _ _ _ Hspan) as [H1 H2].
    assert (Hlen : length (skipn n a) = length a - n) by apply length_skipn.
    destruct (Nat.eqb_spec (length (skipn n a)) (length a)) as [Heq|_]; [lia|].
    cbn [flat_map]. rewrite IH by lia.
    rewrite (scan_replace_match _ _ _ Hspan), hd_error_rev_app. reflexivity.
  - destruct (exec_at re b a) as [[[b' a'] cs]|]; [discriminate Hex|].
    destruct a as [|c a]; [reflexivity|].
    cbn [flat_map app]. rewrite IH by (simpl in Hfuel; lia).
    rewrite (scan_replace_keep _ _ _ Hspan). reflexivity.
Qed.

Lemma replaceAll_scan (s : str) : replaceAll re e s = scan_replace 0 None s.
Proof.
  unfold replaceAll, replaceAllWith, pieces.
  exact (pieces_scan (S (length s)) [] s (Nat.lt_succ_diag_r _)).
Qed.

End Scan.

(** *** The expressions of [prettyPrint] as machines *)

(** The replacements of [prettyPrint], in the order of the source. *)
Inductive pass : Type := PAnd | POr | PNot | PThen | PXor | PEquals | PLpar | PRpar.

Definition passes : list pass := [PAnd; POr; PNot; PThen; PXor; PEquals; PLpar; PRpar].

Definition entity (j : pass) : str :=
  match j with
  | PAnd => "&and;"
  | POr => "&or;"
  | PNot => "&sim;"
  | PThen => "&rarr;"
  | PXor => "&oplus;"
  | PEquals => "&equiv;"
  | PLpar => "&lpar;"
  | PRpar => "&rpar;"
  end.

(** Where the reading of one alternative of an expression stands. *)
Inductive tstate : Type :=
| Start | ThenOnly
| A_a | A_an | A_slash
| O_o | O_backslash
| N_n | N_no | N_sign
| T_t | T_th | T_the | T_dash
| X_paren | X_plus | X_x | X_xo
| E_less | E_dash.

Inductive verdict : Type := Refuse | Continue (q : tstate) | Complete.

Definition expect (x c : ascii) (v : verdict) : verdict :=
  if Ascii.eqb x c then v else Refuse.

(** One character of an alternative. *)
Definition tstep (r : pass) (q : tstate) (c : ascii) : verdict :=
  match r, q with
  | PAnd, Start =>
      if Ascii.eqb "a" c then Continue A_a
      else if Ascii.eqb "&" c then Complete
      else if Ascii.eqb "/" c then Continue A_slash
      else if Ascii.eqb "^" c then Complete
      else Refuse
  | PAnd, A_a => expect "n" c (Continue A_an)
  | PAnd, A_an => expect "d" c Complete
  | PAnd, A_slash => expect "\" c Complete
  | POr, Start =>
      if Ascii.eqb "o" c then Continue O_o
      else if Ascii.eqb "|" c then Complete
      else if Ascii.eqb "\" c then Continue O_backslash
      else Refuse
  | POr, O_o => expect "r" c Complete
  | POr, O_backslash => expect "/" c Complete
  | PNot, Start =>
      if Ascii.eqb "n" c then Continue N_n
      else if Ascii.eqb "!" c then Complete
      else if Ascii.eqb (ascii_of_nat 194) c then Continue N_sign
      else Refuse
  | PNot, N_n => expect "o" c (Continue N_no)
  | PNot, N_no => expect "t" c Complete
  | PNot, N_sign => expect (ascii_of_nat 172) c Complete
  | PThen, Start =>
      if Ascii.eqb "t" c then Continue T_t
      else if Ascii.eqb "-" c then Continue T_dash
      else Refuse
  | PThen, ThenOnly => expect "t" c (Continue T_t)
  | PThen, T_t => expect "h" c (Continue T_th)
  | PThen, T_th => expect "e" c (Continue T_the)
  | PThen, T_the => expect "n" c Complete
  | PThen, T_dash =>
      if Ascii.eqb "-" c then Continue T_dash
      else if Ascii.eqb ">" c then Complete
      else Refuse
  | PXor, Start =>
      if Ascii.eqb "(" c then Continue X_paren
      else if Ascii.eqb "x" c then Continue X_x
      else Refuse
  | PXor, X_paren => expect "+" c (Continue X_plus)
  | PXor, X_plus => expect ")" c Complete
  | PXor, X_x => expect "o" c (Continue X_xo)
  | PXor, X_xo => expect "r" c Complete
  | PEquals, Start =>
      if Ascii.eqb "<" c then Continue E_less
      else if Ascii.eqb "=" c then Complete
      else Refuse
  | PEquals, E_less => expect "-" c (Continue E_dash)
  | PEquals, E_dash =>
      if Ascii.eqb "-" c then Continue E_dash
      else if Ascii.eqb ">" c then Complete
      else Refuse
  | PLpar, Start => expect "(" c Complete
  | PRpar, Start => expect ")" c Complete
  | _, _ => Refuse
  end.

(** The expressions that end with [(?= |$)]: a run of alternatives, then a
    space or the end. *)
Definition bounded (r : pass) : bool :=
  match r with
  | PAnd | POr | PXor | PEquals => true
  | _ => false
  end.

(** What the look-behind of an expression leaves to read. *)
Definition start (r : pass) (p : option ascii) : option tstate :=
  match r with
  | PAnd | POr | PXor | PEquals =>
      match p with
      | None => Some Start
      | Some c => if Ascii.eqb " " c then Some Start else None
      end
  | PNot =>
      match p with
      | None => Some Start
      | Some c =>
          if Ascii.eqb " " c || Ascii.eqb "(" c || Ascii.eqb ")" c then Some Start else None
      end
  | PThen =>
      match p with
      | None => Some Start
      | Some c => if Ascii.eqb "<" c then Some ThenOnly else Some Start
      end
  | PLpar | PRpar => Some Start
  end.

Inductive mstate : Type := Inside (q : tstate) | Boundary.

(** Whether the expression matches from the state [m] on. *)
Fixpoint accepts (r : pass) (m : mstate) (t : str) : bool :=
  match t with
  | [] => match m with Boundary => true | Inside _ => false end
  | c :: t' =>
      let token (q : tstate) :=
        match tstep r q c with
        | Refuse => false
        | Continue q' => accepts r (Inside q') t'
        | Complete => if bounded r then accepts r Boundary t' else true
        end in
      match m with
      | Boundary => if Ascii.eqb " " c then true else token Start
      | Inside q => token q
      end
  end.

(** The length of the match from the state [m] on. *)
Fixpoint runlen (r : pass) (m : mstate) (t : str) : option nat :=
  match t with
  | [] => match m with Boundary => Some 0 | Inside _ => None end
  | c :: t' =>
      let token (q : tstate) :=
        match tstep r q c with
        | Refuse => None
        | Continue q' => option_map S (runlen r (Inside q') t')
        | Complete => if bounded r then option_map S (runlen r Boundary t') else Some 1
        end in
      match m with
      | Boundary => if Ascii.eqb " " c then Some 0 else token Start
      | Inside q => token q
      end
  end.

Definition hit (r : pass) (p : option ascii) (t : str) : bool :=
  match start r p with
  | Some q => accepts r (Inside q) t
  | None => false
  end.

Definition hit_span (r : pass) (p : option ascii) (t : str) : option nat :=
  match start r p with
  | Some q => runlen r (Inside q) t
  | None => None
  end.

(** No match anywhere in [t], which stands after [p]. *)
Fixpoint nohit (r : pass) (p : option ascii) (t : str) : bool :=
  negb (hit r p t) &&
  match t with
  | [] => true
  | c :: t' => nohit r (Some c) t'
  end.

(** No match from the second character of [e] on, in [e ++ x]. *)
Fixpoint nohit_in (r : pass) (p : option ascii) (e x : str) : bool :=
  match e with
  | [] => true
  | c :: e' => negb (hit r p (c :: e' ++ x)) && nohit_in r (Some c) e' x
  end.

Lemma accepts_runlen (r : pass) (t : str) :
  forall m, accepts r m t = match runlen r m t with Some _ => true | None => false end.
Proof.
  induction t as [|c t IH]; intros m.
  - destruct m; reflexivity.
  - cbn [accepts runlen].
    assert (Htoken : forall q,
      match tstep r q c with
      | Refuse => false
      | Continue q' => accepts r (Inside q') t
      | Complete => if bounded r then accepts r Boundary t else true
      end =
      match
        match tstep r q c with
        | Refuse => None
        | Continue q' => option_map S (runlen r (Inside q') t)
        | Complete => if bounded r then option_map S (runlen r Boundary t) else Some 1
        end
      with Some _ => true | None => false end).
    { intros q. destruct (tstep r q c) as [|q'|].
      - reflexivity.
      - rewrite IH. destruct (runlen r (Inside q') t); reflexivity.
      - destruct (bounded r); [|reflexivity].
        rewrite IH. destruct (runlen r Boundary t); reflexivity. }
    destruct m as [q|]; [apply Htoken|].
    destruct (Ascii.eqb " " c); [reflexivity | apply Htoken].
Qed.

Lemma hit_hit_span (r : pass) (p : option ascii) (t : str) :
  hit r p t = match hit_span r p t with Some _ => true | None => false end.
Proof.
  unfold hit, hit_span. destruct (start r p); [apply accepts_runlen | reflexivity].
Qed.

Lemma runlen_bound (r : pass) (t : str) :
  forall m n, runlen r m t = Some n -> n <= length t.
Proof.
  induction t as [|c t IH]; intros m n H.
  - destruct m; [discriminate|]. injection H as <-. simpl. lia.
  - cbn [runlen] in H. cbn [length].
    assert (Htoken : forall q,
      match tstep r q c with
      | Refuse => None
      | Continue q' => option_map S (runlen r (Inside q') t)
      | Complete => if bounded r then option_map S (runlen r Boundary t) else Some 1
      end = Some n -> n <= S (length t)).
    { intros q Hq. destruct (tstep r q c) as [|q'|].
      - discriminate.
      - destruct (runlen r (Inside q') t) as [k|] eqn:E; [|discriminate].
        injection Hq as <-. apply IH in E. lia.
      - destruct (bounded r).
        + destruct (runlen r Boundary t) as [k|] eqn:E; [|discriminate].
          injection Hq as <-. apply IH in E. lia.
        + injection Hq as <-. lia. }
    destruct m as [q|]; [exact (Htoken q H)|].
    destruct (Ascii.eqb " " c); [injection H as <-; lia | exact (Htoken Start H)].
Qed.

Lemma runlen_inside_pos (r : pass) (q : tstate) (t : str) (n : nat) :
  runlen r (Inside q) t = Some n -> 1 <= n.
Proof.
  destruct t as [|c t]; [discriminate|]. cbn [runlen].
  destruct (tstep r q c) as [|q'|].
  - discriminate.
  - destruct (runlen r (Inside q') t); [|discriminate]. intros H. injection H as <-. lia.
  - destruct (bounded r).
    + destruct (runlen r Boundary t); [|discriminate]. intros H. injection H as <-. lia.
    + intros H. injection H as <-. lia.
Qed.

Lemma hit_span_pos (r : pass) (p : option ascii) (a : str) (n : nat) :
  hit_span r p a = Some n -> 1 <= n <= length a.
Proof.
  unfold hit_span. destruct (start r p) as [q|]; [|discriminate].
  intros H. split; [exact (runlen_inside_pos _ _ _ _ H) | exact (runlen_bound _ _ _ _ H)].
Qed.

(** *** Where nothing matches, nothing is replaced *)

Lemma scan_replace_nohit (r : pass) (span : option ascii -> str -> option nat) (e : str) :
  (forall p a, hit r p a = false -> span p a = None) ->
  forall s p, nohit r p s = true -> scan_replace span e 0 p s = s.
Proof.
  intros Hspan. induction s as [|c s IH]; intros p H; [reflexivity|].
  cbn [nohit] in H. apply andb_prop in H as [H1 H2]. apply negb_true_iff in H1.
  rewrite scan_replace_keep by (apply Hspan, H1). f_equal. apply IH, H2.
Qed.

(** *** A replacement makes no new match *)

Lemma nohit_app (r : pass) (e x : str) :
  forall p, nohit r p (e ++ x) = nohit_in r p e x && nohit r (lastc e p) x.
Proof.
  induction e as [|c e IH]; intros p; [reflexivity|].
  cbn [app nohit nohit_in lastc]. rewrite IH, andb_assoc. reflexivity.
Qed.

Lemma hit_nil (r : pass) (p : option ascii) : hit r p [] = false.
Proof. unfold hit. destruct (start r p); reflexivity. Qed.

Lemma accepts_cons_mono (r : pass) (m : mstate) (c : ascii) (t1 t2 : str) :
  (forall m', accepts r m' t1 = true -> accepts r m' t2 = true) ->
  accepts r m (c :: t1) = true -> accepts r m (c :: t2) = true.
Proof.
  intros Hmono. cbn [accepts].
  assert (Htoken : forall q,
    match tstep r q c with
    | Refuse => false
    | Continue q' => accepts r (Inside q') t1
    | Complete => if bounded r then accepts r Boundary t1 else true
    end = true ->
    match tstep r q c with
    | Refuse => false
    | Continue q' => accepts r (Inside q') t2
    | Complete => if bounded r then accepts r Boundary t2 else true
    end = true).
  { intros q. destruct (tstep r q c) as [|q'|]; [auto | apply Hmono |].
    destruct (bounded r); [apply Hmono | auto]. }
  destruct m as [q|]; [apply Htoken|].
  destruct (Ascii.eqb " " c); [auto | apply Htoken].
Qed.

Section NoNewHits.

(** The expression [r] and the replacement of [span'] by [e]. *)
Variable r : pass.
Variable span' : option ascii -> str -> option nat.
Variable e : str.
Variable e_last : ascii.

Hypothesis span'_pos : forall p a n, span' p a = Some n -> 1 <= n <= length a.

(** What is known of the text that is rewritten. *)
Variable ok : option ascii -> str -> Prop.
Hypothesis ok_tail : forall p c a, ok p (c :: a) -> ok (Some c) a.
Hypothesis ok_clear : forall p a, ok p a -> span' p a = None -> hit r p a = false.

(** [r] cannot read through [e], *)
Hypothesis kill : forall m x, accepts r m (e ++ x) = false.
(** nor start inside it, *)
Hypothesis inner : forall p x, nohit_in r p e x = true.
Hypothesis last_e : forall p, lastc e p = Some e_last.
(** and after [e] it reads what it read after the text replaced. *)
Hypothesis after : forall p a n,
  span' p a = Some n ->
  forall q, start r (Some e_last) = Some q -> start r (lastc (firstn n a) p) = Some q.

Lemma ok_skipn (n : nat) : forall p a,
  ok p a -> n <= length a -> ok (lastc (firstn n a) p) (skipn n a).
Proof.
  induction n as [|n IH]; intros p a H Hn; [exact H|].
  destruct a as [|c a]; [simpl in Hn; lia|].
  cbn [firstn skipn lastc]. apply IH; [eapply ok_tail, H | simpl in Hn; lia].
Qed.

Lemma accepts_scan_replace (n : nat) : forall a p m,
  length a <= n ->
  accepts r m (scan_replace span' e 0 p a) = true -> accepts r m a = true.
Proof.
  induction n as [|n IH]; intros a p m Hn H.
  - destruct a; [exact H | simpl in Hn; lia].
  - destruct a as [|c a]; [exact H|].
    destruct (span' p (c :: a)) as [k|] eqn:Hspan.
    + rewrite (scan_replace_match span' e span'_pos _ _ _ Hspan), kill in H. discriminate H.
    + rewrite (scan_replace_keep span' e _ _ _ Hspan) in H.
      revert H. apply accepts_cons_mono. intros m'. apply IH. simpl in Hn. lia.
Qed.

Lemma nohit_scan_replace (n : nat) : forall a p p',
  length a <= n ->
  ok p a ->
  (forall q, start r p' = Some q -> start r p = Some q) ->
  nohit r p' (scan_replace span' e 0 p a) = true.
Proof.
  induction n as [|n IH]; intros a p p' Hn Hok Hstart.
  - destruct a; [|simpl in Hn; lia]. cbn. rewrite hit_nil. reflexivity.
  - destruct a as [|c a]; [cbn; rewrite hit_nil; reflexivity|].
    destruct (span' p (c :: a)) as [k|] eqn:Hspan.
    + rewrite (scan_replace_match span' e span'_pos _ _ _ Hspan), nohit_app, inner, last_e.
      destruct (span'_pos _ _ _ Hspan) as [Hk1 Hk2].
      apply IH.
      * rewrite length_skipn. cbn [length] in *. lia.
      * apply ok_skipn; assumption.
      * apply (after _ _ _ Hspan).
    + rewrite (scan_replace_keep span' e _ _ _ Hspan). cbn [nohit].
      apply andb_true_intro. split.
      * apply negb_true_iff. destruct (hit r p' (c :: scan_replace span' e 0 (Some c) a)) eqn:Hhit;
          [exfalso | reflexivity].
        unfold hit in Hhit. destruct (start r p') as [q|] eqn:Hq; [|discriminate Hhit].
        rewrite <- (scan_replace_keep span' e _ _ _ Hspan) in Hhit.
        apply (accepts_scan_replace (S n)) in Hhit; [|exact Hn].
        pose proof (ok_clear _ _ Hok Hspan) as Hclear.
        unfold hit in Hclear. rewrite (Hstart q eq_refl), Hhit in Hclear. discriminate Hclear.
      * apply IH; [simpl in Hn; lia | eapply ok_tail, Hok | auto].
Qed.

End NoNewHits.

(** *** The captures do not steer the matcher *)

Inductive optrel (A B : Type) (E : A -> B -> Prop) : option A -> option B -> Prop :=
| optrel_none : optrel A B E None None
| optrel_some (x : A) (y : B) : E x y -> optrel A B E (Some x) (Some y).

Lemma one_related (A B : Type) (E : A -> B -> Prop) (ic fwd : bool) (p : ascii -> bool)
    (z : zipper) (k1 : zipper -> option A) (k2 : zipper -> option B) :
  (forall z', optrel A B E (k1 z') (k2 z')) ->
  optrel A B E (Matcher.one fwd p z k1) (Matcher.one fwd p z k2).
Proof.
  intros Hk. unfold Matcher.one. destruct (Matcher.advance fwd z) as [[c z']|]; [|constructor].
  destruct (p c); [apply Hk | constructor].
Qed.

Lemma text_related (A B : Type) (E : A -> B -> Prop) (ic fwd : bool) (s : str) :
  forall (z : zipper) (k1 : zipper -> option A) (k2 : zipper -> option B),
  (forall z', optrel A B E (k1 z') (k2 z')) ->
  optrel A B E (Matcher.text ic fwd s z k1) (Matcher.text ic fwd s z k2).
Proof.
  induction s as [|c s IH]; intros z k1 k2 Hk; cbn [Matcher.text]; [apply Hk|].
  apply (one_related A B E ic). intros z'. apply IH, Hk.
Qed.

Section Related.

Variables A B : Type.
Variable E : A -> B -> Prop.
Variable m1 : zipper -> captures -> (zipper -> captures -> option A) -> option A.
Variable m2 : zipper -> captures -> (zipper -> captures -> option B) -> option B.
Variable fwd : bool.
Variable k1 : zipper -> captures -> option A.
Variable k2 : zipper -> captures -> option B.

Hypothesis m_related : forall z cs1 cs2 K1 K2,
  (forall z' c1 c2, optrel A B E (K1 z' c1) (K2 z' c2)) ->
  optrel A B E (m1 z cs1 K1) (m2 z cs2 K2).
Hypothesis k_related : forall z c1 c2, optrel A B E (k1 z c1) (k2 z c2).

Lemma more_greedy_related (n : nat) : forall z cs1 cs2,
  optrel A B E (Matcher.more_greedy m1 fwd k1 n z cs1) (Matcher.more_greedy m2 fwd k2 n z cs2).
Proof.
  induction n as [|n IH]; intros z cs1 cs2; cbn [Matcher.more_greedy]; [apply k_related|].
  match goal with
  | |- optrel _ _ _ (match ?x with _ => _ end) (match ?y with _ => _ end) =>
      assert (H : optrel A B E x y)
  end.
  { apply m_related. intros z' c1 c2. destruct (Matcher.progress fwd z z'); [apply IH | constructor]. }
  inversion H as [Hx Hy | x y Hxy Hx Hy]; [apply k_related | constructor; exact Hxy].
Qed.

Lemma more_lazy_related (n : nat) : forall z cs1 cs2,
  optrel A B E (Matcher.more_lazy m1 fwd k1 n z cs1) (Matcher.more_lazy m2 fwd k2 n z cs2).
Proof.
  induction n as [|n IH]; intros z cs1 cs2; cbn [Matcher.more_lazy]; [apply k_related|].
  pose proof (k_related z cs1 cs2) as H.
  inversion H as [Hx Hy | x y Hxy Hx Hy]; [|constructor; exact Hxy].
  apply m_related. intros z' c1 c2. destruct (Matcher.progress fwd z z'); [apply IH | constructor].
Qed.

End Related.

Lemma rmatch_related (ic : bool) (r : regex) :
  forall (A B : Type) (E : A -> B -> Prop) (fwd : bool) (z : zipper) (cs1 cs2 : captures)
    (K1 : zipper -> captures -> option A) (K2 : zipper -> captures -> option B),
  (forall z' c1 c2, optrel A B E (K1 z' c1) (K2 z' c2)) ->
  optrel A B E (Matcher.rmatch ic fwd r z cs1 K1) (Matcher.rmatch ic fwd r z cs2 K2).
Proof.
  induction r as [c|s| |p|r1 IH1 r2 IH2|r1 IH1 r2 IH2|r IH|r IH|n r IH| | | |r IH|r IH|r IH];
    intros A B E fwd z cs1 cs2 K1 K2 HK; cbn [Matcher.rmatch].
  - apply (one_related A B E ic). intros z'. apply HK.
  - apply text_related. intros z'. apply HK.
  - apply (one_related A B E ic). intros z'. apply HK.
  - apply (one_related A B E ic). intros z'. apply HK.
  - destruct fwd.
    + apply IH1. intros z' c1 c2. apply IH2, HK.
    + apply IH2. intros z' c1 c2. apply IH1, HK.
  - pose proof (IH1 A B E fwd z cs1 cs2 K1 K2 HK) as H.
    inversion H as [Hx Hy | x y Hxy Hx Hy]; [apply IH2, HK | constructor; exact Hxy].
  - apply IH. intros z1 c1 c2. apply more_greedy_related; [|exact HK].
    intros z' d1 d2 L1 L2 HL. apply IH, HL.
  - apply IH. intros z1 c1 c2. apply more_lazy_related; [|exact HK].
    intros z' d1 d2 L1 L2 HL. apply IH, HL.
  - apply IH. intros z' c1 c2. apply HK.
  - destruct (fst z); [apply HK | constructor].
  - destruct (snd z); [apply HK | constructor].
  - destruct (Matcher.at_word_boundary z); [apply HK | constructor].
  - pose proof (IH captures captures (fun _ _ => True) true z cs1 cs2
                  (fun _ cs' => Some cs') (fun _ cs' => Some cs')
                  (fun _ _ _ => optrel_some _ _ _ _ _ I)) as H.
    inversion H as [Hx Hy | x y Hxy Hx Hy]; [constructor | apply HK].
  - pose proof (IH captures captures (fun _ _ => True) false z cs1 cs2
                  (fun _ cs' => Some cs') (fun _ cs' => Some cs')
                  (fun _ _ _ => optrel_some _ _ _ _ _ I)) as H.
    inversion H as [Hx Hy | x y Hxy Hx Hy]; [constructor | apply HK].
  - pose proof (IH unit unit (fun _ _ => True) false z cs1 cs2
                  (fun _ _ => Some tt) (fun _ _ => Some tt)
                  (fun _ _ _ => optrel_some _ _ _ _ _ I)) as H.
    inversion H as [Hx Hy | x y Hxy Hx Hy]; [apply HK | constructor].
Qed.

Lemma optrel_eq (A : Type) (x y : option A) : optrel A A eq x y -> x = y.
Proof. intros H. destruct H as [|x y ->]; reflexivity. Qed.

(** A continuation that does not read the captures gets the same answer
    whatever the captures are. *)
Definition blind (A : Type) (K : zipper -> captures -> option A) : Prop :=
  forall z c c', K z c = K z c'.

Lemma rmatch_blind (A : Type) (ic fwd : bool) (r : regex) (z : zipper) (c c' : captures)
    (K : zipper -> captures -> option A) :
  blind A K -> Matcher.rmatch ic fwd r z c K = Matcher.rmatch ic fwd r z c' K.
Proof.
  intros HK. apply optrel_eq, rmatch_related. intros z' c1 c2.
  rewrite (HK z' c1 c2). destruct (K z' c2); constructor; reflexivity.
Qed.

Lemma more_greedy_blind (A : Type) (ic : bool) (r : regex) (n : nat)
    (K : zipper -> captures -> option A) :
  blind A K ->
  blind A (Matcher.more_greedy (fun z cs k => Matcher.rmatch ic true r z cs k) true K n).
Proof.
  intros HK z c c'. apply optrel_eq.
  apply (more_greedy_related A A eq).
  - intros z' d1 d2 L1 L2 HL. apply rmatch_related, HL.
  - intros z' c1 c2. rewrite (HK z' c1 c2). destruct (K z' c2); constructor; reflexivity.
Qed.

(** The position where a match ends. *)
Definition exec_end (re : RegExp) (b a : str) : option zipper :=
  Matcher.rmatch (ignoreCase re) true (pattern re) (b, a) [] (fun z _ => Some z).

Lemma exec_at_end (re : RegExp) (b a : str) :
  option_map fst (exec_at re b a) = exec_end re b a.
Proof.
  unfold exec_at, Matcher.exec, exec_end.
  pose proof (rmatch_related (ignoreCase re) (pattern re) (zipper * captures) zipper
                (fun x y => fst x = y) true (b, a) [] []
                (fun z' cs => Some (z', cs)) (fun z' _ => Some z')) as H.
  destruct H as [|x y Hxy].
  - intros z' c1 c2. constructor. reflexivity.
  - reflexivity.
  - cbn [option_map]. rewrite Hxy. reflexivity.
Qed.

(** *** The matcher and the machines *)

(** One alternative: the number of characters it reads. *)
Fixpoint tokrun (r : pass) (q : tstate) (t : str) : option nat :=
  match t with
  | [] => None
  | c :: t' =>
      match tstep r q c with
      | Refuse => None
      | Continue q' => option_map S (tokrun r q' t')
      | Complete => Some 1
      end
  end.

Lemma tokrun_pos (r : pass) (t : str) : forall q n,
  tokrun r q t = Some n -> 1 <= n <= length t.
Proof.
  induction t as [|c t IH]; intros q n H; [discriminate|].
  cbn [tokrun] in H. cbn [length]. destruct (tstep r q c) as [|q'|].
  - discriminate.
  - destruct (tokrun r q' t) as [k|] eqn:E; [|discriminate]. injection H as <-.
    apply IH in E. lia.
  - injection H as <-. lia.
Qed.

Lemma runlen_tokrun (r : pass) (t : str) : forall q,
  runlen r (Inside q) t =
  match tokrun r q t with
  | Some n => if bounded r then option_map (Nat.add n) (runlen r Boundary (skipn n t)) else Some n
  | None => None
  end.
Proof.
  induction t as [|c t IH]; intros q; [reflexivity|].
  cbn [runlen tokrun]. destruct (tstep r q c) as [|q'|].
  - reflexivity.
  - rewrite IH. destruct (tokrun r q' t) as [n|]; cbn [option_map]; [|reflexivity].
    destruct (bounded r); [|reflexivity]. cbn [skipn].
    destruct (runlen r Boundary (skipn n t)); reflexivity.
  - cbn [skipn]. destruct (bounded r); [|reflexivity].
    destruct (runlen r Boundary t); reflexivity.
Qed.

(** The position [n] characters further. *)
Definition further (b a : str) (n : nat) : zipper := (rev (firstn n a) ++ b, skipn n a).

Lemma further_S (b : str) (c : ascii) (a : str) (n : nat) :
  further b (c :: a) (S n) = further (c :: b) a n.
Proof. unfold further. cbn [firstn skipn rev]. rewrite <- app_assoc. reflexivity. Qed.

Lemma further_add (n : nat) : forall b a k,
  further (fst (further b a n)) (snd (further b a n)) k = further b a (n + k).
Proof.
  induction n as [|n IH]; intros b a k; [reflexivity|].
  destruct a as [|c a].
  - unfold further. cbn. rewrite !firstn_nil, !skipn_nil. reflexivity.
  - cbn [Nat.add]. rewrite !further_S. apply IH.
Qed.

Definition token_spec (r : pass) (G : regex) : Prop :=
  forall (A : Type) (b a : str) (cs : captures) (K : zipper -> captures -> option A),
  blind A K ->
  Matcher.rmatch false true G (b, a) cs K =
  match tokrun r Start a with
  | Some n => K (further b a n) []
  | None => None
  end.

Lemma option_first (A : Type) (x : option A) :
  match x with Some y => Some y | None => None end = x.
Proof. destruct x; reflexivity. Qed.

Ltac crunch_step :=
  match goal with
  | H : ?x <> ?x |- _ => exfalso; apply H; reflexivity
  | |- context [Ascii.eqb ?x ?y] => is_var y; destruct (Ascii.eqb_spec x y) as [<-|?]
  | |- context [Ascii.eqb ?x ?y] =>
      let v := eval vm_compute in (Ascii.eqb x y) in progress change (Ascii.eqb x y) with v
  | |- context [Matcher.one _ _ (_, ?l) _] => is_var l; destruct l
  | |- context [tokrun _ _ ?l] => is_var l; destruct l
  | |- context [match ?l with [] => _ | _ :: _ => _ end] => is_var l; destruct l
  end.

Ltac crunch := repeat (cbn -[Ascii.eqb]; unfold expect; crunch_step); cbn -[Ascii.eqb].

Ltac crunched HK := crunch; try reflexivity; try rewrite option_first; try apply HK.

Lemma token_and :
  token_spec PAnd (Grp 1 (alts [Txt "and"; Cls (Ascii.eqb "&"); Txt "/\"; Chr "^"])).
Proof. intros A b a cs K HK. unfold further. crunched HK. Qed.

Lemma token_or :
  token_spec POr (Grp 1 (alts [Txt "or"; Cls (Ascii.eqb "|"); Txt "\/"])).
Proof. intros A b a cs K HK. unfold further. crunched HK. Qed.

Lemma token_xor :
  token_spec PXor (Grp 1 (alts [Txt "(+)"; Txt "xor"])).
Proof. intros A b a cs K HK. unfold further. crunched HK. Qed.

(** [-+>] after the first [-]. *)
Lemma dashes (r : pass) (q : tstate) (A : Type) (K : zipper -> captures -> option A) :
  (forall c, tstep r q c =
             if Ascii.eqb "-" c then Continue q
             else if Ascii.eqb ">" c then Complete else Refuse) ->
  blind A K ->
  forall (fuel : nat) (b a : str) (cs : captures),
  length a <= fuel ->
  Matcher.more_greedy (fun z cs k => Matcher.rmatch false true (Chr "-") z cs k) true
    (fun z' cs' => Matcher.rmatch false true (Chr ">") z' cs' K) fuel (b, a) cs =
  match tokrun r q a with
  | Some n => K (further b a n) []
  | None => None
  end.
Proof.
  intros Hstep HK. induction fuel as [|fuel IH]; intros b a cs Hlen.
  - destruct a; [reflexivity | simpl in Hlen; lia].
  - destruct a as [|c a]; [reflexivity|].
    cbn [Matcher.more_greedy Matcher.rmatch tokrun]. rewrite Hstep.
    unfold Matcher.one. cbn [Matcher.advance Matcher.same_char].
    destruct (Ascii.eqb_spec "-" c) as [<-|Hc].
    + unfold Matcher.progress. cbn [Matcher.ahead snd length].
      destruct (Nat.eqb_spec (length a) (S (length a))) as [Heq|_]; [lia|]. cbn [negb].
      rewrite IH by (simpl in Hlen; lia).
      destruct (tokrun r q a) as [n|]; cbn [option_map].
      * rewrite further_S. cbn. apply option_first.
      * reflexivity.
    + destruct (Ascii.eqb ">" c); [|reflexivity].
      unfold further. cbn. apply HK.
Qed.

Lemma blind_group (A : Type) (K : zipper -> captures -> option A) (n : nat) (z : zipper) :
  blind A K ->
  blind A (fun z' cs' => K z' ((n, Matcher.between_positions z z') :: cs')).
Proof. intros HK z' c c'. apply HK. Qed.

Lemma token_equals :
  token_spec PEquals (Grp 1 (alts [seqs [Chr "<"; Plus (Chr "-"); Chr ">"]; Chr "="])).
Proof.
  intros A b a cs K HK.
  destruct a as [|c a]; [reflexivity|].
  destruct (Ascii.eqb_spec "<" c) as [<-|Hc]; [|unfold further; crunched HK].
  destruct a as [|c2 a]; [reflexivity|].
  destruct (Ascii.eqb_spec "-" c2) as [<-|Hc2]; [|unfold further; crunched HK].
  pose proof (dashes PEquals E_dash A _ (fun c => eq_refl)
                (blind_group A K 1 (b, "<"%char :: "-"%char :: a) HK)
                (length a) ("-"%char :: "<"%char :: b) a cs (le_n _)) as Hd.
  match type of Hd with
  | ?L = _ => transitivity (match L with Some x => Some x | None => None end); [reflexivity|]
  end.
  rewrite Hd.
  change (tokrun PEquals Start ("<"%char :: "-"%char :: a))
    with (option_map S (option_map S (tokrun PEquals E_dash a))).
  destruct (tokrun PEquals E_dash a) as [n|]; cbn [option_map]; [|reflexivity].
  rewrite !further_S, option_first. apply HK.
Qed.

Lemma boundary_after_spec (b a : str) (cs : captures) :
  Matcher.rmatch false true boundary_after (b, a) cs (fun z _ => Some z) =
  match a with
  | [] => Some (b, a)
  | c :: _ => if Ascii.eqb " " c then Some (b, a) else None
  end.
Proof.
  unfold boundary_after. destruct a as [|c a]; [reflexivity|].
  cbn -[Ascii.eqb]. unfold Matcher.one. cbn -[Ascii.eqb].
  destruct (Ascii.eqb " " c); reflexivity.
Qed.

Lemma blind_end : blind zipper (fun z _ => Some z).
Proof. intros z c c'. reflexivity. Qed.

Section Bounded.

Variable r : pass.
Variable G : regex.

Hypothesis r_bounded : bounded r = true.
Hypothesis r_space : tstep r Start " " = Refuse.
Hypothesis r_token : token_spec r G.

Lemma runlen_boundary (a : str) (n : nat) :
  tokrun r Start a = Some n ->
  runlen r Boundary a = option_map (Nat.add n) (runlen r Boundary (skipn n a)).
Proof.
  intros H. pose proof (runlen_tokrun r a Start) as Hrun. rewrite H, r_bounded in Hrun.
  rewrite <- Hrun. destruct a as [|c a]; [discriminate H|].
  cbn [runlen tokrun] in *.
  destruct (Ascii.eqb_spec " " c) as [<-|Hc]; [|reflexivity].
  rewrite r_space in H. discriminate H.
Qed.

Lemma runlen_boundary_none (a : str) :
  tokrun r Start a = None ->
  runlen r Boundary a =
  match a with
  | [] => Some 0
  | c :: _ => if Ascii.eqb " " c then Some 0 else None
  end.
Proof.
  intros H. pose proof (runlen_tokrun r a Start) as Hrun. rewrite H in Hrun.
  destruct a as [|c a]; [reflexivity|].
  cbn [runlen] in *. destruct (Ascii.eqb " " c); [reflexivity | exact Hrun].
Qed.

Lemma greedy_bounded (fuel : nat) : forall (b a : str) (cs : captures),
  length a <= fuel ->
  Matcher.more_greedy (fun z cs k => Matcher.rmatch false true G z cs k) true
    (fun z cs => Matcher.rmatch false true boundary_after z cs (fun z _ => Some z))
    fuel (b, a) cs =
  option_map (further b a) (runlen r Boundary a).
Proof.
  induction fuel as [|fuel IH]; intros b a cs Hlen.
  - destruct a; [|simpl in Hlen; lia]. cbn [Matcher.more_greedy].
    rewrite boundary_after_spec. reflexivity.
  - cbn [Matcher.more_greedy]. rewrite r_token.
    + destruct (tokrun r Start a) as [n|] eqn:Etok.
      * destruct (tokrun_pos _ _ _ _ Etok) as [Hn1 Hn2].
        unfold Matcher.progress, further. cbn [Matcher.ahead snd].
        rewrite length_skipn.
        destruct (Nat.eqb_spec (length a - n) (length a)) as [Heq|_]; [lia|]. cbn [negb].
        rewrite IH by (rewrite length_skipn; lia).
        rewrite (runlen_boundary _ _ Etok).
        destruct (runlen r Boundary (skipn n a)) as [k|]; cbn [option_map].
        -- f_equal. apply (further_add n b a k).
        -- rewrite boundary_after_spec. destruct a as [|c a]; [discriminate Etok|].
           cbn [tokrun] in Etok.
           destruct (Ascii.eqb_spec " " c) as [<-|Hc]; [|reflexivity].
           rewrite r_space in Etok. discriminate Etok.
      * rewrite boundary_after_spec, (runlen_boundary_none _ Etok).
        destruct a as [|c a]; [reflexivity|].
        destruct (Ascii.eqb " " c); reflexivity.
    + intros z c c'. destruct (Matcher.progress true (b, a) z); [|reflexivity].
      apply more_greedy_blind. intros z' d d'. apply rmatch_blind, blind_end.
Qed.

Hypothesis r_start : forall p,
  start r p = match p with
              | None => Some Start
              | Some c => if Ascii.eqb " " c then Some Start else None
              end.

Lemma exec_bounded (b a : str) :
  exec_end (global (seqs [boundary_before; Plus G; boundary_after])) b a =
  option_map (further b a) (hit_span r (hd_error b) a).
Proof.
  unfold exec_end, hit_span. rewrite r_start.
  cbn [pattern ignoreCase global seqs Matcher.rmatch boundary_before alts].
  assert (Hplus : forall cs,
    Matcher.rmatch false true G (b, a) cs
      (fun z1 cs1 =>
         Matcher.more_greedy (fun z cs k => Matcher.rmatch false true G z cs k) true
           (fun z' cs' => Matcher.rmatch false true boundary_after z' cs' (fun z _ => Some z))
           (length (Matcher.ahead true z1)) z1 cs1) =
    option_map (further b a) (runlen r (Inside Start) a)).
  { intros cs. rewrite r_token.
    - rewrite runlen_tokrun, r_bounded.
      destruct (tokrun r Start a) as [n|] eqn:Etok; [|reflexivity].
      unfold further at 1 2. cbn [Matcher.ahead snd]. rewrite greedy_bounded by lia.
      destruct (runlen r Boundary (skipn n a)) as [k|]; cbn [option_map]; [|reflexivity].
      f_equal. apply (further_add n b a k).
    - intros z c c'. apply more_greedy_blind. intros z' d d'. apply rmatch_blind, blind_end. }
  destruct b as [|c b]; cbn [hd_error].
  - cbn. apply Hplus.
  - unfold Matcher.one. cbn -[Ascii.eqb]. destruct (Ascii.eqb " " c); [apply Hplus | reflexivity].
Qed.

End Bounded.

(** [then] and the arrow. *)
Definition dash_run (a : str) : option nat :=
  match a with
  | c :: a' => if Ascii.eqb "-" c then option_map S (tokrun PThen T_dash a') else None
  | [] => None
  end.

Lemma text_then (A : Type) (b a : str) (cs : captures) (K : zipper -> captures -> option A) :
  Matcher.rmatch false true (Txt "then") (b, a) cs K =
  match tokrun PThen ThenOnly a with
  | Some n => K (further b a n) cs
  | None => None
  end.
Proof. unfold further. crunch; reflexivity. Qed.

Lemma plus_dash (A : Type) (b a : str) (cs : captures) (K : zipper -> captures -> option A) :
  blind A K ->
  Matcher.rmatch false true (Seq (Plus (Chr "-")) (Chr ">")) (b, a) cs K =
  match dash_run a with
  | Some n => K (further b a n) []
  | None => None
  end.
Proof.
  intros HK. destruct a as [|c a]; [reflexivity|].
  destruct (Ascii.eqb_spec "-" c) as [<-|Hc].
  - pose proof (dashes PThen T_dash A K (fun c => eq_refl) HK (length a) ("-"%char :: b) a cs
                  (le_n _)) as Hd.
    match type of Hd with
    | ?L = _ => transitivity L; [reflexivity|]
    end.
    rewrite Hd.
    change (dash_run ("-"%char :: a)) with (option_map S (tokrun PThen T_dash a)).
    destruct (tokrun PThen T_dash a) as [n|]; cbn [option_map]; [|reflexivity].
    rewrite further_S. reflexivity.
  - cbn [Matcher.rmatch dash_run]. unfold Matcher.one at 1.
    cbn [Matcher.advance Matcher.same_char].
    destruct (Ascii.eqb_spec "-" c); [contradiction | reflexivity].
Qed.

Lemma tokrun_then_start (a : str) :
  tokrun PThen Start a =
  match tokrun PThen ThenOnly a with
  | Some n => Some n
  | None => dash_run a
  end.
Proof.
  destruct a as [|c a]; [reflexivity|]. cbn [tokrun dash_run tstep]. unfold expect.
  destruct (Ascii.eqb_spec "t" c) as [<-|Hc].
  - destruct (option_map S (tokrun PThen T_t a)); reflexivity.
  - destruct (Ascii.eqb "-" c); reflexivity.
Qed.

Lemma arrow_spec (A : Type) (b a : str) (cs : captures) (K : zipper -> captures -> option A) :
  blind A K ->
  Matcher.rmatch false true arrow (b, a) cs K =
  match start PThen (hd_error b) with
  | Some ThenOnly => None
  | _ => match dash_run a with
         | Some n => K (further b a n) []
         | None => None
         end
  end.
Proof.
  intros HK. pose proof (plus_dash A b a cs K HK) as Hd.
  match type of Hd with
  | ?L = _ =>
      transitivity
        (match Matcher.rmatch false false (Chr "<") (b, a) cs (fun _ _ => Some tt) with
         | Some _ => None
         | None => L
         end); [reflexivity|]
  end.
  rewrite Hd. destruct b as [|c0 b]; [reflexivity|].
  cbn [Matcher.rmatch hd_error start]. unfold Matcher.one.
  cbn [Matcher.advance Matcher.same_char].
  destruct (Ascii.eqb "<" c0); reflexivity.
Qed.

Lemma exec_then (b a : str) :
  exec_end then_ b a = option_map (further b a) (hit_span PThen (hd_error b) a).
Proof.
  pose proof (text_then zipper b a []
                (fun z' cs' =>
                   (fun (z : zipper) (_ : captures) => Some z) z'
                     ((1, Matcher.between_positions (b, a) z') :: cs'))) as Ht.
  pose proof (arrow_spec zipper b a []
                (fun z' cs' =>
                   (fun (z : zipper) (_ : captures) => Some z) z'
                     ((1, Matcher.between_positions (b, a) z') :: cs'))
                (fun z c c' => eq_refl)) as Ha.
  match type of Ht with
  | ?Lt = _ =>
      match type of Ha with
      | ?La = _ =>
          transitivity (match Lt with Some x => Some x | None => La end); [reflexivity|]
      end
  end.
  rewrite Ht, Ha. cbv beta. unfold hit_span.
  assert (Hrun : forall q, runlen PThen (Inside q) a = tokrun PThen q a).
  { intros q. rewrite runlen_tokrun. cbn [bounded]. destruct (tokrun PThen q a); reflexivity. }
  assert (Hstart : start PThen (hd_error b) = Some Start \/
                   start PThen (hd_error b) = Some ThenOnly).
  { destruct b as [|c0 b]; cbn [hd_error start]; [auto|]. destruct (Ascii.eqb "<" c0); auto. }
  destruct Hstart as [-> | ->]; rewrite Hrun.
  - rewrite tokrun_then_start.
    destruct (tokrun PThen ThenOnly a); [reflexivity|].
    destruct (dash_run a); reflexivity.
  - destruct (tokrun PThen ThenOnly a); reflexivity.
Qed.

(** The negation: a run of alternatives as long as it can be. *)
Definition tok_not (t : str) : option nat :=
  match tokrun PNot Start t with
  | Some n =>
      match skipn n t with
      | c :: _ => if (n =? 3) && Ascii.eqb " " c then Some 4 else Some n
      | [] => Some n
      end
  | None => None
  end.

Fixpoint run_not (fuel : nat) (t : str) : nat :=
  match fuel with
  | 0 => 0
  | S fuel' =>
      match tok_not t with
      | Some n => n + run_not fuel' (skipn n t)
      | None => 0
      end
  end.

Definition span_not (p : option ascii) (a : str) : option nat :=
  match start PNot p with
  | Some _ =>
      match tok_not a with
      | Some n => Some (n + run_not (length (skipn n a)) (skipn n a))
      | None => None
      end
  | None => None
  end.

Definition negation : regex := Grp 1 (alts [Txt "not "; Txt "not"; Chr "!"; Txt not_sign]).

Lemma token_not (A : Type) (b a : str) (cs : captures) (K : zipper -> captures -> option A) :
  blind A K ->
  (forall n, 1 <= n <= length a -> K (further b a n) [] <> None) ->
  Matcher.rmatch false true negation (b, a) cs K =
  match tok_not a with
  | Some n => K (further b a n) []
  | None => None
  end.
Proof.
  intros HK Hsome. unfold tok_not, further, negation, not_sign.
  crunch; try reflexivity;
    match goal with
    | |- match ?k ?z ?c with _ => _ end = _ => rewrite (HK z c [])
    | |- ?k ?z ?c = _ => rewrite (HK z c [])
    end;
    try reflexivity;
    match goal with
    | |- match ?k ?z [] with _ => _ end = _ => destruct (k z []) eqn:E; [reflexivity|]
    end;
    exfalso;
    first [ apply (Hsome 4); [cbn [length]; lia | exact E]
          | apply (Hsome 3); [cbn [length]; lia | exact E]
          | apply (Hsome 2); [cbn [length]; lia | exact E]
          | apply (Hsome 1); [cbn [length]; lia | exact E] ].
Qed.

Lemma tok_not_pos (a : str) (n : nat) : tok_not a = Some n -> 1 <= n <= length a.
Proof.
  unfold tok_not. destruct (tokrun PNot Start a) as [k|] eqn:E; [|discriminate].
  destruct (tokrun_pos _ _ _ _ E) as [H1 H2].
  pose proof (length_skipn k a) as Hlen.
  destruct (skipn k a) as [|c rest].
  - intros H. injection H as <-. lia.
  - cbn [length] in Hlen. destruct ((k =? 3) && Ascii.eqb " " c) eqn:Hk.
    + apply andb_prop in Hk as [Hk _]. apply Nat.eqb_eq in Hk.
      intros H. injection H as <-. lia.
    + intros H. injection H as <-. lia.
Qed.

Lemma run_not_bound (fuel : nat) : forall a, run_not fuel a <= length a.
Proof.
  induction fuel as [|fuel IH]; intros a; cbn [run_not]; [lia|].
  destruct (tok_not a) as [n|] eqn:E; [|lia].
  destruct (tok_not_pos _ _ E) as [H1 H2].
  pose proof (IH (skipn n a)) as H. rewrite length_skipn in H. lia.
Qed.

Lemma span_not_pos (p : option ascii) (a : str) (n : nat) :
  span_not p a = Some n -> 1 <= n <= length a.
Proof.
  unfold span_not. destruct (start PNot p); [|discriminate].
  destruct (tok_not a) as [k|] eqn:E; [|discriminate].
  destruct (tok_not_pos _ _ E) as [H1 H2].
  pose proof (run_not_bound (length (skipn k a)) (skipn k a)) as H.
  pose proof (length_skipn k a) as Hlen. intros Hn. injection Hn as <-. lia.
Qed.

Lemma greedy_not (fuel : nat) : forall (b a : str) (cs : captures),
  Matcher.more_greedy (fun z cs k => Matcher.rmatch false true negation z cs k) true
    (fun z _ => Some z) fuel (b, a) cs =
  Some (further b a (run_not fuel a)).
Proof.
  induction fuel as [|fuel IH]; intros b a cs; [reflexivity|].
  cbn [Matcher.more_greedy run_not]. rewrite token_not.
  - destruct (tok_not a) as [n|] eqn:E; [|reflexivity].
    destruct (tok_not_pos _ _ E) as [H1 H2].
    unfold Matcher.progress, further at 1 2. cbn [Matcher.ahead snd].
    rewrite length_skipn.
    destruct (Nat.eqb_spec (length a - n) (length a)) as [Heq|_]; [lia|]. cbn [negb].
    rewrite IH. f_equal. apply (further_add n b a).
  - intros z c c'. destruct (Matcher.progress true (b, a) z); [|reflexivity].
    apply more_greedy_blind, blind_end.
  - intros n [H1 H2]. unfold Matcher.progress, further. cbn [Matcher.ahead snd].
    rewrite length_skipn.
    destruct (Nat.eqb_spec (length a - n) (length a)) as [Heq|_]; [lia|]. cbn [negb].
    rewrite IH. discriminate.
Qed.

Lemma exec_not (b a : str) :
  exec_end not b a = option_map (further b a) (span_not (hd_error b) a).
Proof.
  assert (Hplus : forall cs,
    Matcher.rmatch false true (Plus negation) (b, a) cs (fun z _ => Some z) =
    option_map (further b a)
      (match tok_not a with
       | Some n => Some (n + run_not (length (skipn n a)) (skipn n a))
       | None => None
       end)).
  { intros cs. cbn [Matcher.rmatch]. rewrite token_not.
    - destruct (tok_not a) as [n|]; [|reflexivity].
      unfold further at 1 2. cbn [Matcher.ahead snd]. rewrite greedy_not.
      cbn [option_map]. f_equal. apply (further_add n b a).
    - intros z c c'. apply more_greedy_blind, blind_end.
    - intros n _. unfold further. cbn [Matcher.ahead snd]. rewrite greedy_not. discriminate. }
  unfold span_not.
  destruct b as [|c0 b]; cbn [hd_error start].
  - rewrite <- (Hplus []). reflexivity.
  - destruct (Ascii.eqb " " c0) eqn:E1; [|destruct (Ascii.eqb "(" c0) eqn:E2;
      [|destruct (Ascii.eqb ")" c0) eqn:E3]]; cbn [orb].
    + rewrite <- (Hplus []). unfold exec_end, not.
      cbn [pattern ignoreCase global seqs alts paren_before Matcher.rmatch].
      unfold Matcher.one at 1. cbn [Matcher.advance Matcher.same_char]. rewrite E1.
      reflexivity.
    + rewrite <- (Hplus []). unfold exec_end, not.
      cbn [pattern ignoreCase global seqs alts paren_before Matcher.rmatch fst].
      unfold Matcher.one at 1 2. cbn [Matcher.advance Matcher.same_char]. rewrite E1, E2.
      reflexivity.
    + rewrite <- (Hplus []). unfold exec_end, not.
      cbn [pattern ignoreCase global seqs alts paren_before Matcher.rmatch fst].
      unfold Matcher.one at 1 2 3. cbn [Matcher.advance Matcher.same_char].
      rewrite E1, E2, E3. reflexivity.
    + unfold exec_end, not.
      cbn [pattern ignoreCase global seqs alts paren_before Matcher.rmatch fst].
      unfold Matcher.one at 1 2 3. cbn [Matcher.advance Matcher.same_char].
      rewrite E1, E2, E3. reflexivity.
Qed.

(** *** The replacements of [prettyPrint] as scans *)

Definition span_of (j : pass) : option ascii -> str -> option nat :=
  match j with
  | PNot => span_not
  | _ => hit_span j
  end.

Definition apply_pass (j : pass) (s : str) : str :=
  scan_replace (span_of j) (entity j) 0 None s.

Lemma span_of_pos (j : pass) (p : option ascii) (a : str) (n : nat) :
  span_of j p a = Some n -> 1 <= n <= length a.
Proof. destruct j; first [apply span_not_pos | apply hit_span_pos]. Qed.

Lemma start_not (p : option ascii) (q : tstate) : start PNot p = Some q -> q = Start.
Proof.
  destruct p as [c|]; cbn [start].
  - destruct (Ascii.eqb " " c || Ascii.eqb "(" c || Ascii.eqb ")" c); congruence.
  - congruence.
Qed.

Lemma tok_not_none (a : str) : tok_not a = None <-> tokrun PNot Start a = None.
Proof.
  unfold tok_not. destruct (tokrun PNot Start a) as [n|]; [|tauto].
  destruct (skipn n a) as [|c rest]; [split; discriminate|].
  destruct ((n =? 3) && Ascii.eqb " " c); split; discriminate.
Qed.

Lemma span_of_hit (j : pass) (p : option ascii) (a : str) :
  hit j p a = false <-> span_of j p a = None.
Proof.
  assert (Hmachine : hit j p a = false <-> hit_span j p a = None).
  { rewrite hit_hit_span. destruct (hit_span j p a); split; congruence. }
  destruct j; try exact Hmachine.
  rewrite Hmachine. unfold hit_span, span_of, span_not.
  destruct (start PNot p) as [q|] eqn:Hq; [|tauto].
  apply start_not in Hq. subst q. rewrite runlen_tokrun. cbn [bounded].
  pose proof (tok_not_none a) as Hnone.
  destruct (tokrun PNot Start a) as [n|], (tok_not a) as [k|]; split; try congruence.
  - intros _. destruct Hnone as [H _]. discriminate (H eq_refl).
  - intros _. destruct Hnone as [_ H]. discriminate (H eq_refl).
Qed.

Lemma span_exec_of (re : RegExp) (span : option ascii -> str -> option nat) :
  (forall b a, exec_end re b a = option_map (further b a) (span (hd_error b) a)) ->
  forall b a,
  option_map fst (exec_at re b a) =
  option_map (fun n => (rev (firstn n a) ++ b, skipn n a)) (span (hd_error b) a).
Proof. intros H b a. rewrite exec_at_end. apply H. Qed.

Lemma start_bounded (r : pass) :
  bounded r = true ->
  forall p,
  start r p = match p with
              | None => Some Start
              | Some c => if Ascii.eqb " " c then Some Start else None
              end.
Proof. destruct r; try discriminate; reflexivity. Qed.

Lemma replaceAll_and (s : str) : replaceAll and "&and;" s = apply_pass PAnd s.
Proof.
  apply (replaceAll_scan (span_of PAnd) (entity PAnd) (span_of_pos PAnd) and).
  apply span_exec_of.
  exact (exec_bounded PAnd _ eq_refl eq_refl token_and (start_bounded PAnd eq_refl)).
Qed.

Lemma replaceAll_or (s : str) : replaceAll or "&or;" s = apply_pass POr s.
Proof.
  apply (replaceAll_scan (span_of POr) (entity POr) (span_of_pos POr) or).
  apply span_exec_of.
  exact (exec_bounded POr _ eq_refl eq_refl token_or (start_bounded POr eq_refl)).
Qed.

Lemma replaceAll_xor (s : str) : replaceAll xor "&oplus;" s = apply_pass PXor s.
Proof.
  apply (replaceAll_scan (span_of PXor) (entity PXor) (span_of_pos PXor) xor).
  apply span_exec_of.
  exact (exec_bounded PXor _ eq_refl eq_refl token_xor (start_bounded PXor eq_refl)).
Qed.

Lemma replaceAll_equals (s : str) : replaceAll equals "&equiv;" s = apply_pass PEquals s.
Proof.
  apply (replaceAll_scan (span_of PEquals) (entity PEquals) (span_of_pos PEquals) equals).
  apply span_exec_of.
  exact (exec_bounded PEquals _ eq_refl eq_refl token_equals (start_bounded PEquals eq_refl)).
Qed.

Lemma replaceAll_then (s : str) : replaceAll then_ "&rarr;" s = apply_pass PThen s.
Proof.
  apply (replaceAll_scan (span_of PThen) (entity PThen) (span_of_pos PThen) then_).
  apply span_exec_of. exact exec_then.
Qed.

Lemma replaceAll_not (s : str) : replaceAll not "&sim;" s = apply_pass PNot s.
Proof.
  apply (replaceAll_scan (span_of PNot) (entity PNot) (span_of_pos PNot) not).
  apply span_exec_of. exact exec_not.
Qed.

Lemma replaceAllChar_scan (j : pass) (x : ascii) (s : str) :
  (forall c, tstep j Start c = expect x c Complete) ->
  (forall p, start j p = Some Start) ->
  bounded j = false ->
  forall p, replaceAllChar x (entity j) s = scan_replace (hit_span j) (entity j) 0 p s.
Proof.
  intros Hstep Hstart Hb. unfold replaceAllChar.
  induction s as [|c s IH]; intros p; [reflexivity|].
  cbn [flat_map scan_replace]. unfold hit_span at 1. rewrite Hstart.
  cbn [runlen]. rewrite Hstep, Hb. unfold expect.
  rewrite (Ascii.eqb_sym c x). destruct (Ascii.eqb x c).
  - f_equal. apply IH.
  - cbn [app]. f_equal. apply IH.
Qed.

Lemma replaceAllChar_lpar (s : str) : replaceAllChar "(" "&lpar;" s = apply_pass PLpar s.
Proof. apply (replaceAllChar_scan PLpar "(" s); reflexivity. Qed.

Lemma replaceAllChar_rpar (s : str) : replaceAllChar ")" "&rpar;" s = apply_pass PRpar s.
Proof. apply (replaceAllChar_scan PRpar ")" s); reflexivity. Qed.

Lemma prettyPrint_passes (s : str) :
  prettyPrint s = fold_left (fun t j => apply_pass j t) passes s.
Proof.
  unfold prettyPrint, passes. cbn [fold_left].
  rewrite replaceAll_and, replaceAll_or, replaceAll_not, replaceAll_then, replaceAll_xor,
    replaceAll_equals, replaceAllChar_lpar, replaceAllChar_rpar.
  reflexivity.
Qed.

(** *** No expression reads a replacement text *)

Lemma kill_all (r j : pass) (m : mstate) (x : str) : accepts r m (entity j ++ x) = false.
Proof. destruct r, j, m as [q|]; try destruct q; reflexivity. Qed.

Lemma inner_all (r j : pass) (p : option ascii) (x : str) :
  nohit_in r p (entity j) x = true.
Proof.
  assert (H0 : hit r p (entity j ++ x) = false).
  { unfold hit. destruct (start r p); [apply kill_all | reflexivity]. }
  destruct j; cbv [entity list_ascii_of_string] in *; cbn [nohit_in];
    apply andb_true_intro; (split; [apply negb_true_iff; exact H0 | destruct r; reflexivity]).
Qed.

Lemma last_entity (j : pass) (p : option ascii) : lastc (entity j) p = Some ";"%char.
Proof. destruct j; reflexivity. Qed.

Definition index (j : pass) : nat :=
  match j with
  | PAnd => 0 | POr => 1 | PNot => 2 | PThen => 3
  | PXor => 4 | PEquals => 5 | PLpar => 6 | PRpar => 7
  end.

(** A match ends with a character that completes an alternative. *)
Lemma runlen_last (j : pass) (t : str) : forall m n p,
  runlen j m t = Some n ->
  n = 0 \/ exists c q, lastc (firstn n t) p = Some c /\ tstep j q c = Complete.
Proof.
  induction t as [|c t IH]; intros m n p H.
  - destruct m; [discriminate|]. injection H as <-. left. reflexivity.
  - cbn [runlen] in H.
    assert (Htoken : forall q,
      match tstep j q c with
      | Refuse => None
      | Continue q' => option_map S (runlen j (Inside q') t)
      | Complete => if bounded j then option_map S (runlen j Boundary t) else Some 1
      end = Some n ->
      n = 0 \/ exists c' q', lastc (firstn n (c :: t)) p = Some c' /\ tstep j q' c' = Complete).
    { intros q Hq. right. destruct (tstep j q c) as [|q'|] eqn:Hstep.
      - discriminate.
      - destruct (runlen j (Inside q') t) as [k|] eqn:E; [|discriminate].
        injection Hq as <-. cbn [firstn lastc].
        destruct (IH _ _ (Some c) E) as [->|H']; [|exact H'].
        apply runlen_inside_pos in E. lia.
      - destruct (bounded j).
        + destruct (runlen j Boundary t) as [k|] eqn:E; [|discriminate].
          injection Hq as <-. cbn [firstn lastc].
          destruct (IH _ _ (Some c) E) as [->|H']; [|exact H'].
          exists c, q. split; [reflexivity | exact Hstep].
        + injection Hq as <-. exists c, q. split; [reflexivity | exact Hstep]. }
    destruct m as [q|]; [exact (Htoken q H)|].
    destruct (Ascii.eqb " " c); [injection H as <-; left; reflexivity | exact (Htoken Start H)].
Qed.

Lemma after_all (r j : pass) :
  index r <= index j ->
  forall p a n,
  span_of j p a = Some n ->
  forall q, start r (Some ";"%char) = Some q -> start r (lastc (firstn n a) p) = Some q.
Proof.
  intros Hrj p a n Hspan q Hq.
  destruct r; try discriminate Hq; try exact Hq.
  assert (Hmachine : hit_span j p a = Some n).
  { destruct j; try exact Hspan. cbn [index] in Hrj. lia. }
  destruct (hit_span_pos _ _ _ _ Hmachine) as [Hn _].
  unfold hit_span in Hmachine. destruct (start j p) as [q0|]; [|discriminate].
  destruct (runlen_last _ _ _ _ p Hmachine) as [->|(c & q' & Hlast & Hstep)]; [lia|].
  rewrite Hlast. cbn [start] in *.
  destruct (Ascii.eqb_spec "<" c) as [<-|_]; [|exact Hq].
  destruct j, q'; discriminate Hstep.
Qed.

(** *** After its replacement an expression matches nowhere, and the later
    replacements keep it so *)

Lemma nohit_established (j : pass) (s : str) : nohit j None (apply_pass j s) = true.
Proof.
  apply (nohit_scan_replace j (span_of j) (entity j) ";"%char (span_of_pos j)
           (fun _ _ => True)) with (n := length s).
  - auto.
  - intros p a _ H. apply span_of_hit, H.
  - apply kill_all.
  - apply inner_all.
  - apply last_entity.
  - apply after_all. lia.
  - lia.
  - exact I.
  - auto.
Qed.

Lemma nohit_preserved (r j : pass) (s : str) :
  (index r <? index j) = true ->
  nohit r None s = true -> nohit r None (apply_pass j s) = true.
Proof.
  intros Hrj Hs. apply Nat.ltb_lt in Hrj.
  apply (nohit_scan_replace r (span_of j) (entity j) ";"%char (span_of_pos j)
           (fun p a => nohit r p a = true)) with (n := length s).
  - intros p c a H. cbn [nohit] in H. apply andb_prop in H as [_ H]. exact H.
  - intros p a H _. destruct a; cbn [nohit] in H; apply andb_prop in H as [H _];
      apply negb_true_iff in H; exact H.
  - apply kill_all.
  - apply inner_all.
  - apply last_entity.
  - apply after_all. lia.
  - lia.
  - exact Hs.
  - auto.
Qed.

Lemma apply_pass_nohit (j : pass) (t : str) : nohit j None t = true -> apply_pass j t = t.
Proof.
  intros H. unfold apply_pass. apply (scan_replace_nohit j); [|exact H].
  intros p a Hhit. apply span_of_hit, Hhit.
Qed.

Lemma prettyPrint_nohit (r : pass) (s : str) : nohit r None (prettyPrint s) = true.
Proof.
  rewrite prettyPrint_passes. unfold passes. cbn [fold_left].
  destruct r; repeat (apply nohit_preserved; [reflexivity|]); apply nohit_established.
Qed.

(** X13: in a text that [prettyPrint] has produced, each of its eight
    replacements finds nothing to replace: taken alone, every one of them
    gives the text back. *)
Theorem prettyPrint_output_is_fixed (string : str) :
  let text := prettyPrint string in
  replaceAll and "&and;" text = text /\
  replaceAll or "&or;" text = text /\
  replaceAll not "&sim;" text = text /\
  replaceAll then_ "&rarr;" text = text /\
  replaceAll xor "&oplus;" text = text /\
  replaceAll equals "&equiv;" text = text /\
  replaceAllChar "(" "&lpar;" text = text /\
  replaceAllChar ")" "&rpar;" text = text.
Proof.
  intros text.
  rewrite replaceAll_and, replaceAll_or, replaceAll_not, replaceAll_then, replaceAll_xor,
    replaceAll_equals, replaceAllChar_lpar, replaceAllChar_rpar.
  repeat split; apply apply_pass_nohit, prettyPrint_nohit.
Qed.

(** C9: [prettyPrint] is idempotent: applied to a text that it has produced,
    it changes nothing, since what it writes holds no operator that it would
    replace again. *)
Theorem prettyPrint_idempotent (string : str) :
  prettyPrint (prettyPrint string) = prettyPrint string.
Proof.
  rewrite (prettyPrint_passes (prettyPrint string)). unfold passes. cbn [fold_left].
  rewrite (apply_pass_nohit PAnd) by apply prettyPrint_nohit.
  rewrite (apply_pass_nohit POr) by apply prettyPrint_nohit.
  rewrite (apply_pass_nohit PNot) by apply prettyPrint_nohit.
  rewrite (apply_pass_nohit PThen) by apply prettyPrint_nohit.
  rewrite (apply_pass_nohit PXor) by apply prettyPrint_nohit.
  rewrite (apply_pass_nohit PEquals) by apply prettyPrint_nohit.
  rewrite (apply_pass_nohit PLpar) by apply prettyPrint_nohit.
  rewrite (apply_pass_nohit PRpar) by apply prettyPrint_nohit.
  reflexivity.
Qed.

(** ** The table of a connective, for any two letters *)

(** The code of a statement with two premises: what stands before, between
    and after them. *)
Definition framed (fr : str * str * str) (x y : str) : str :=
  fst (fst fr) ++ x ++ snd (fst fr) ++ y ++ snd fr.

Definition frame (c : connective) : str * str * str :=
  match c with
  | Conjunction => ([], " && " : str, [])
  | Disjunction => ([], " || " : str, [])
  | Implication => ("!(" : str, ") || (" : str, ")" : str)
  | Biconditional => ([], " == " : str, [])
  | ExclusiveOr => ([], " ^ " : str, [])
  end.

Definition frames : list (str * str * str) :=
  ("(" : str, " && " : str, ")" : str)
  :: map frame [Conjunction; Disjunction; Implication; Biconditional; ExclusiveOr].

Lemma compiled_framed (c : connective) (p q : ascii) :
  compiled c p q = framed (frame c) [p] [q].
Proof. destruct c; reflexivity. Qed.

Lemma lower_premise_char (c : ascii) : is_lower c = true -> premise_char c = true.
Proof.
  intros H. apply is_lower_In in H. cbn in H.
  repeat (destruct H as [<-|H]; [reflexivity|]). contradiction.
Qed.

Lemma lower_is_word (c : ascii) : is_lower c = true -> is_word c = true.
Proof.
  intros H. apply is_lower_In in H. cbn in H.
  repeat (destruct H as [<-|H]; [reflexivity|]). contradiction.
Qed.

Lemma lower_distinct_check :
  forallb (fun p =>
    forallb (fun q => Ascii.eqb p q || negb (Matcher.same_char true p q))
      lower_case_letters) lower_case_letters = true.
Proof. vm_compute. reflexivity. Qed.

Lemma lower_distinct (p q : ascii) :
  is_lower p = true -> is_lower q = true -> p <> q -> Matcher.same_char true p q = false.
Proof.
  intros Hp Hq Hpq. pose proof lower_distinct_check as H.
  rewrite forallb_forall in H. specialize (H p (is_lower_In p Hp)). cbv beta in H.
  rewrite forallb_forall in H. specialize (H q (is_lower_In q Hq)). cbv beta in H.
  apply orb_prop in H as [H|H].
  - apply Ascii.eqb_eq in H. contradiction.
  - apply negb_true_iff in H. exact H.
Qed.

Lemma str_eqb_neq (a b : str) : a <> b -> str_eqb a b = false.
Proof. intros H. unfold str_eqb. destruct (list_eq_dec ascii_dec a b); [contradiction|reflexivity]. Qed.

Ltac premise_chars Hp Hq :=
  repeat (cbn -[premise_char];
    match goal with
    | |- context [premise_char ?c] =>
        first [ rewrite Hp | rewrite Hq
              | let v := eval vm_compute in (premise_char c) in
                progress change (premise_char c) with v ]
    end).


(** The texts matched by the premises expression, read step by step. *)
Definition texts (ps : list (ascii + matched)) : list str :=
  flat_map (fun p => match p with inl _ => [] | inr m => [whole m] end) ps.

Lemma texts_end (n : nat) (b : str) : texts (pieces_from premises n b []) = [].
Proof. destruct n; reflexivity. Qed.

Lemma texts_skip (n : nat) (b : str) (c : ascii) (a : str) :
  premise_char c = false ->
  texts (pieces_from premises (S n) b (c :: a)) = texts (pieces_from premises n (c :: b) a).
Proof.
  intros Hc. cbn [pieces_from]. unfold exec_at, Matcher.exec, premises.
  cbn [pattern ignoreCase global Matcher.rmatch]. unfold Matcher.one at 1.
  cbn [Matcher.advance]. rewrite Hc. reflexivity.
Qed.

Lemma texts_one (n : nat) (b : str) (p : ascii) (a : str) :
  premise_char p = true ->
  match a with [] => True | c :: _ => premise_char c = false end ->
  texts (pieces_from premises (S n) b (p :: a)) =
  [p] :: texts (pieces_from premises n (p :: b) a).
Proof.
  intros Hp Ha. cbn [pieces_from].
  assert (Hexec : exec_at premises b (p :: a) = Some ((p :: b, a), [])).
  { unfold exec_at, Matcher.exec, premises.
    cbn [pattern ignoreCase global Matcher.rmatch]. unfold Matcher.one at 1.
    cbn [Matcher.advance]. rewrite Hp. cbn [Matcher.ahead snd].
    destruct a as [|c a]; [reflexivity|].
    cbn [length Matcher.more_greedy]. unfold Matcher.one. cbn [Matcher.advance].
    rewrite Ha. reflexivity. }
  rewrite Hexec. cbn [length].
  destruct (Nat.eqb_spec (length a) (S (length a))) as [Heq|_]; [lia|].
  cbn [texts flat_map whole app]. f_equal.
  apply (between_positions_forward b (p :: a) [p] a).
Qed.

Lemma premiseOrder_framed (fr : str * str * str) (p q : ascii) :
  In fr frames ->
  is_lower p = true -> is_lower q = true -> p <> q ->
  premiseOrder_of [framed fr [p] [q]] = [[p]; [q]].
Proof.
  intros Hfr Hp Hq Hpq.
  apply lower_premise_char in Hp, Hq.
  assert (Hne : str_eqb [q] [p] = false) by (apply str_eqb_neq; congruence).
  unfold premiseOrder_of, unique, matchAll, pieces. fold texts.
  cbn in Hfr.
  repeat (destruct Hfr as [<-|Hfr];
    [ cbn [join framed fst snd app length list_ascii_of_string];
      repeat first [ rewrite texts_skip by reflexivity
                   | rewrite texts_one by (first [assumption | reflexivity | exact I])
                   | rewrite texts_end ];
      cbn [unique_from existsb orb]; rewrite Hne; reflexivity |]).
  contradiction.
Qed.

Lemma map_words_other (f : str -> str) (c : ascii) (rest : str) :
  is_word c = false -> map_words f (c :: rest) = c :: map_words f rest.
Proof. intros H. unfold map_words. cbn [map_words_from]. rewrite H. reflexivity. Qed.

Lemma map_words_letter (f : str -> str) (c : ascii) (rest : str) :
  is_word c = true -> starts_word rest = false ->
  map_words f (c :: rest) = f [c] ++ map_words f rest.
Proof.
  intros Hc Hrest. apply (map_words_word f [c] rest); [discriminate | | exact Hrest].
  cbn [forallb]. rewrite Hc. reflexivity.
Qed.

Lemma same_letters_letter (c : ascii) : same_letters [c] [c] = true.
Proof.
  cbn [same_letters]. unfold Matcher.same_char. rewrite Ascii.eqb_refl. reflexivity.
Qed.

Lemma same_letters_longer (c x y : ascii) (w : str) : same_letters [c] (x :: y :: w) = false.
Proof. cbn [same_letters]. apply andb_false_r. Qed.

Lemma substitute_letters (p q : ascii) (a b : bool) :
  is_lower p = true -> is_lower q = true -> p <> q ->
  for_ 2 (substitute_word [[p]; [q]] [VBool a; VBool b]) [p] = toString (VBool a) /\
  for_ 2 (substitute_word [[p]; [q]] [VBool a; VBool b]) [q] = toString (VBool b).
Proof.
  intros Hp Hq Hpq. rewrite !for_S. unfold for_. cbn [seq fold_left].
  unfold substitute_word. cbn [nth].
  rewrite !same_letters_letter.
  assert (Hpq' : same_letters [p] [q] = false).
  { cbn [same_letters]. rewrite (lower_distinct p q Hp Hq Hpq). reflexivity. }
  rewrite Hpq'. rewrite same_letters_letter. split; [|reflexivity].
  destruct a; cbn [toString list_ascii_of_string]; rewrite same_letters_longer; reflexivity.
Qed.

Lemma substitute_framed (fr : str * str * str) (p q : ascii) (a b : bool) :
  In fr frames ->
  is_lower p = true -> is_lower q = true -> p <> q ->
  substitute [[p]; [q]] [VBool a; VBool b] [framed fr [p] [q]] =
  [framed fr (toString (VBool a)) (toString (VBool b))].
Proof.
  intros Hfr Hp Hq Hpq.
  rewrite substitute_by_words.
  - destruct (substitute_letters p q a b Hp Hq Hpq) as [Hfp Hfq].
    pose proof (lower_is_word p Hp) as Hwp. pose proof (lower_is_word q Hq) as Hwq.
    cbn [map length]. f_equal. cbn in Hfr.
    repeat (destruct Hfr as [<-|Hfr];
      [ cbn [framed fst snd app list_ascii_of_string];
        repeat first [ rewrite map_words_other by reflexivity
                     | rewrite map_words_letter by (first [assumption | reflexivity]) ];
        rewrite Hfp, Hfq; reflexivity |]).
    contradiction.
  - intros v [<-|[<-|[]]]; (split; [discriminate|]); cbn [forallb];
      rewrite ?(lower_is_word p Hp), ?(lower_is_word q Hq); reflexivity.
  - intros j Hj. destruct j as [|[|j]]; [exists a | exists b | cbn [length] in Hj; lia];
      reflexivity.
Qed.

(** The rows of a statement whose code is in a frame. *)
Fixpoint framed_rows (fr : str * str * str) (rows : list (bool * bool)) : exception + table :=
  match rows with
  | [] => inr []
  | (a, b) :: rest =>
      match evaluate [VBool a; VBool b]
              [framed fr (toString (VBool a)) (toString (VBool b))] with
      | inl e => inl e
      | inr row' =>
          match framed_rows fr rest with
          | inl e => inl e
          | inr body => inr (row' :: body)
          end
      end
  end.

Lemma eachRow_framed (fr : str * str * str) (p q : ascii) (rows : list (bool * bool)) :
  In fr frames ->
  is_lower p = true -> is_lower q = true -> p <> q ->
  eachRow [[p]; [q]] [framed fr [p] [q]]
    (map (fun ab : bool * bool => Some [VBool (fst ab); VBool (snd ab)]) rows) =
  framed_rows fr rows.
Proof.
  intros Hfr Hp Hq Hpq. induction rows as [|[a b] rows IH]; [reflexivity|].
  cbn [map eachRow framed_rows fst snd].
  rewrite (substitute_framed fr p q a b Hfr Hp Hq Hpq), IH. reflexivity.
Qed.

Definition assignments : list (bool * bool) :=
  [(true, true); (true, false); (false, true); (false, false)].

Lemma calculateTruthTable_framed (fr : str * str * str) (p q : ascii) (logic : str) :
  In fr frames ->
  is_lower p = true -> is_lower q = true -> p <> q ->
  split "," logic = [logic] ->
  parse logic = framed fr [p] [q] ->
  calculateTruthTable logic =
  match framed_rows fr assignments with
  | inl e => inl e
  | inr body => inr ([VStr [p]; VStr [q]; VStr logic] :: body)
  end.
Proof.
  intros Hfr Hp Hq Hpq Hsplit Hparse.
  unfold calculateTruthTable. cbv zeta. rewrite Hsplit. cbn [map]. rewrite Hparse.
  rewrite (premiseOrder_framed fr p q Hfr Hp Hq Hpq).
  change (enumerate [[p]; [q]])
    with (map (fun ab : bool * bool => Some [VBool (fst ab); VBool (snd ab)]) assignments).
  rewrite (eachRow_framed fr p q assignments Hfr Hp Hq Hpq). reflexivity.
Qed.

Lemma lower_not_comma (c : ascii) : is_lower c = true -> Ascii.eqb c "," = false.
Proof.
  intros H. apply is_lower_In in H. cbn in H.
  repeat (destruct H as [<-|H]; [reflexivity|]). contradiction.
Qed.

Lemma statement_no_comma (p q : ascii) (o pre post : str) :
  is_lower p = true -> is_lower q = true ->
  forallb (fun c => negb (Ascii.eqb c ",")) (pre ++ o ++ post) = true ->
  split "," (pre ++ statement_of p o q ++ post) = [pre ++ statement_of p o q ++ post].
Proof.
  intros Hp Hq Ho. apply split_no_separator. unfold statement_of.
  rewrite !forallb_app in *. cbn [forallb].
  rewrite (lower_not_comma p Hp), (lower_not_comma q Hq).
  apply andb_prop in Ho as [H1 Ho]. apply andb_prop in Ho as [H2 H3].
  rewrite H1, H2, H3. reflexivity.
Qed.

Lemma framed_rows_connective (c : connective) :
  framed_rows (frame c) assignments =
  inr (map (fun ab : bool * bool => [VBool (fst ab); VBool (snd ab); result_cell c (fst ab) (snd ab)])
         assignments).
Proof. destruct c; vm_compute; reflexivity. Qed.

Lemma framed_rows_parenthesised :
  framed_rows ("(" : str, " && " : str, ")" : str) assignments =
  inr (map (fun ab : bool * bool =>
              [VBool (fst ab); VBool (snd ab); result_cell Conjunction (fst ab) (snd ab)])
         assignments).
Proof. vm_compute. reflexivity. Qed.

Lemma connective_parse_all :
  forallb (fun oc : str * connective =>
    forallb (fun c => negb (Ascii.eqb c ",")) (fst oc)
    && forallb (fun p =>
         forallb (fun q =>
           Ascii.eqb p q
           || str_eqb (parse (statement_of p (fst oc) q)) (compiled (snd oc) p q))
           lower_case_letters) lower_case_letters) spellings_between = true.
Proof. vm_cast_no_check (@eq_refl bool true). Qed.

(** X9: for every spelling [o] of a connective and two different lower-case
    letters [p] and [q], [parse] turns [p o q] into the JavaScript expression
    of the connective, and the table of [p o q] has the premises [p] and [q],
    the four rows (T,T), (T,F), (F,T), (F,F) and in each the value of the
    connective. *)
Theorem table_of_connective (p q : ascii) (o : str) (c : connective) :
  In (o, c) spellings_between ->
  is_lower p = true -> is_lower q = true -> p <> q ->
  parse (statement_of p o q) = compiled c p q /\
  calculateTruthTable (statement_of p o q) = inr (table_of p q (statement_of p o q) c) /\
  forall a b : bool, Eval.toBoolean (result_cell c a b) = meaning c a b.
Proof.
  intros Ho Hp Hq Hpq.
  pose proof connective_parse_all as H. rewrite forallb_forall in H.
  specialize (H (o, c) Ho). cbv beta in H. cbn [fst snd] in H.
  apply andb_prop in H as [Hcomma H].
  rewrite forallb_forall in H. specialize (H p (is_lower_In p Hp)). cbv beta in H.
  rewrite forallb_forall in H. specialize (H q (is_lower_In q Hq)). cbv beta in H.
  apply orb_prop in H as [H|H]; [apply Ascii.eqb_eq in H; contradiction|].
  apply str_eqb_eq in H.
  split; [exact H|]. split.
  - assert (Hfr : In (frame c) frames).
    { right. apply in_map. destruct c; cbn; tauto. }
    pose proof (statement_no_comma p q o [] [] Hp Hq) as Hsplit.
    cbn [app] in Hsplit. rewrite !app_nil_r in Hsplit.
    rewrite (calculateTruthTable_framed (frame c) p q (statement_of p o q) Hfr Hp Hq Hpq
               (Hsplit Hcomma)).
    + rewrite framed_rows_connective. reflexivity.
    + rewrite H. apply compiled_framed.
  - intros a b. destruct c, a, b; reflexivity.
Qed.

Lemma table_of_connective_witness :
  parse (statement_of "r" "then" "s") = compiled Implication "r" "s" /\
  calculateTruthTable (statement_of "r" "then" "s") =
  inr (table_of "r" "s" (statement_of "r" "then" "s") Implication).
Proof.
  assert (Ho : In ("then" : str, Implication) spellings_between).
  { unfold spellings_between. do 7 right. left. reflexivity. }
  assert (Hp : is_lower "r" = true) by reflexivity.
  assert (Hq : is_lower "s" = true) by reflexivity.
  assert (Hpq : "r"%char <> "s"%char) by discriminate.
  pose proof (table_of_connective "r" "s" "then" Implication Ho Hp Hq Hpq) as H.
  destruct H as [H1 [H2 _]]. split; [exact H1 | exact H2].
Defined.

Lemma parenthesised_xor_parse_all :
  forallb (fun o =>
    forallb (fun p =>
      forallb (fun q =>
        Ascii.eqb p q
        || str_eqb (parse ("(" ++ statement_of p o q ++ ")"))
             ("(" ++ statement_of p "&&" q ++ ")"))
        lower_case_letters) lower_case_letters) ["xor" : str; "(+)" : str] = true.
Proof. vm_cast_no_check (@eq_refl bool true). Qed.

(** X11: an exclusive or in parentheses is compiled to a conjunction.  The
    inside of the group is compiled first, to [p ^ q]; the translation of the
    text around the group then reads [^] as a spelling of the conjunction.
    So the table of [(p xor q)] is the table of [p and q]. *)
Theorem parenthesised_xor_is_conjunction (p q : ascii) (o : str) :
  In o ["xor" : str; "(+)" : str] ->
  is_lower p = true -> is_lower q = true -> p <> q ->
  parse ("(" ++ statement_of p o q ++ ")") = "(" ++ statement_of p "&&" q ++ ")" /\
  calculateTruthTable ("(" ++ statement_of p o q ++ ")") =
  inr (table_of p q ("(" ++ statement_of p o q ++ ")") Conjunction).
Proof.
  intros Ho Hp Hq Hpq.
  pose proof parenthesised_xor_parse_all as H. rewrite forallb_forall in H.
  specialize (H o Ho). cbv beta in H.
  rewrite forallb_forall in H. specialize (H p (is_lower_In p Hp)). cbv beta in H.
  rewrite forallb_forall in H. specialize (H q (is_lower_In q Hq)). cbv beta in H.
  apply orb_prop in H as [H|H]; [apply Ascii.eqb_eq in H; contradiction|].
  apply str_eqb_eq in H.
  split; [exact H|].
  assert (Hfr : In ("(" : str, " && " : str, ")" : str) frames) by (left; reflexivity).
  assert (Hcomma : forallb (fun c => negb (Ascii.eqb c ",")) ("(" ++ o ++ ")") = true).
  { destruct Ho as [<-|[<-|[]]]; reflexivity. }
  rewrite (calculateTruthTable_framed _ p q _ Hfr Hp Hq Hpq
             (statement_no_comma p q o "(" ")" Hp Hq Hcomma)).
  - rewrite framed_rows_parenthesised. reflexivity.
  - rewrite H. reflexivity.
Qed.

Lemma parenthesised_xor_is_conjunction_witness :
  parse ("(" ++ statement_of "r" "xor" "s" ++ ")") = "(" ++ statement_of "r" "&&" "s" ++ ")" /\
  calculateTruthTable ("(" ++ statement_of "r" "xor" "s" ++ ")") =
  inr (table_of "r" "s" ("(" ++ statement_of "r" "xor" "s" ++ ")") Conjunction).
Proof.
  assert (Ho : In ("xor" : str) ["xor" : str; "(+)" : str]) by (left; reflexivity).
  assert (Hp : is_lower "r" = true) by reflexivity.
  assert (Hq : is_lower "s" = true) by reflexivity.
  assert (Hpq : "r"%char <> "s"%char) by discriminate.
  exact (parenthesised_xor_is_conjunction "r" "s" "xor" Ho Hp Hq Hpq).
Defined.
